(** * ol/layer/Hilomap: the per-frame rasterisation pipeline

    A shallow embedding of [src/ol/layer/Hilomap.js] and the properties of
    its render handler, its circle stamp and its gradient table.

    Numbers.  JavaScript numbers are IEEE doubles.  A finite double is a
    rational, and the numbers are rationals extended with NaN and the two
    infinities ([Js.Num]), so that a division by zero or an arithmetic
    operation on [undefined] behaves as it does in the source.  Where a
    branch of the code is decided by the outcome of a rounded operation,
    the comparison of line 360 and the test of line 301, the operation is
    rounded to the binary64 format as IEEE 754 does ([F64]); the other
    operations are kept exact.  There is a single zero, which divides as +0
    does.  Numbers handed over by the host (coordinates, extent, pixel
    ratio, resolution, radius, blur) are finite doubles and are plain
    rationals here; the view resolution of a frame state is positive, and
    the quotient of two view resolutions is within the range of the
    doubles.

    Canvas.  The 2D context is owned by the host.  A canvas is represented by
    its size, in whole pixels, and the calls issued on it so far, read-backs
    included; what a read-back returns for such a canvas is a parameter of
    the development ([Section Pipeline]). *)

From Stdlib Require Import ZArith QArith Qround Qabs Qpower Lqa Lia Bool List.
From Stdlib Require Import Strings.Byte SpecFloat.
From stdpp Require Import base option list gmap strings.

Local Open Scope Z_scope.

(** ** Rational helpers *)

Definition Qltb (a b : Q) : bool := negb (Qle_bool b a).
Definition Qeqb (a b : Q) : bool := Qeq_bool a b.

(** ** JavaScript numbers *)

Module Js.

Inductive Num : Type :=
| Fin (q : Q)
| NaN
| PInf
| NInf.

Definition of_Z (z : Z) : Num := Fin (inject_Z z).

Definition neg (a : Num) : Num :=
  match a with
  | Fin q => Fin (- q)
  | NaN => NaN
  | PInf => NInf
  | NInf => PInf
  end.

Definition add (a b : Num) : Num :=
  match a, b with
  | NaN, _ | _, NaN => NaN
  | Fin x, Fin y => Fin (x + y)
  | PInf, NInf | NInf, PInf => NaN
  | PInf, _ | _, PInf => PInf
  | NInf, _ | _, NInf => NInf
  end.

Definition sub (a b : Num) : Num :=
  match a, b with
  | Fin x, Fin y => Fin (x - y)
  | _, _ => add a (neg b)
  end.

(** The infinity whose sign is that of [q] times [s]; NaN when [q] is 0. *)
Definition signed_inf (positive : bool) (q : Q) : Num :=
  if Qeqb q 0 then NaN
  else if xorb positive (Qltb 0 q) then NInf else PInf.

Definition mul (a b : Num) : Num :=
  match a, b with
  | NaN, _ | _, NaN => NaN
  | Fin x, Fin y => Fin (x * y)
  | PInf, Fin q | Fin q, PInf => signed_inf true q
  | NInf, Fin q | Fin q, NInf => signed_inf false q
  | PInf, PInf | NInf, NInf => PInf
  | PInf, NInf | NInf, PInf => NInf
  end.

Definition div (a b : Num) : Num :=
  match a, b with
  | NaN, _ | _, NaN => NaN
  | Fin x, Fin y =>
      if Qeqb y 0 then signed_inf true x else Fin (x / y)
  | Fin _, PInf | Fin _, NInf => Fin 0
  | PInf, Fin q => if Qltb q 0 then NInf else PInf
  | NInf, Fin q => if Qltb q 0 then PInf else NInf
  | _, _ => NaN
  end.

Definition abs (a : Num) : Num :=
  match a with
  | Fin q => Fin (Qabs q)
  | NaN => NaN
  | PInf | NInf => PInf
  end.

(** [a < b]; false as soon as one side is NaN. *)
Definition ltb (a b : Num) : bool :=
  match a, b with
  | NaN, _ | _, NaN => false
  | Fin x, Fin y => Qltb x y
  | NInf, NInf | PInf, _ | _, NInf => false
  | NInf, _ | _, PInf => true
  end.

Definition gtb (a b : Num) : bool := ltb b a.

(** [a <= b]; false as soon as one side is NaN. *)
Definition leb (a b : Num) : bool :=
  match a, b with
  | NaN, _ | _, NaN => false
  | Fin x, Fin y => Qle_bool x y
  | NInf, _ | _, PInf => true
  | PInf, _ | _, NInf => false
  end.

(** [Math.max(a, b)] and [Math.min(a, b)]. *)
Definition max (a b : Num) : Num :=
  match a, b with
  | NaN, _ | _, NaN => NaN
  | _, _ => if ltb a b then b else a
  end.

Definition min (a b : Num) : Num :=
  match a, b with
  | NaN, _ | _, NaN => NaN
  | _, _ => if ltb b a then b else a
  end.

(** [Math.round]: the nearest integer, halves towards +Infinity. *)
Definition round (a : Num) : Num :=
  match a with
  | Fin q => of_Z (Qfloor (q + (1 # 2)))
  | _ => a
  end.

(** Truthiness of a number: everything but 0 and NaN. *)
Definition truthy (a : Num) : bool :=
  match a with
  | Fin q => negb (Qeqb q 0)
  | NaN => false
  | PInf | NInf => true
  end.

Definition is_real (a : Num) : Prop :=
  match a with Fin _ => True | _ => False end.

(** The array index a number denotes as a property key, if any. *)
Definition to_index (a : Num) : option nat :=
  match a with
  | Fin q =>
      if Qeqb (inject_Z (Qfloor q)) q && (0 <=? Qfloor q)
      then Some (Z.to_nat (Qfloor q)) else None
  | _ => None
  end.

End Js.

Declare Scope js_scope.
Delimit Scope js_scope with js.
Bind Scope js_scope with Js.Num.
Infix "+" := Js.add : js_scope.
Infix "-" := Js.sub : js_scope.
Infix "*" := Js.mul : js_scope.
Infix "/" := Js.div : js_scope.
Coercion Js.Fin : Q >-> Js.Num.

(** [clamp] of ol/math.js: [Math.min(Math.max(value, min), max)]. *)
Definition clamp (value lo hi : Js.Num) : Js.Num :=
  Js.min (Js.max value lo) hi.

(** [Math.round] and [Math.floor] on finite numbers, as integers. *)
Definition Math_round (q : Q) : Z := Qfloor (q + (1 # 2)).

(** ** Completions: a call returns or throws *)

Inductive JsError : Type :=
| TypeError
| IndexSizeError
| SyntaxError.

Inductive Completion (A : Type) : Type :=
| Normal (a : A)
| Throw (e : JsError).

Arguments Normal {A} a.
Arguments Throw {A} e.

Definition bind {A B} (m : Completion A) (k : A -> Completion B) : Completion B :=
  match m with
  | Normal a => k a
  | Throw e => Throw e
  end.

Notation "x <- m ;; k" := (bind m (fun x => k))
  (at level 100, m at next level, right associativity).

(** ** Uint8ClampedArray *)

Module U8.

Definition to_Z (b : byte) : Z := Z.of_N (Byte.to_N b).

Definition of_Z (z : Z) : byte :=
  default x00 (Byte.of_N (Z.to_N (Z.max 0 (Z.min 255 z)))).

(** Rounding of the conversion to a clamped byte: nearest, ties to even. *)
Definition round_half_even (q : Q) : Z :=
  let f := Qfloor q in
  if Qltb (inject_Z f + (1 # 2)) q then f + 1
  else if Qltb q (inject_Z f + (1 # 2)) then f
  else if Z.even f then f else f + 1.

(** The byte a number is stored as: NaN as 0, the rest clamped to 0..255. *)
Definition of_Num (v : Js.Num) : byte :=
  match v with
  | Js.Fin q => of_Z (round_half_even q)
  | Js.NaN => x00
  | Js.PInf => xff
  | Js.NInf => x00
  end.

(** [new Uint8ClampedArray(n)]: [n] zero bytes. *)
Definition make (n : Q) : list byte := replicate (Z.to_nat (Qfloor n)) x00.

(** [a[i]] read as a number; out of range it is [undefined], that is NaN
    in arithmetic and 0 when stored into a typed array. *)
Definition get (a : list byte) (i : nat) : Js.Num :=
  match a !! i with
  | Some b => Js.of_Z (to_Z b)
  | None => Js.NaN
  end.

(** [a[k]] for a computed key [k]. *)
Definition get_at (a : list byte) (k : Js.Num) : Js.Num :=
  match Js.to_index k with
  | Some i => get a i
  | None => Js.NaN
  end.

(** [a[i] = v]; a write out of range is ignored. *)
Definition set (a : list byte) (i : nat) (v : Js.Num) : list byte :=
  <[i := of_Num v]> a.

End U8.

(** ** Doubles

    The binary64 format: 53 significant bits, exponents from -1074 for the
    unit of the subnormal numbers up to 971 for the unit of the greatest
    ones.  An operation returns the number of the format nearest to its
    exact result, and of two nearest ones that with an even significand;
    a result that rounds to 2^1024 or beyond is an infinity. *)

Module F64.

(** 2^e as a rational. *)
Definition pow2 (e : Z) : Q := (2 ^ e)%Q.

(** For [a > 0], the exponent [e] with [2^e <= a < 2^(e+1)]: the difference
    of the bit lengths of numerator and denominator, or one less. *)
Definition exponent (a : Q) : Z :=
  let l := Z.log2 (Qnum a) - Z.log2 (Zpos (Qden a)) in
  if Qltb a (pow2 l) then l - 1 else l.

(** The unit in the last place of the format at [a > 0]. *)
Definition ulp (a : Q) : Q := pow2 (Z.max (-1074) (exponent a - 52)).

(** The number of the format nearest to [q], were the exponents unbounded
    above. *)
Definition nearest (q : Q) : Q :=
  if Qeqb q 0 then 0%Q
  else
    let a := Qabs q in
    let u := ulp a in
    let r := (inject_Z (U8.round_half_even (a / u)) * u)%Q in
    if Qltb 0 q then r else (- r)%Q.

(** The double an exact result is rounded to. *)
Definition round (q : Q) : Js.Num :=
  let r := nearest q in
  if Qle_bool (pow2 1024) r then Js.PInf
  else if Qle_bool r (- pow2 1024) then Js.NInf
  else Js.Fin r.

(** [a - b] on doubles. *)
Definition sub (a b : Js.Num) : Js.Num :=
  match (a - b)%js with
  | Js.Fin q => round q
  | v => v
  end.

(** The same numbers in the Standard Library's specification of IEEE 754
    ([SpecFloat], at precision 53 and maximal exponent 1024): a double as a
    sign, a significand and an exponent, and back. *)
Definition to_spec (q : Q) : spec_float :=
  let r := Qred q in
  match Qnum r with
  | Z0 => S754_zero false
  | Zpos m => S754_finite false m (- Z.log2 (Zpos (Qden r)))
  | Zneg m => S754_finite true m (- Z.log2 (Zpos (Qden r)))
  end.

Definition of_spec (x : spec_float) : Js.Num :=
  match x with
  | S754_zero _ => Js.Fin 0
  | S754_infinity s => if s then Js.NInf else Js.PInf
  | S754_nan => Js.NaN
  | S754_finite s m e => Js.Fin ((if s then -1 else 1) * inject_Z (Zpos m) * pow2 e)
  end.

Definition same (a b : Js.Num) : bool :=
  match a, b with
  | Js.Fin x, Js.Fin y => Qeqb x y
  | Js.NaN, Js.NaN | Js.PInf, Js.PInf | Js.NInf, Js.NInf => true
  | _, _ => false
  end.

End F64.

(** [for (let i = 0; i < len; i += 4) body(i)] *)
Definition for4 {S : Type} (len : nat) (body : nat -> S -> S) (s : S) : S :=
  fold_left (fun acc k => body (4 * k)%nat acc) (seq 0 ((len + 3) / 4)) s.

(** ** The canvas, as the host exposes it *)

Inductive Angle : Type :=
| Rad (q : Q)
| PiTimes (q : Q).

Record CanvasGradient : Type := {
  g_x0 : Q; g_y0 : Q; g_x1 : Q; g_y1 : Q;
  colorStops : list (Q * string)
}.

Record ImageData : Type := {
  im_width : Q;
  im_height : Q;
  data : list byte
}.

Inductive Call : Type :=
| SetShadowOffsetX (v : Q)
| SetShadowOffsetY (v : Q)
| SetShadowBlur (v : Q)
| SetShadowColor (c : string)
| BeginPath
| Arc (x y r : Q) (startAngle endAngle : Angle) (anticlockwise : bool)
| ClosePath
| Fill
| ClearRect (x y w h : Q)
| SetGlobalAlpha (v : Js.Num)
| DrawImage (image : Canvas) (dx dy : Q)
| SetFillStyle (g : CanvasGradient)
| FillRect (x y w h : Q)
| GetImageData (sx sy sw sh : Q)
| PutImageData (image : ImageData) (dx dy : Q)
with Canvas : Type :=
| mkCanvas (width height : Q) (history : list Call).

Definition width (c : Canvas) : Q := let (w, _, _) := c in w.
Definition height (c : Canvas) : Q := let (_, h, _) := c in h.
Definition history (c : Canvas) : list Call := let (_, _, l) := c in l.

(** Issue one call on a context. *)
Definition call (k : Call) (c : Canvas) : Canvas :=
  mkCanvas (width c) (height c) (history c ++ [k]).

(** The integer part of a number: the number cut towards zero. *)
Definition integerPart (q : Q) : Z := Z.quot (Qnum q) (Zpos (Qden q)).

(** The width or the height a canvas has after a size was asked for.  The
    two are whole numbers of pixels (attributes of type [unsigned long]):
    the number asked for is cut to its integer part, taken modulo 2^32.
    Where the result is no size of a canvas (it exceeds 2^31 - 1), and
    where no size is asked for (the number is 0), the canvas has its
    default size. *)
Definition canvasSize (asked : Q) (default : Z) : Q :=
  let n := integerPart asked mod 2 ^ 32 in
  inject_Z (if Qeqb asked 0 || (2 ^ 31 - 1 <? n) then default else n).

(** Modelled from the spec: [createCanvasContext2D] of ol/dom.js, which is
    not part of the layer's file: "create an offscreen 2D context of given
    size".  The new canvas has the size asked for, in whole pixels (300 by
    150 by default), and nothing drawn. *)
Definition createCanvasContext2D (w h : Q) : Canvas :=
  mkCanvas (canvasSize w 300) (canvasSize h 150) [].

(** Number of bytes of the backing store: four per pixel. *)
Definition byteLength (c : Canvas) : nat :=
  Z.to_nat (4 * Qfloor (width c) * Qfloor (height c)).

Definition calls (ks : list Call) (c : Canvas) : Canvas :=
  fold_left (fun acc k => call k acc) ks c.

(** ** Features, layers and frame state *)

(** A feature of the vector source: its point geometry, if it has one, and
    its attributes.  An attribute that is absent reads as [undefined]; every
    use of a weight below is arithmetic, where [undefined] is NaN. *)
Record Feature : Type := {
  getGeometry : option (Q * Q);
  properties : gmap string Js.Num
}.

Definition get (f : Feature) (key : string) : Js.Num :=
  default Js.NaN (properties f !! key).

Record Source : Type := {
  getFeatures : option (list Feature)
}.

(** The layer object: its observable properties, what it inherits from the
    vector layer that the handler reads, and its private fields. *)
Record Hilomap : Type := {
  getGradient : list string;
  getBlur : Q;
  getRadius : Q;
  getVisible : bool;
  getSource : option Source;
  gradient_ : list byte;
  shadow_ : Q;
  circleImage_ : option Canvas;
  weight_ : Feature -> Js.Num;
  baseResolution_ : option Q
}.

Inductive Layer : Type :=
| HilomapLayer (l : Hilomap)
| OtherLayer.

Record LayerState : Type := { layer : Layer }.

Record Transform : Type := {
  t0 : Q; t1 : Q; t2 : Q; t3 : Q; t4 : Q; t5 : Q
}.

Record FrameState : Type := {
  resolution : Q;
  extent : Q * Q * Q * Q;
  pixelRatio : Q;
  coordinateToPixelTransform : Transform;
  layerStatesArray : list LayerState
}.

Record RenderEvent : Type := {
  context : Canvas;
  frameState : FrameState
}.

(** Modelled from the spec: [transform2D] of ol/geom/flat/transform.js on
    one coordinate pair, "an affine coordinate-to-pixel transform". *)
Definition transform2D (coord : Q * Q) (t : Transform) : Q * Q :=
  let (x, y) := coord in
  (t0 t * x + t2 t * y + t4 t, t1 t * x + t3 t * y + t5 t)%Q.

Inductive WeightOption : Type :=
| WeightAttribute (name : string)
| WeightFunction (f : Feature -> Js.Num).

Record Options : Type := {
  o_gradient : option (list string);
  o_radius : option Q;
  o_blur : option Q;
  o_shadow : option Q;
  o_weight : option WeightOption;
  o_visible : option bool;
  o_source : option Source
}.

(** ** The circle stamp *)

Definition createCircle_ (this : Hilomap) (scaleRatio : Q) : Canvas :=
  let radius := (getRadius this * scaleRatio)%Q in
  let blur := (getBlur this * scaleRatio)%Q in
  let halfSize := (radius + blur + 1)%Q in
  let size := (2 * halfSize)%Q in
  let context := createCanvasContext2D size size in
  let center := (-1 * halfSize)%Q in
  calls [ SetShadowOffsetY size;
          SetShadowOffsetX size;
          SetShadowBlur blur;
          SetShadowColor "#000";
          BeginPath;
          Arc center center radius (Rad 0) (PiTimes 2) true;
          ClosePath;
          Fill ] context.

Definition handleStyleChanged_ (this : Hilomap) : Hilomap :=
  {| getGradient := getGradient this;
     getBlur := getBlur this;
     getRadius := getRadius this;
     getVisible := getVisible this;
     getSource := getSource this;
     gradient_ := gradient_ this;
     shadow_ := shadow_ this;
     circleImage_ := Some (createCircle_ this 1);
     weight_ := weight_ this;
     baseResolution_ := baseResolution_ this |}.

Definition set_baseResolution_ (v : option Q) (this : Hilomap) : Hilomap :=
  {| getGradient := getGradient this;
     getBlur := getBlur this;
     getRadius := getRadius this;
     getVisible := getVisible this;
     getSource := getSource this;
     gradient_ := gradient_ this;
     shadow_ := shadow_ this;
     circleImage_ := circleImage_ this;
     weight_ := weight_ this;
     baseResolution_ := v |}.

Definition set_shadow_ (v : Q) (this : Hilomap) : Hilomap :=
  {| getGradient := getGradient this;
     getBlur := getBlur this;
     getRadius := getRadius this;
     getVisible := getVisible this;
     getSource := getSource this;
     gradient_ := gradient_ this;
     shadow_ := v;
     circleImage_ := circleImage_ this;
     weight_ := weight_ this;
     baseResolution_ := baseResolution_ this |}.

(** ** The sparse grid *)

(** A JavaScript array used as a sparse map: its own properties by integer
    key, and its [length].  Only a key that is an array index moves the
    length; any other integer key is an ordinary property. *)
Record JsArray (A : Type) : Type := {
  elems : gmap Z A;
  arr_length : Z
}.

Arguments elems {A} _.
Arguments arr_length {A} _.

Definition is_array_index (k : Z) : bool := (0 <=? k) && (k <? 2 ^ 32 - 1).

Definition arr_empty {A} : JsArray A := {| elems := ∅; arr_length := 0 |}.

Definition arr_get {A} (a : JsArray A) (k : Z) : option A := elems a !! k.

Definition arr_set {A} (a : JsArray A) (k : Z) (v : A) : JsArray A :=
  {| elems := <[k := v]> (elems a);
     arr_length := if is_array_index k && (arr_length a <=? k)
                   then k + 1 else arr_length a |}.

(** A cell of the grid and a point of the point set: [[px, py, weight]]. *)
Definition Point : Type := Z * Z * Js.Num.

Definition p_x (p : Point) : Z := p.1.1.
Definition p_y (p : Point) : Z := p.1.2.
Definition p_w (p : Point) : Js.Num := p.2.

Definition Grid : Type := JsArray (JsArray Point).

Definition cellOf (cellSize : Z) (p : Point) : Z * Z :=
  (p_y p / cellSize, p_x p / cellSize).

Definition grid_get (xyz : Grid) (c : Z * Z) : option Point :=
  row ← arr_get xyz c.1; arr_get row c.2.

(** Lines 352-365: file one projected feature in its cell. *)
Definition addToGrid (cellSize : Z) (xyz : Grid) (p : Point) : Grid :=
  let '(px, py, weight) := p in
  let cx := px / cellSize in
  let cy := py / cellSize in
  let row := default arr_empty (arr_get xyz cy) in
  match arr_get row cx with
  | None => arr_set xyz cy (arr_set row cx (px, py, weight))
  | Some cell =>
      if Js.gtb (Js.abs (F64.sub weight (1 # 2))) (Js.abs (F64.sub (p_w cell) (1 # 2)))
      then arr_set xyz cy (arr_set row cx (px, py, weight))
      else arr_set xyz cy row
  end.

(** Lines 342-350: the geometry of a feature, the extent test, the pixel the
    feature lands on and its weight.  [None] is the [continue] of line 345;
    a feature without geometry makes [getCoordinates] a call on
    [undefined]. *)
Definition projectFeature (this : Hilomap) (fs : FrameState) (feature : Feature)
  : Completion (option Point) :=
  match getGeometry feature with
  | None => Throw TypeError
  | Some coord =>
      let '(bb0, bb1, bb2, bb3) := extent fs in
      if Qltb coord.1 bb0 || Qltb coord.2 bb1 || Qltb bb2 coord.1 || Qltb bb3 coord.2
      then Normal None
      else
        let grid_coord := transform2D coord (coordinateToPixelTransform fs) in
        let px := Math_round (grid_coord.1 * pixelRatio fs) in
        let py := Math_round (grid_coord.2 * pixelRatio fs) in
        let weight := weight_ this feature in
        Normal (Some (px, py, weight))
  end.

(** Lines 341-367: the loop over the features. *)
Fixpoint fillGrid (this : Hilomap) (fs : FrameState) (cellSize : Z)
    (features : list Feature) (xyz : Grid) : Completion Grid :=
  match features with
  | [] => Normal xyz
  | feature :: rest =>
      p <- projectFeature this fs feature ;;
      fillGrid this fs cellSize rest
        (match p with
         | Some p => addToGrid cellSize xyz p
         | None => xyz
         end)
  end.

(** Line 377: the point pushed for an occupied cell. *)
Definition pushed (p : Point) : Point :=
  (Math_round (inject_Z (p_x p)),
   Math_round (inject_Z (p_y p)),
   clamp (p_w p) 0%Q 1%Q).

(** Lines 370-380: the occupied cells, row by row, clamped. *)
Definition collectRow (row : JsArray Point) (pointset : list Point) : list Point :=
  fold_left
    (fun acc j =>
       match arr_get row j with
       | Some p => acc ++ [pushed p]
       | None => acc
       end)
    (seqZ 0 (arr_length row)) pointset.

Definition collectPoints (xyz : Grid) : list Point :=
  fold_left
    (fun acc i =>
       match arr_get xyz i with
       | Some row => collectRow row acc
       | None => acc
       end)
    (seqZ 0 (arr_length xyz)) [].

(** Lines 335-382 for the layer found. *)
Definition coarsen (this : Hilomap) (fs : FrameState) (cellSize : Z)
    (found : Hilomap) : Completion (list Point) :=
  match getSource found with
  | None => Throw TypeError
  | Some source =>
      match getFeatures source with
      | Some features =>
          xyz <- fillGrid this fs cellSize features arr_empty ;;
          Normal (collectPoints xyz)
      | None => Normal []
      end
  end.

(** Lines 320-331: the first visible Hilomap layer of the frame. *)
Fixpoint findLayer (layers : list LayerState) : option Hilomap :=
  match layers with
  | [] => None
  | ls :: rest =>
      match layer ls with
      | HilomapLayer l => if getVisible l then Some l else findLayer rest
      | OtherLayer => findLayer rest
      end
  end.

(** Lines 296-303 and 316-318. *)
Definition withBaseResolution (this : Hilomap) (newResolution : Q) : Hilomap :=
  match baseResolution_ this with
  | None => set_baseResolution_ (Some newResolution) this
  | Some _ => this
  end.

Definition zoomRatioOf (this : Hilomap) (newResolution : Q) : Q :=
  let base := default newResolution (baseResolution_ this) in
  if Js.gtb (Js.abs (F64.sub newResolution base)) (F64.round (1 # 100000))
  then F64.nearest (base * 1 / newResolution)
  else 1%Q.

Definition stampRadius (this : Hilomap) (fs : FrameState) (zoomRatio : Q) : Q :=
  ((getRadius this + getBlur this + 1) * pixelRatio fs * zoomRatio)%Q.

Definition cellSizeOf (radius : Q) : Z :=
  let cellSize := Math_round (radius / 2) in
  if cellSize =? 0 then 1 else cellSize.

(** ** Drawing the point set *)

Definition clearCanvas (c : Canvas) : Canvas :=
  call (ClearRect 0 0 (width c) (height c)) c.

(** [context.globalAlpha = alpha; context.drawImage(circle, x - r, y - r)] *)
Definition stamp (circle : Canvas) (radius : Q) (alpha : Js.Num) (p : Point)
    (c : Canvas) : Canvas :=
  call (DrawImage circle (inject_Z (p_x p) - radius) (inject_Z (p_y p) - radius))
       (call (SetGlobalAlpha alpha) c).

Definition lowAlpha (w : Js.Num) : Js.Num := (((1 # 2) - w) * 2%Q)%js.
Definition highAlpha (w : Js.Num) : Js.Num := ((w - (1 # 2)) * 2%Q)%js.

(** Lines 393-401: round 1 draws the low points and sets the others aside. *)
Definition lowPass (circle : Canvas) (radius : Q) (pointset : list Point)
    (c : Canvas) : Canvas * list Point :=
  fold_left
    (fun '(ctx, hipoints) p =>
       if Js.leb (p_w p) (1 # 2)
       then (stamp circle radius (lowAlpha (p_w p)) p ctx, hipoints)
       else (ctx, hipoints ++ [p]))
    pointset (c, []).

(** Lines 417-421: round 2 draws the points set aside. *)
Definition highPass (circle : Canvas) (radius : Q) (hipoints : list Point)
    (c : Canvas) : Canvas :=
  fold_left (fun ctx p => stamp circle radius (highAlpha (p_w p)) p ctx) hipoints c.

(** Line 438: the opacity of a point in the final round. *)
Definition finalAlpha (w : Js.Num) : Js.Num :=
  if Js.leb w (1 # 2) then lowAlpha w else highAlpha w.

(** Lines 436-440: the final round draws every point. *)
Definition finalPass (circle : Canvas) (radius : Q) (pointset : list Point)
    (c : Canvas) : Canvas :=
  fold_left (fun ctx p => stamp circle radius (finalAlpha (p_w p)) p ctx) pointset c.

(** ** Resolving colours *)

(** Line 449. *)
Definition signedIntensity (hi lo : Js.Num) : Js.Num :=
  clamp (Js.round (128%Q + (hi - lo) / 2%Q)) 0%Q 255%Q.

Record Resolved : Type := {
  img : list byte;
  wMin : Js.Num;
  wMax : Js.Num
}.

(** Lines 449-462: one pixel of the colouring loop. *)
Definition colorStep (gradient hiA loA : list byte) (i : nat) (s : Resolved)
  : Resolved :=
  let w := signedIntensity (U8.get hiA (i + 3)) (U8.get loA (i + 3)) in
  let wMax1 := if Js.gtb w (wMax s) then w else wMax s in
  let wMin1 := if Js.ltb w (wMin s) then w else wMin s in
  let posOnGradient := (w * 4%Q)%js in
  {| img :=
       if Js.truthy posOnGradient then
         let img1 := U8.set (img s) i (U8.get_at gradient posOnGradient) in
         let img2 := U8.set img1 (i + 1) (U8.get_at gradient (posOnGradient + 1%Q)) in
         U8.set img2 (i + 2) (U8.get_at gradient (posOnGradient + 2%Q))
       else img s;
     wMin := wMin1;
     wMax := wMax1 |}.

(** Lines 447-463. *)
Definition colorize (gradient hiA loA img0 : list byte) : Resolved :=
  for4 (length img0) (colorStep gradient hiA loA)
       {| img := img0; wMin := 255%Q; wMax := 0%Q |}.

(** Line 467: the quotient, and one pixel of the rescaling loop. *)
Definition rescaled (a lo hi : Js.Num) : Js.Num :=
  Js.round ((a - lo) * 255%Q / (hi - lo)).

Definition rescaleStep (lo hi : Js.Num) (i : nat) (im : list byte) : list byte :=
  U8.set im (i + 3) (rescaled (U8.get im (i + 3)) lo hi).

(** Lines 466-468. *)
Definition rescale (lo hi : Js.Num) (im : list byte) : list byte :=
  for4 (length im) (rescaleStep lo hi) im.

(** Lines 446-468: what the handler does to the pixels it read back. *)
Definition resolve (gradient hiA loA img0 : list byte) : list byte :=
  let s := colorize gradient hiA loA img0 in
  rescale (wMin s) (wMax s) (img s).

(** ** The pipeline over a host canvas *)

Record Outcome : Type := {
  this' : Hilomap;
  context' : Canvas;
  completion : Completion unit
}.

Section Pipeline.

(** The byte at a given offset of the backing store of a canvas on which
    the recorded calls were issued: the host's rasteriser. *)
Variable sample : Canvas -> nat -> byte.

(** Whether the host parses a string as a CSS colour. *)
Variable parsesAsColor : string -> bool.

(** [context.getImageData(0, 0, canvas.width, canvas.height)]: the image
    the call returns, and the context once the call was issued. *)
Definition getImageData (c : Canvas) : ImageData :=
  {| im_width := width c;
     im_height := height c;
     data := map (sample c) (seq 0 (byteLength c)) |}.

Definition readBack (c : Canvas) : Canvas :=
  call (GetImageData 0 0 (width c) (height c)) c.

(** Lines 403-412 and 423-432: a fresh array that receives the alpha
    channel of the canvas. *)
Definition alphaOf (c : Canvas) : list byte :=
  let A := U8.make (width c * height c * 4) in
  let Img := data (getImageData c) in
  for4 (length Img) (fun i acc => U8.set acc (i + 3) (U8.get Img (i + 3))) A.

(** Lines 390-440: the three rounds.  Returns the context after the final
    round and the two alpha buffers. *)
Definition composite (circle : Canvas) (radius : Q) (pointset : list Point)
    (c : Canvas) : Canvas * list byte * list byte :=
  let '(c1, hipoints) := lowPass circle radius pointset (clearCanvas c) in
  let loA := alphaOf c1 in
  let c2 := highPass circle radius hipoints (clearCanvas (readBack c1)) in
  let hiA := alphaOf c2 in
  let c3 := finalPass circle radius pointset (clearCanvas (readBack c2)) in
  (c3, loA, hiA).

(** Lines 390-470: the rounds and the resolution of the colours.  Returns
    the context and the image to write back. *)
Definition rasterize (this : Hilomap) (circle : Canvas) (radius : Q)
    (pointset : list Point) (c : Canvas) : Canvas * ImageData :=
  let '(c3, loA, hiA) := composite circle radius pointset c in
  let image := getImageData c3 in
  (readBack c3,
   {| im_width := im_width image;
      im_height := im_height image;
      data := resolve (gradient_ this) hiA loA (data image) |}).

(** Lines 388-389 and 512-514. *)
Definition drawPointset (this : Hilomap) (circle : Canvas) (radius : Q)
    (pointset : list Point) (c : Canvas) : Canvas :=
  let '(c1, image) :=
    if (0 <? length pointset)%nat
    then let '(c1, im) := rasterize this circle radius pointset c in (c1, Some im)
    else (c, None) in
  match image with
  | Some im => call (PutImageData im 0 0) c1
  | None => c1
  end.

(** The handler of the render event. *)
Definition handleRender_ (this : Hilomap) (event : RenderEvent) : Outcome :=
  let context := context event in
  let frameState := frameState event in
  let newResolution := resolution frameState in
  let this1 := withBaseResolution this newResolution in
  let zoomRatio := zoomRatioOf this1 newResolution in
  let circleImage_ := createCircle_ this1 (pixelRatio frameState * zoomRatio) in
  let radius := stampRadius this1 frameState zoomRatio in
  let cellSize := cellSizeOf radius in
  match findLayer (layerStatesArray frameState) with
  | None =>
      {| this' := this1; context' := context; completion := Normal tt |}
  | Some found =>
      match coarsen this1 frameState cellSize found with
      | Throw e =>
          {| this' := this1; context' := context; completion := Throw e |}
      | Normal pointset =>
          {| this' := this1;
             context' := drawPointset this1 circleImage_ radius pointset context;
             completion := Normal tt |}
      end
  end.

(** The value of [pointset] when control leaves the coarsening, at line
    388 or at the early return of line 333, where it still is the empty
    array of line 313. *)
Definition framePointset (this : Hilomap) (event : RenderEvent)
  : Completion (list Point) :=
  let frameState := frameState event in
  let newResolution := resolution frameState in
  let this1 := withBaseResolution this newResolution in
  let zoomRatio := zoomRatioOf this1 newResolution in
  let radius := stampRadius this1 frameState zoomRatio in
  match findLayer (layerStatesArray frameState) with
  | None => Normal []
  | Some found => coarsen this1 frameState (cellSizeOf radius) found
  end.

(** ** The gradient table *)

Definition createLinearGradient (x0 y0 x1 y1 : Q) : CanvasGradient :=
  {| g_x0 := x0; g_y0 := y0; g_x1 := x1; g_y1 := y1; colorStops := [] |}.

(** [gradient.addColorStop(offset, color)] of the canvas API: an offset
    that is not finite is a TypeError, one outside [0, 1] an
    IndexSizeError, a string that is no colour a SyntaxError. *)
Definition addColorStop (offset : Js.Num) (color : string) (g : CanvasGradient)
  : Completion CanvasGradient :=
  match offset with
  | Js.Fin q =>
      if Qltb q 0 || Qltb 1 q then Throw IndexSizeError
      else if parsesAsColor color
      then Normal {| g_x0 := g_x0 g; g_y0 := g_y0 g; g_x1 := g_x1 g; g_y1 := g_y1 g;
                     colorStops := colorStops g ++ [(q, color)] |}
      else Throw SyntaxError
  | _ => Throw TypeError
  end.

(** Lines 560-562, from index [i] on. *)
Fixpoint addColorStops (step : Js.Num) (i : nat) (colors : list string)
    (g : CanvasGradient) : Completion CanvasGradient :=
  match colors with
  | [] => Normal g
  | color :: rest =>
      g1 <- addColorStop (Js.of_Z (Z.of_nat i) * step) color g ;;
      addColorStops step (S i) rest g1
  end.

Definition gradientStep (colors : list string) : Js.Num :=
  (1%Q / (Js.of_Z (Z.of_nat (length colors)) - 1%Q))%js.

(** Lines 553-562: the gradient object that is painted. *)
Definition buildGradient (colors : list string) : Completion CanvasGradient :=
  let width := 1%Q in
  let height := 256%Q in
  addColorStops (gradientStep colors) 0 colors
    (createLinearGradient 0 0 width height).

Definition createGradient (colors : list string) : Completion (list byte) :=
  let width := 1%Q in
  let height := 256%Q in
  let context := createCanvasContext2D width height in
  gradient <- buildGradient colors ;;
  let context := call (SetFillStyle gradient) context in
  let context := call (FillRect 0 0 width height) context in
  Normal (data (getImageData context)).

(** ** Construction *)

Definition DEFAULT_GRADIENT : list string :=
  ["#b1182b"; "#d6604d"; "#f3a481"; "#fddbc7"; "#f6f7f7";
   "#d1e5f0"; "#90c4dd"; "#4393c3"; "#2065ab"].

(** Lines 242-247 behind [setGradient]: the table follows the property. *)
Definition setGradient (colors : list string) (this : Hilomap)
  : Completion Hilomap :=
  table <- createGradient colors ;;
  Normal {| getGradient := colors;
            getBlur := getBlur this;
            getRadius := getRadius this;
            getVisible := getVisible this;
            getSource := getSource this;
            gradient_ := table;
            shadow_ := shadow_ this;
            circleImage_ := circleImage_ this;
            weight_ := weight_ this;
            baseResolution_ := baseResolution_ this |}.

(** Lines 85-182.  The options of the base layer that the handler reads
    are its visibility and its source. *)
Definition newHilomap (options : Options) : Completion Hilomap :=
  let weight :=
    match o_weight options with
    | Some (WeightAttribute EmptyString) | None => WeightAttribute "weight"
    | Some w => w
    end in
  let weightFunction :=
    match weight with
    | WeightAttribute name => fun feature => get feature name
    | WeightFunction f => f
    end in
  let this0 :=
    {| getGradient := [];
       getBlur := default 5%Q (o_blur options);
       getRadius := default 5%Q (o_radius options);
       getVisible := default true (o_visible options);
       getSource := o_source options;
       gradient_ := [];
       shadow_ := default 250%Q (o_shadow options);
       circleImage_ := None;
       weight_ := weightFunction;
       baseResolution_ := None |} in
  this1 <- setGradient (default DEFAULT_GRADIENT (o_gradient options)) this0 ;;
  Normal (handleStyleChanged_ this1).

End Pipeline.

(** ** Sample objects

    A rasteriser that reads every canvas back as transparent black, a host
    that accepts every colour string, and a layer over point features in a
    frame of 100 by 100 units shown at scale 1. *)

Definition blankSample : Canvas -> nat -> byte := fun _ _ => x00.

Definition anyColor : string -> bool := fun _ => true.

Definition pointFeature (x y : Q) (w : Js.Num) : Feature :=
  {| getGeometry := Some (x, y); properties := {[ "weight"%string := w ]} |}.

Definition bareFeature : Feature :=
  {| getGeometry := None; properties := ∅ |}.

(** A feature that has a geometry and no weight attribute. *)
Definition weightless (x y : Q) : Feature :=
  {| getGeometry := Some (x, y); properties := ∅ |}.

Definition identityTransform : Transform :=
  {| t0 := 1; t1 := 0; t2 := 0; t3 := 1; t4 := 0; t5 := 0 |}.

Definition layerOf (features : list Feature) : Hilomap :=
  {| getGradient := ["#00f"; "#f00"]%string;
     getBlur := 5;
     getRadius := 5;
     getVisible := true;
     getSource := Some {| getFeatures := Some features |};
     gradient_ := replicate 1024 x00;
     shadow_ := 250;
     circleImage_ := None;
     weight_ := fun feature => get feature "weight";
     baseResolution_ := None |}.

Definition frameOf (l : Hilomap) : RenderEvent :=
  {| context := mkCanvas 4 4 [];
     frameState :=
       {| resolution := 1;
          extent := (0, 0, 100, 100)%Q;
          pixelRatio := 1;
          coordinateToPixelTransform := identityTransform;
          layerStatesArray :=
            [ {| layer := OtherLayer |}; {| layer := HilomapLayer l |} ] |} |}.

(** Whether the frame can be coarsened without a call on a missing object:
    the layer found has a source, and each of its features a geometry. *)
Definition hasGeometry (f : Feature) : bool :=
  match getGeometry f with Some _ => true | None => false end.

Definition frameIsSound (event : RenderEvent) : bool :=
  match findLayer (layerStatesArray (frameState event)) with
  | None => true
  | Some found =>
      match getSource found with
      | None => false
      | Some source =>
          match getFeatures source with
          | None => true
          | Some features => forallb hasGeometry features
          end
      end
  end.

(** Two layers, or two events, that differ at most in the stored shadow. *)
Definition eraseShadow (l : Hilomap) : Hilomap := set_shadow_ 0 l.

Definition eraseShadowLayer (ls : LayerState) : LayerState :=
  match layer ls with
  | HilomapLayer l => {| layer := HilomapLayer (eraseShadow l) |}
  | OtherLayer => {| layer := OtherLayer |}
  end.

Definition eraseShadowEvent (event : RenderEvent) : RenderEvent :=
  let fs := frameState event in
  {| context := context event;
     frameState :=
       {| resolution := resolution fs;
          extent := extent fs;
          pixelRatio := pixelRatio fs;
          coordinateToPixelTransform := coordinateToPixelTransform fs;
          layerStatesArray := map eraseShadowLayer (layerStatesArray fs) |} |}.

Definition with_shadow (v : option Q) (options : Options) : Options :=
  {| o_gradient := o_gradient options;
     o_radius := o_radius options;
     o_blur := o_blur options;
     o_shadow := v;
     o_weight := o_weight options;
     o_visible := o_visible options;
     o_source := o_source options |}.

(** The canvases left by a run of render events on one layer. *)
Fixpoint renderFrames (sample : Canvas -> nat -> byte) (this : Hilomap)
    (events : list RenderEvent) : list (Canvas * Completion unit) :=
  match events with
  | [] => []
  | event :: rest =>
      let out := handleRender_ sample this event in
      (context' out, completion out) :: renderFrames sample (this' out) rest
  end.

(** The features that reach the grid, in order, as [[px, py, weight]]. *)
Definition placed (this : Hilomap) (fs : FrameState) (features : list Feature)
  : list Point :=
  omap (fun f =>
          match projectFeature this fs f with
          | Normal (Some p) => Some p
          | _ => None
          end) features.

(** Line 360: [Math.abs(weight - 0.5)] of a point, as the code computes
    it: the difference is rounded to a double. *)
Definition distHalf (p : Point) : Js.Num := Js.abs (F64.sub (p_w p) (1 # 2)).

(** The exact distance of a real weight to the midpoint. *)
Definition exactDistHalf (w : Q) : Q := Qabs (w - (1 # 2)).

(** The rule of lines 356-365 on one cell: what the cell holds after one
    more feature landed in it. *)
Definition pick (cell : option Point) (p : Point) : option Point :=
  match cell with
  | None => Some p
  | Some c =>
      if Js.gtb (distHalf p) (distHalf c) then Some p else Some c
  end.

(** The signed intensity in the words of the specification:
    [clamp(round(128 + (highAlpha − lowAlpha)/2), 0, 255)] on two alpha
    values. *)
Definition spec_signed (highAlpha lowAlpha : Z) : Z :=
  Z.min (Z.max (Math_round (128 + (inject_Z highAlpha - inject_Z lowAlpha) / 2)) 0) 255.

(** The alpha byte of pixel [k] of an RGBA array. *)
Definition alphaAt (A : list byte) (k : nat) : Z :=
  U8.to_Z (default x00 (A !! (4 * k + 3)%nat)).

(** The points of the low round are those with [p[2] <= 0.5]. *)
Definition isLow (p : Point) : bool := Js.leb (p_w p) (1 # 2).

(** The calls that stamp a list of points, each at the opacity that
    [alpha] gives its weight. *)
Definition draws (circle : Canvas) (radius : Q) (alpha : Js.Num -> Js.Num)
    (points : list Point) : list Call :=
  flat_map
    (fun p => [ SetGlobalAlpha (alpha (p_w p));
                DrawImage circle (inject_Z (p_x p) - radius) (inject_Z (p_y p) - radius) ])
    points.

(** ** Auxiliary notions for the grid *)

(** A sparse array as the loops leave it: its length is within the range of
    array indices and lies above every index that is set. *)
Definition arr_wf {A} (a : JsArray A) : Prop :=
  0 <= arr_length a <= 2 ^ 32 - 1 /\
  forall k v, arr_get a k = Some v -> is_array_index k = true -> k < arr_length a.

Definition grid_wf (cellSize : Z) (xyz : Grid) : Prop :=
  arr_wf xyz /\
  (forall cy row, arr_get xyz cy = Some row -> arr_wf row) /\
  (forall c cell, grid_get xyz c = Some cell -> cellOf cellSize cell = c).

(** The occupied cells that the loops of lines 370-380 visit, in the order
    they visit them: each with its row and column. *)
Definition rowCells (row : JsArray Point) : list (Z * Point) :=
  j ← seqZ 0 (arr_length row);
  match arr_get row j with Some p => [(j, p)] | None => [] end.

Definition gridCells (xyz : Grid) : list (Z * Z * Point) :=
  i ← seqZ 0 (arr_length xyz);
  match arr_get xyz i with
  | Some row => (fun jp => (i, jp.1, jp.2)) <$> rowCells row
  | None => []
  end.


(** Whether the extent test of line 344 sends a feature to [continue]. *)
Definition outsideExtent (fs : FrameState) (f : Feature) : bool :=
  match getGeometry f with
  | Some coord =>
      let '(bb0, bb1, bb2, bb3) := extent fs in
      Qltb coord.1 bb0 || Qltb coord.2 bb1 || Qltb bb2 coord.1 || Qltb bb3 coord.2
  | None => false
  end.

(** The layer after a run of render events. *)
Fixpoint renderAll (sample : Canvas -> nat -> byte) (this : Hilomap)
    (events : list RenderEvent) : Hilomap :=
  match events with
  | [] => this
  | event :: rest => renderAll sample (this' (handleRender_ sample this event)) rest
  end.


(** Whether an entry of the frame is a Hilomap layer that is visible. *)
Definition isVisibleHilomap (ls : LayerState) : bool :=
  match layer ls with
  | HilomapLayer l => getVisible l
  | OtherLayer => false
  end.

(** A frame state with another list of layers. *)
Definition withLayers (layers : list LayerState) (event : RenderEvent) : RenderEvent :=
  let fs := frameState event in
  {| context := context event;
     frameState :=
       {| resolution := resolution fs;
          extent := extent fs;
          pixelRatio := pixelRatio fs;
          coordinateToPixelTransform := coordinateToPixelTransform fs;
          layerStatesArray := layers |} |}.

(** A layer with another source and another visibility. *)
Definition withSource (source : option Source) (visible : bool) (this : Hilomap)
  : Hilomap :=
  {| getGradient := getGradient this;
     getBlur := getBlur this;
     getRadius := getRadius this;
     getVisible := visible;
     getSource := source;
     gradient_ := gradient_ this;
     shadow_ := shadow_ this;
     circleImage_ := circleImage_ this;
     weight_ := weight_ this;
     baseResolution_ := baseResolution_ this |}.


(** The alpha byte that line 467 stores for alpha [a] when the tracked
    range is [lo, hi], as an integer. *)
Definition rescaledByte (a lo hi : Z) : Z :=
  Z.max 0 (Z.min 255
             (Math_round ((inject_Z a - inject_Z lo) * 255 / (inject_Z hi - inject_Z lo)))).


(** Counting the calls of one kind in a call history. *)
Definition isDrawImage (k : Call) : bool :=
  match k with DrawImage _ _ _ => true | _ => false end.

Definition isClearRect (k : Call) : bool :=
  match k with ClearRect _ _ _ _ => true | _ => false end.

Definition isPutImageData (k : Call) : bool :=
  match k with PutImageData _ _ _ => true | _ => false end.

Definition isGetImageData (k : Call) : bool :=
  match k with GetImageData _ _ _ _ => true | _ => false end.

Definition isSetGlobalAlpha (k : Call) : bool :=
  match k with SetGlobalAlpha _ => true | _ => false end.

Definition countCalls (kind : Call -> bool) (ks : list Call) : nat :=
  length (List.filter kind ks).

(** What a history paints as shadows.  The pen keeps the shadow offsets in
    force and the arcs of the current path; a [fill] casts, for each arc of
    the path, a disc of the radius of the arc whose centre is the centre of
    the arc displaced by the offsets. *)
Record Pen : Type := {
  offsetX : Q;
  offsetY : Q;
  path : list (Q * Q * Q)
}.

Definition shadowStep (s : Pen * list (Q * Q * Q)) (k : Call)
  : Pen * list (Q * Q * Q) :=
  let '(pen, discs) := s in
  match k with
  | SetShadowOffsetX v =>
      ({| offsetX := v; offsetY := offsetY pen; path := path pen |}, discs)
  | SetShadowOffsetY v =>
      ({| offsetX := offsetX pen; offsetY := v; path := path pen |}, discs)
  | BeginPath =>
      ({| offsetX := offsetX pen; offsetY := offsetY pen; path := [] |}, discs)
  | Arc x y r _ _ _ =>
      ({| offsetX := offsetX pen; offsetY := offsetY pen;
          path := path pen ++ [(x, y, r)] |}, discs)
  | Fill =>
      (pen, discs ++ map (fun a => (a.1.1 + offsetX pen, a.1.2 + offsetY pen, a.2)%Q)
                         (path pen))
  | _ => s
  end.

Definition shadowDiscs (c : Canvas) : list (Q * Q * Q) :=
  snd (fold_left shadowStep (history c)
         ({| offsetX := 0; offsetY := 0; path := [] |}, [])).

(** The arcs a history draws: centre and radius. *)
Definition arcsOf (c : Canvas) : list (Q * Q * Q) :=
  flat_map (fun k => match k with Arc x y r _ _ _ => [(x, y, r)] | _ => [] end)
           (history c).

(** * Properties *)

(** ** Rational comparisons *)

Lemma Qltb_lt a b : Qltb a b = true <-> (a < b)%Q.
Proof.
  unfold Qltb. rewrite negb_true_iff, <- not_true_iff_false, Qle_bool_iff.
  split; [apply Qnot_le_lt | apply Qlt_not_le].
Qed.

Lemma Qltb_ge a b : Qltb a b = false <-> (b <= a)%Q.
Proof.
  unfold Qltb. rewrite negb_false_iff. apply Qle_bool_iff.
Qed.

(** ** Numbers and bytes *)

Lemma Qltb_inject_Z (a b : Z) : Qltb (inject_Z a) (inject_Z b) = (a <? b).
Proof.
  destruct (a <? b) eqn:H.
  - apply Qltb_lt. rewrite <- Zlt_Qlt. lia.
  - apply Qltb_ge. rewrite <- Zle_Qle. lia.
Qed.

Lemma Qeqb_inject_Z (a b : Z) : Qeqb (inject_Z a) (inject_Z b) = (a =? b).
Proof.
  unfold Qeqb. destruct (a =? b) eqn:H.
  - apply Qeq_eq_bool. apply Z.eqb_eq in H. subst. reflexivity.
  - apply not_true_iff_false. intros E. apply Qeq_bool_eq in E.
    rewrite inject_Z_injective in E. apply Z.eqb_neq in H. contradiction.
Qed.

Lemma to_Z_range (b : byte) : 0 <= U8.to_Z b <= 255.
Proof.
  unfold U8.to_Z. pose proof (Byte.to_N_bounded b). lia.
Qed.

Lemma of_Z_to_Z (b : byte) : U8.of_Z (U8.to_Z b) = b.
Proof.
  unfold U8.of_Z. pose proof (to_Z_range b).
  rewrite Z.min_r, Z.max_r by lia. unfold U8.to_Z.
  rewrite N2Z.id, Byte.of_to_N. reflexivity.
Qed.

Lemma round_half_even_Z (z : Z) : U8.round_half_even (inject_Z z) = z.
Proof.
  unfold U8.round_half_even. rewrite Qfloor_Z.
  replace (Qltb (inject_Z z + (1 # 2)) (inject_Z z)) with false
    by (symmetry; apply Qltb_ge; lra).
  replace (Qltb (inject_Z z) (inject_Z z + (1 # 2))) with true
    by (symmetry; apply Qltb_lt; lra).
  reflexivity.
Qed.

(** A byte read from one typed array and stored into another is kept. *)
Lemma store_get (A : list byte) (i : nat) (b : byte) :
  A !! i = Some b -> U8.of_Num (U8.get A i) = b.
Proof.
  intros H. unfold U8.get. rewrite H. cbn [U8.of_Num Js.of_Z].
  rewrite round_half_even_Z. apply of_Z_to_Z.
Qed.

Lemma store_get_undefined (A : list byte) (i : nat) :
  A !! i = None -> U8.of_Num (U8.get A i) = x00.
Proof. intros H. unfold U8.get. rewrite H. reflexivity. Qed.

Lemma to_index_int (q : Q) (z : Z) :
  (q == inject_Z z)%Q -> 0 <= z -> Js.to_index (Js.Fin q) = Some (Z.to_nat z).
Proof.
  intros E Hz. unfold Js.to_index. rewrite (Qfloor_comp q (inject_Z z) E), Qfloor_Z.
  replace (Qeqb (inject_Z z) q) with true
    by (symmetry; apply Qeq_eq_bool; symmetry; exact E).
  replace (0 <=? z) with true by lia. reflexivity.
Qed.

(** ** The signed intensity *)

Lemma clamp_byte_range (z : Z) :
  clamp (Js.of_Z z) 0%Q 255%Q = Js.of_Z (Z.min (Z.max z 0) 255).
Proof.
  unfold clamp, Js.max, Js.min, Js.of_Z, Js.ltb.
  change 0%Q with (inject_Z 0). change 255%Q with (inject_Z 255).
  rewrite Qltb_inject_Z.
  destruct (z <? 0) eqn:H0.
  - rewrite Qltb_inject_Z. cbn. f_equal. f_equal. lia.
  - rewrite Qltb_inject_Z. destruct (255 <? z) eqn:H1; f_equal; f_equal; lia.
Qed.

Lemma signedIntensity_bytes (h l : Z) :
  signedIntensity (Js.of_Z h) (Js.of_Z l) = Js.of_Z (spec_signed h l).
Proof.
  unfold signedIntensity, spec_signed, Math_round.
  cbn [Js.of_Z Js.sub Js.div Js.add Js.round].
  change (Qeqb 2 0) with false. cbv iota.
  apply clamp_byte_range.
Qed.

Lemma spec_signed_half (h l : Z) : spec_signed h l = Z.min (Z.max ((257 + h - l) / 2) 0) 255.
Proof.
  unfold spec_signed, Math_round. f_equal. f_equal.
  rewrite (Zdiv_Qdiv (257 + h - l) 2). apply Qfloor_comp.
  unfold Z.sub. rewrite !inject_Z_plus, inject_Z_opp. change (inject_Z 257) with 257%Q.
  change (inject_Z 2) with 2%Q. field.
Qed.

Lemma spec_signed_bytes (h l : Z) :
  0 <= h <= 255 -> 0 <= l <= 255 -> 1 <= spec_signed h l <= 255.
Proof.
  intros Hh Hl. rewrite spec_signed_half.
  assert (1 <= (257 + h - l) / 2) by (apply Z.div_le_lower_bound; lia).
  lia.
Qed.

(** ** The circle stamp *)

Lemma width_calls ks c : width (calls ks c) = width c.
Proof.
  revert c. induction ks as [| k ks IH]; intros c; [reflexivity |].
  unfold calls in *. simpl. rewrite IH. reflexivity.
Qed.

Lemma height_calls ks c : height (calls ks c) = height c.
Proof.
  revert c. induction ks as [| k ks IH]; intros c; [reflexivity |].
  unfold calls in *. simpl. rewrite IH. reflexivity.
Qed.










(** ** The sparse grid *)

Lemma arr_get_set {A} (a : JsArray A) k v k' :
  arr_get (arr_set a k v) k' = if decide (k = k') then Some v else arr_get a k'.
Proof. unfold arr_get, arr_set. cbn [elems]. apply lookup_insert. Qed.

Lemma grid_get_set_row (xyz : Grid) cy row c :
  grid_get (arr_set xyz cy row) c
  = if decide (cy = c.1) then arr_get row c.2 else grid_get xyz c.
Proof.
  unfold grid_get. rewrite arr_get_set. destruct (decide (cy = c.1)); reflexivity.
Qed.

Lemma grid_get_addToGrid cellSize (xyz : Grid) (p : Point) (c : Z * Z) :
  grid_get (addToGrid cellSize xyz p) c
  = if decide (cellOf cellSize p = c) then pick (grid_get xyz c) p
    else grid_get xyz c.
Proof.
  destruct p as [[px py] w], c as [cy cx].
  unfold addToGrid, cellOf, pick. cbn [p_x p_y p_w fst snd].
  set (cx0 := px / cellSize). set (cy0 := py / cellSize).
  assert (Hrow : forall cx', arr_get (default arr_empty (arr_get xyz cy0)) cx'
                             = grid_get xyz (cy0, cx')).
  { intros cx'. unfold grid_get. cbn [fst snd].
    destruct (arr_get xyz cy0) as [row |]; reflexivity. }
  destruct (decide ((cy0, cx0) = (cy, cx))) as [E | NE].
  - injection E as <- <-. rewrite <- Hrow.
    destruct (arr_get (default arr_empty (arr_get xyz cy0)) cx0) as [cell |] eqn:Hc.
    + destruct (Js.gtb _ _); rewrite grid_get_set_row; cbn [fst snd];
        rewrite decide_True by reflexivity;
        [rewrite arr_get_set, decide_True by reflexivity; reflexivity | exact Hc].
    + rewrite grid_get_set_row; cbn [fst snd].
      rewrite decide_True by reflexivity.
      rewrite arr_get_set, decide_True by reflexivity. reflexivity.
  - assert (Hother : forall row',
               (cx0 <> cx \/ cy0 <> cy) ->
               (forall cx', cx' <> cx0 -> arr_get row' cx' = grid_get xyz (cy0, cx')) ->
               grid_get (arr_set xyz cy0 row') (cy, cx) = grid_get xyz (cy, cx)).
    { intros row' Hne Hrow'. rewrite grid_get_set_row. cbn [fst snd].
      destruct (decide (cy0 = cy)) as [<- |]; [| reflexivity].
      apply Hrow'. destruct Hne; congruence. }
    assert (Hne : cx0 <> cx \/ cy0 <> cy).
    { destruct (decide (cx0 = cx)); [right | left]; congruence. }
    assert (Hset : forall v cx', cx' <> cx0 ->
               arr_get (arr_set (default arr_empty (arr_get xyz cy0)) cx0 v) cx'
               = grid_get xyz (cy0, cx')).
    { intros v cx' Hcx. rewrite arr_get_set, decide_False by congruence. apply Hrow. }
    destruct (arr_get (default arr_empty (arr_get xyz cy0)) cx0) as [cell |].
    + destruct (Js.gtb _ _); apply Hother; auto.
    + apply Hother; auto.
Qed.

(** The cell after a run of features is the fold of [pick] over those of
    them that land in it. *)
Lemma grid_get_fold cellSize (pts : list Point) :
  forall (xyz : Grid) (c : Z * Z),
    grid_get (fold_left (addToGrid cellSize) pts xyz) c
    = fold_left pick (filter (fun p => cellOf cellSize p = c) pts) (grid_get xyz c).
Proof.
  induction pts as [| p pts IH]; intros xyz c; [reflexivity |].
  cbn [fold_left]. rewrite IH, grid_get_addToGrid, filter_cons.
  destruct (decide (cellOf cellSize p = c)); reflexivity.
Qed.

Lemma fillGrid_placed this fs cellSize features :
  forall xyz g,
    fillGrid this fs cellSize features xyz = Normal g ->
    g = fold_left (addToGrid cellSize) (placed this fs features) xyz.
Proof.
  induction features as [| f rest IH]; intros xyz g H.
  - injection H as <-. reflexivity.
  - cbn [fillGrid] in H. unfold placed. cbn [omap list_omap].
    destruct (projectFeature this fs f) as [[p |] | e]; cbn [bind] in H;
      [| | discriminate]; apply IH in H; exact H.
Qed.

(** ** Rounding to a double *)

Lemma two_nonzero : ~ (2 == 0)%Q.
Proof. discriminate. Qed.

Lemma pow2_pos (e : Z) : (0 < F64.pow2 e)%Q.
Proof. apply Qpower_0_lt. reflexivity. Qed.

Lemma pow2_plus (a b : Z) : (F64.pow2 (a + b) == F64.pow2 a * F64.pow2 b)%Q.
Proof. apply Qpower_plus, two_nonzero. Qed.

Lemma pow2_le (a b : Z) : a <= b -> (F64.pow2 a <= F64.pow2 b)%Q.
Proof. intros H. apply Qpower_le_compat_l; [exact H | discriminate]. Qed.

Lemma pow2_Z (k : Z) : 0 <= k -> (inject_Z (2 ^ k) == F64.pow2 k)%Q.
Proof. intros H. apply Zpower_Qpower, H. Qed.

Lemma Qmake_times_den (n : Z) (d : positive) :
  ((n # d) * inject_Z (Zpos d) == inject_Z n)%Q.
Proof. unfold Qeq, Qmult, inject_Z. cbn [Qnum Qden]. rewrite Pos.mul_1_r. ring. Qed.

Lemma exponent_lower (a : Q) : (0 < a)%Q -> (F64.pow2 (F64.exponent a) <= a)%Q.
Proof.
  intros Ha. unfold F64.exponent.
  destruct a as [n d]. cbn [Qnum Qden].
  assert (Hn : 0 < n) by (unfold Qlt in Ha; cbn in Ha; lia).
  set (ln := Z.log2 n). set (ld := Z.log2 (Zpos d)).
  destruct (Qltb (n # d) (F64.pow2 (ln - ld))) eqn:E.
  2:{ apply Qltb_ge in E. exact E. }
  pose proof (Z.log2_spec n Hn) as [Hn1 _]. fold ln in Hn1.
  pose proof (Z.log2_spec (Zpos d) ltac:(lia)) as [_ Hd2]. fold ld in Hd2.
  pose proof (Z.log2_nonneg n) as Hln. fold ln in Hln.
  pose proof (Z.log2_nonneg (Zpos d)) as Hld. fold ld in Hld.
  apply (Qmult_le_r _ _ (F64.pow2 (ld + 1))); [apply pow2_pos |].
  rewrite <- pow2_plus. replace (ln - ld - 1 + (ld + 1)) with ln by lia.
  rewrite <- pow2_Z by exact Hln.
  apply Qle_trans with (inject_Z n); [rewrite <- Zle_Qle; exact Hn1 |].
  rewrite <- (Qmake_times_den n d).
  apply Qmult_le_l; [exact Ha |].
  rewrite <- pow2_Z by lia. rewrite <- Zle_Qle. apply Z.lt_le_incl in Hd2; replace (Z.succ ld) with (ld + 1) in Hd2 by lia; exact Hd2.
Qed.

Lemma exponent_upper (a : Q) : (0 < a)%Q -> (a < F64.pow2 (F64.exponent a + 1))%Q.
Proof.
  intros Ha. unfold F64.exponent.
  destruct a as [n d]. cbn [Qnum Qden].
  assert (Hn : 0 < n) by (unfold Qlt in Ha; cbn in Ha; lia).
  set (ln := Z.log2 n). set (ld := Z.log2 (Zpos d)).
  destruct (Qltb (n # d) (F64.pow2 (ln - ld))) eqn:E.
  { apply Qltb_lt in E. replace (ln - ld - 1 + 1) with (ln - ld) by lia. exact E. }
  pose proof (Z.log2_spec n Hn) as [_ Hn2]. fold ln in Hn2.
  pose proof (Z.log2_spec (Zpos d) ltac:(lia)) as [Hd1 _]. fold ld in Hd1.
  pose proof (Z.log2_nonneg n) as Hln. fold ln in Hln.
  pose proof (Z.log2_nonneg (Zpos d)) as Hld. fold ld in Hld.
  apply (Qmult_lt_r _ _ (inject_Z (Zpos d))); [reflexivity |].
  rewrite Qmake_times_den.
  apply Qlt_le_trans with (F64.pow2 (ln + 1)).
  - rewrite <- pow2_Z by lia. rewrite <- Zlt_Qlt.
    replace (ln + 1) with (Z.succ ln) by lia. exact Hn2.
  - replace (ln + 1) with (ln - ld + 1 + ld) by lia. rewrite pow2_plus.
    apply Qmult_le_l; [apply pow2_pos |].
    rewrite <- pow2_Z by exact Hld. rewrite <- Zle_Qle. exact Hd1.
Qed.

Lemma exponent_mono (x y : Q) :
  (0 < x)%Q -> (x <= y)%Q -> F64.exponent x <= F64.exponent y.
Proof.
  intros Hx Hxy.
  destruct (Z_le_gt_dec (F64.exponent x) (F64.exponent y)) as [H | H]; [exact H |].
  exfalso.
  pose proof (exponent_lower x Hx) as Hl.
  pose proof (exponent_upper y ltac:(lra)) as Hu.
  pose proof (pow2_le (F64.exponent y + 1) (F64.exponent x) ltac:(lia)). lra.
Qed.


Lemma round_half_even_mono (x y : Q) :
  (x <= y)%Q -> U8.round_half_even x <= U8.round_half_even y.
Proof.
  intros Hxy. pose proof (Qfloor_resp_le x y Hxy) as Hf.
  unfold U8.round_half_even.
  pose proof (Qfloor_le x) as Hx1. pose proof (Qlt_floor x) as Hx2.
  pose proof (Qfloor_le y) as Hy1. pose proof (Qlt_floor y) as Hy2.
  rewrite inject_Z_plus in Hx2, Hy2. change (inject_Z 1) with 1%Q in Hx2, Hy2.
  set (fx := Qfloor x) in *. set (fy := Qfloor y) in *.
  destruct (Z.eq_dec fx fy) as [E | NE].
  - rewrite <- E in *. clear E.
    destruct (Qltb (inject_Z fx + (1 # 2)) x) eqn:A1.
    { apply Qltb_lt in A1.
      replace (Qltb (inject_Z fx + (1 # 2)) y) with true; [lia |].
      symmetry. apply Qltb_lt. lra. }
    apply Qltb_ge in A1.
    destruct (Qltb x (inject_Z fx + (1 # 2))) eqn:A2.
    { destruct (Qltb (inject_Z fx + (1 # 2)) y); [lia |].
      destruct (Qltb y (inject_Z fx + (1 # 2))); [lia |].
      destruct (Z.even fx); lia. }
    apply Qltb_ge in A2.
    destruct (Qltb (inject_Z fx + (1 # 2)) y) eqn:B1; [destruct (Z.even fx); lia |].
    apply Qltb_ge in B1.
    replace (Qltb y (inject_Z fx + (1 # 2))) with false; [destruct (Z.even fx); lia |].
    symmetry. apply Qltb_ge. lra.
  - assert (fx + 1 <= fy) by lia.
    assert (U8.round_half_even x <= fx + 1).
    { unfold U8.round_half_even. fold fx.
      destruct (Qltb _ x); [lia |]. destruct (Qltb x _); [lia |].
      destruct (Z.even fx); lia. }
    assert (fy <= U8.round_half_even y).
    { unfold U8.round_half_even. fold fy.
      destruct (Qltb _ y); [lia |]. destruct (Qltb y _); [lia |].
      destruct (Z.even fy); lia. }
    change (U8.round_half_even x <= U8.round_half_even y). lia.
Qed.

Lemma Qabs_nonneg_eq (q : Q) : (0 <= q)%Q -> Qabs q = q.
Proof.
  destruct q as [n d]. unfold Qle. cbn. intros H.
  rewrite Z.abs_eq by lia. reflexivity.
Qed.

Lemma ulp_pos (a : Q) : (0 < F64.ulp a)%Q.
Proof. apply pow2_pos. Qed.

Lemma nearest_zero (q : Q) : (q == 0)%Q -> F64.nearest q = 0%Q.
Proof.
  intros H. unfold F64.nearest.
  replace (Qeqb q 0) with true by (symmetry; apply Qeq_eq_bool, H). reflexivity.
Qed.

Lemma nearest_positive (q : Q) :
  (0 < q)%Q ->
  F64.nearest q = (inject_Z (U8.round_half_even (q / F64.ulp q)) * F64.ulp q)%Q.
Proof.
  intros H. unfold F64.nearest.
  replace (Qeqb q 0) with false
    by (symmetry; apply not_true_iff_false; intros E; apply Qeq_bool_eq in E; lra).
  rewrite Qabs_nonneg_eq by lra.
  replace (Qltb 0 q) with true by (symmetry; apply Qltb_lt, H). reflexivity.
Qed.

Lemma nearest_negative (q : Q) :
  (q < 0)%Q -> F64.nearest q = (- F64.nearest (- q))%Q.
Proof.
  intros H. rewrite (nearest_positive (- q)) by lra. unfold F64.nearest.
  replace (Qeqb q 0) with false
    by (symmetry; apply not_true_iff_false; intros E; apply Qeq_bool_eq in E; lra).
  replace (Qltb 0 q) with false by (symmetry; apply Qltb_ge; lra).
  assert (E : Qabs q = (- q)%Q).
  { destruct q as [n d]. unfold Qlt in H. cbn in H. unfold Qabs, Qopp. cbn [Qnum Qden].
    rewrite Z.abs_neq by lia. reflexivity. }
  rewrite E. reflexivity.
Qed.

Lemma nearest_nonneg (q : Q) : (0 <= q)%Q -> (0 <= F64.nearest q)%Q.
Proof.
  intros H. destruct (Qeq_dec q 0) as [E | NE].
  - rewrite (nearest_zero q E). lra.
  - assert (Hq : (0 < q)%Q) by (destruct (Qlt_le_dec 0 q); [assumption | exfalso; apply NE; lra]).
    rewrite (nearest_positive q Hq).
    apply Qmult_le_0_compat; [| apply Qlt_le_weak, ulp_pos].
    change 0%Q with (inject_Z 0). rewrite <- Zle_Qle.
    rewrite <- (round_half_even_Z 0). apply round_half_even_mono.
    apply Qle_shift_div_l; [apply ulp_pos |]. change (inject_Z 0) with 0%Q. lra.
Qed.

Lemma nearest_mono_pos (x y : Q) :
  (0 < x)%Q -> (x <= y)%Q -> (F64.nearest x <= F64.nearest y)%Q.
Proof.
  intros Hx Hxy. assert (Hy : (0 < y)%Q) by lra.
  rewrite (nearest_positive x Hx), (nearest_positive y Hy).
  pose proof (exponent_mono x y Hx Hxy) as He.
  pose proof (exponent_lower y Hy) as Hyl.
  pose proof (exponent_upper x Hx) as Hxu.
  unfold F64.ulp.
  set (ex := Z.max (-1074) (F64.exponent x - 52)).
  set (ey := Z.max (-1074) (F64.exponent y - 52)).
  assert (Hexy : ex <= ey) by (unfold ex, ey; lia).
  pose proof (pow2_pos ex) as Pex. pose proof (pow2_pos ey) as Pey.
  destruct (Z.eq_dec ex ey) as [E | NE].
  - rewrite <- E. apply Qmult_le_compat_r; [| lra].
    rewrite <- Zle_Qle. apply round_half_even_mono.
    unfold Qdiv. apply Qmult_le_compat_r; [exact Hxy |].
    apply Qinv_le_0_compat. lra.
  - assert (Hey : ey = F64.exponent y - 52) by (unfold ex, ey in *; lia).
    apply Qle_trans with (F64.pow2 (ex + 53)).
    + rewrite pow2_plus, (Qmult_comm (F64.pow2 ex)).
      apply Qmult_le_compat_r; [| lra].
      rewrite <- (pow2_Z 53) by lia. rewrite <- Zle_Qle.
      rewrite <- (round_half_even_Z (2 ^ 53)). apply round_half_even_mono.
      apply Qle_shift_div_r; [exact Pex |].
      rewrite (pow2_Z 53) by lia. rewrite <- pow2_plus.
      apply Qle_trans with (F64.pow2 (F64.exponent x + 1)); [lra |].
      apply pow2_le. unfold ex. lia.
    + apply Qle_trans with (F64.pow2 (52 + ey)).
      * apply pow2_le. lia.
      * rewrite pow2_plus. apply Qmult_le_compat_r; [| lra].
        rewrite <- (pow2_Z 52) by lia. rewrite <- Zle_Qle.
        rewrite <- (round_half_even_Z (2 ^ 52)). apply round_half_even_mono.
        apply Qle_shift_div_l; [exact Pey |].
        rewrite (pow2_Z 52) by lia. rewrite <- pow2_plus.
        replace (52 + ey) with (F64.exponent y) by lia. exact Hyl.
Qed.

Lemma nearest_mono (x y : Q) : (x <= y)%Q -> (F64.nearest x <= F64.nearest y)%Q.
Proof.
  intros Hxy.
  destruct (Qlt_le_dec 0 x) as [Hx | Hx]; [apply nearest_mono_pos; assumption |].
  destruct (Qlt_le_dec y 0) as [Hy | Hy].
  - destruct (Qeq_dec x 0) as [E | NE]; [lra |].
    rewrite (nearest_negative x) by lra. rewrite (nearest_negative y Hy).
    apply Qopp_le_compat. apply nearest_mono_pos; lra.
  - apply Qle_trans with 0%Q; [| apply nearest_nonneg, Hy].
    destruct (Qeq_dec x 0) as [E | NE]; [rewrite (nearest_zero x E); lra |].
    rewrite (nearest_negative x) by lra.
    assert (0 <= F64.nearest (- x))%Q by (apply nearest_nonneg; lra). lra.
Qed.


(** The rounding agrees with the Standard Library's specification of
    binary64: on the differences [w - 0.5] of the weights named below, on
    differences of resolutions around the threshold of line 301, among the
    subnormal numbers, and on quotients of resolutions. *)
Lemma agrees_with_SpecFloat :
  forallb
    (fun ab : Q * Q =>
       F64.same
         (F64.of_spec (SFsub 53 1024 (F64.to_spec (F64.nearest ab.1))
                                     (F64.to_spec (F64.nearest ab.2))))
         (F64.sub (F64.round ab.1) (F64.round ab.2)))
    [ (1 # 10, 1 # 2); (1 # 5, 1 # 2); (3 # 10, 1 # 2); (4 # 5, 1 # 2);
      (9 # 10, 1 # 2); (19 # 20, 1 # 2); (5, 1 # 2); (-3, 1 # 2); (0, 1 # 2);
      (100001 # 100000, 1); (2 # 100000, 1 # 100000); (1 # 3, 1 # 7);
      (/ inject_Z (10 ^ 310), 3 / inject_Z (10 ^ 311)) ]%Q
  = true /\
  forallb
    (fun ab : Q * Q =>
       F64.same
         (F64.of_spec (SFdiv 53 1024 (F64.to_spec (F64.nearest ab.1))
                                     (F64.to_spec (F64.nearest ab.2))))
         (F64.round (F64.nearest ab.1 / F64.nearest ab.2)))
    [ (1, 3); (4, 2); (1 # 3, 1 # 7); (156543 # 1000, 78271 # 1000) ]%Q
  = true.
Proof. split; vm_compute; reflexivity. Qed.

Lemma nearest_abs (a : Q) : (Qabs (F64.nearest a) == F64.nearest (Qabs a))%Q.
Proof.
  destruct (Qlt_le_dec a 0) as [H | H].
  - rewrite (nearest_negative a H).
    assert (E : Qabs a = (- a)%Q).
    { destruct a as [n d]. unfold Qlt in H. cbn in H. unfold Qabs, Qopp. cbn [Qnum Qden].
      rewrite Z.abs_neq by lia. reflexivity. }
    rewrite E. rewrite Qabs_opp. apply Qabs_pos. apply nearest_nonneg. lra.
  - rewrite (Qabs_nonneg_eq a H). apply Qabs_pos. apply nearest_nonneg, H.
Qed.

Lemma abs_round (a : Q) :
  Js.abs (F64.round a)
  = if Qle_bool (F64.pow2 1024) (F64.nearest a) then Js.PInf
    else if Qle_bool (F64.nearest a) (- F64.pow2 1024) then Js.PInf
    else Js.Fin (Qabs (F64.nearest a)).
Proof.
  unfold F64.round. destruct (Qle_bool _ _); [reflexivity |].
  destruct (Qle_bool _ _); reflexivity.
Qed.

(** The distance as the code computes it is monotone in the exact
    distance. *)
Lemma abs_round_mono (a b : Q) :
  (Qabs a <= Qabs b)%Q ->
  Js.leb (Js.abs (F64.round a)) (Js.abs (F64.round b)) = true.
Proof.
  intros H. pose proof (nearest_mono _ _ H) as M.
  rewrite <- !nearest_abs in M.
  pose proof (pow2_pos 1024) as P.
  rewrite !abs_round.
  destruct (Qle_bool (F64.pow2 1024) (F64.nearest b)) eqn:B1;
    [destruct (Qle_bool _ (F64.nearest a)); [| destruct (Qle_bool (F64.nearest a) _)];
     reflexivity |].
  destruct (Qle_bool (F64.nearest b) (- F64.pow2 1024)) eqn:B2;
    [destruct (Qle_bool _ (F64.nearest a)); [| destruct (Qle_bool (F64.nearest a) _)];
     reflexivity |].
  assert (Hb : (Qabs (F64.nearest b) < F64.pow2 1024)%Q).
  { apply not_true_iff_false in B1, B2. rewrite Qle_bool_iff in B1, B2.
    apply Qnot_le_lt in B1, B2.
    apply Qabs_case; intros; lra. }
  destruct (Qle_bool (F64.pow2 1024) (F64.nearest a)) eqn:A1.
  { apply Qle_bool_iff in A1. exfalso.
    assert (F64.nearest a <= Qabs (F64.nearest a))%Q by apply Qle_Qabs. lra. }
  destruct (Qle_bool (F64.nearest a) (- F64.pow2 1024)) eqn:A2.
  { apply Qle_bool_iff in A2. exfalso.
    assert (- F64.nearest a <= Qabs (F64.nearest a))%Q
      by (rewrite <- Qabs_opp; apply Qle_Qabs). lra. }
  cbn [Js.leb]. apply Qle_bool_iff, M.
Qed.

Lemma ltb_not_leb (a b : Js.Num) : Js.ltb a b = true -> Js.leb b a = false.
Proof.
  destruct a as [x | | |], b as [y | | |]; cbn [Js.ltb Js.leb];
    try congruence; try reflexivity.
  intros H. apply Qltb_lt in H. apply not_true_iff_false. rewrite Qle_bool_iff. lra.
Qed.

(** ** The representative of a cell *)

Lemma round_is_a_number (q : Q) : F64.round q <> Js.NaN.
Proof.
  unfold F64.round. destruct (Qle_bool _ _); [discriminate |].
  destruct (Qle_bool _ _); discriminate.
Qed.

Lemma distHalf_nan (p : Point) : distHalf p = Js.NaN <-> p_w p = Js.NaN.
Proof.
  unfold distHalf, F64.sub. destruct (p_w p) as [q | | |]; cbn [Js.sub Js.add Js.neg Js.abs].
  - pose proof (round_is_a_number (q - (1 # 2))) as H.
    destruct (F64.round (q - (1 # 2))); cbn [Js.abs]; split; congruence.
  - split; reflexivity.
  - split; discriminate.
  - split; discriminate.
Qed.

(** The order of the numbers, NaN apart. *)
Lemma ltb_false_leb (a b : Js.Num) :
  a <> Js.NaN -> b <> Js.NaN -> Js.ltb a b = false -> Js.leb b a = true.
Proof.
  destruct a as [x | | |], b as [y | | |]; cbn [Js.ltb Js.leb];
    try congruence; try reflexivity.
  intros _ _ H. apply Qltb_ge in H. apply Qle_bool_iff, H.
Qed.

Lemma ltb_leb (a b : Js.Num) : Js.ltb a b = true -> Js.leb a b = true.
Proof.
  destruct a as [x | | |], b as [y | | |]; cbn [Js.ltb Js.leb];
    try congruence; try reflexivity.
  intros H. apply Qltb_lt in H. apply Qle_bool_iff, Qlt_le_weak, H.
Qed.

Lemma leb_ltb_trans (a b c : Js.Num) :
  Js.leb a b = true -> Js.ltb b c = true -> Js.ltb a c = true.
Proof.
  destruct a as [x | | |], b as [y | | |], c as [z | | |]; cbn [Js.ltb Js.leb];
    try congruence; try reflexivity.
  intros H1 H2. apply Qle_bool_iff in H1. apply Qltb_lt in H2.
  apply Qltb_lt. eapply Qle_lt_trans; eassumption.
Qed.

Lemma leb_refl (a : Js.Num) : a <> Js.NaN -> Js.leb a a = true.
Proof.
  destruct a as [x | | |]; cbn [Js.leb]; try congruence; try reflexivity.
  intros _. apply Qle_bool_iff, Qle_refl.
Qed.

Lemma pick_not_a_number (c p : Point) :
  p_w c = Js.NaN \/ p_w p = Js.NaN -> pick (Some c) p = Some c.
Proof.
  unfold pick, Js.gtb. intros [H | H]; apply distHalf_nan in H; rewrite H.
  - destruct (distHalf p); reflexivity.
  - destruct (distHalf c); reflexivity.
Qed.

Lemma fold_pick_not_a_number (rest : list Point) (first : Point) :
  p_w first = Js.NaN -> fold_left pick rest (Some first) = Some first.
Proof.
  intros H. induction rest as [| p rest IH]; [reflexivity |].
  cbn [fold_left]. rewrite pick_not_a_number by (left; exact H). exact IH.
Qed.

Lemma fold_pick_first_farthest (first : Point) (rest : list Point) :
  p_w first <> Js.NaN ->
  exists (k : nat) (p : Point),
    (first :: rest) !! k = Some p /\
    fold_left pick (first :: rest) None = Some p /\
    p_w p <> Js.NaN /\
    (forall j q, (first :: rest) !! j = Some q -> p_w q <> Js.NaN ->
                 Js.leb (distHalf q) (distHalf p) = true) /\
    (forall j q, (j < k)%nat -> (first :: rest) !! j = Some q -> p_w q <> Js.NaN ->
                 Js.ltb (distHalf q) (distHalf p) = true).
Proof.
  intros Hfirst. induction rest as [| x init IH] using rev_ind.
  - exists 0%nat, first. cbn [fold_left pick].
    split; [reflexivity | split; [reflexivity | split; [exact Hfirst | split]]].
    + intros [| j] q Hq Hn; [| discriminate]. injection Hq as <-.
      apply leb_refl. rewrite distHalf_nan. exact Hn.
    + intros j q Hj. lia.
  - destruct IH as (k0 & p0 & Hk0 & Hfold & Hp0 & Hle & Hlt).
    rewrite app_comm_cons, fold_left_app, Hfold. cbn [fold_left].
    pose proof (lookup_lt_Some _ _ _ Hk0) as Hk0len.
    assert (Hd0 : distHalf p0 <> Js.NaN) by (rewrite distHalf_nan; exact Hp0).
    unfold pick, Js.gtb.
    destruct (Js.ltb (distHalf p0) (distHalf x)) eqn:Hcmp.
    + assert (Hx : p_w x <> Js.NaN).
      { rewrite <- distHalf_nan. intros E. rewrite E in Hcmp.
        destruct (distHalf p0); discriminate. }
      exists (length (first :: init)), x.
      split; [| split; [reflexivity | split; [exact Hx | split]]].
      * rewrite lookup_app_r, Nat.sub_diag by lia. reflexivity.
      * intros j q Hq Hn. apply lookup_snoc_Some in Hq as [[_ Hq] | [_ <-]].
        -- apply ltb_leb. eapply leb_ltb_trans; [eapply Hle; eassumption | exact Hcmp].
        -- apply leb_refl. rewrite distHalf_nan. exact Hn.
      * intros j q Hj Hq Hn. apply lookup_snoc_Some in Hq as [[_ Hq] | [-> _]]; [| lia].
        eapply leb_ltb_trans; [eapply Hle; eassumption | exact Hcmp].
    + exists k0, p0. split; [| split; [reflexivity | split; [exact Hp0 | split]]].
      * rewrite lookup_app_l by assumption. exact Hk0.
      * intros j q Hq Hn. apply lookup_snoc_Some in Hq as [[_ Hq] | [_ <-]].
        -- eapply Hle; eassumption.
        -- apply ltb_false_leb; [exact Hd0 | | exact Hcmp].
           rewrite distHalf_nan. exact Hn.
      * intros j q Hj Hq Hn. apply lookup_snoc_Some in Hq as [[_ Hq] | [-> _]]; [| lia].
        eapply Hlt; eassumption.
Qed.

Lemma distHalf_real (x y : Z) (w : Q) :
  distHalf (x, y, Js.Fin w) = Js.abs (F64.round (w - (1 # 2))).
Proof. reflexivity. Qed.

Lemma farther_as_computed (x y x' y' : Z) (w w' : Q) :
  Js.ltb (distHalf (x, y, Js.Fin w)) (distHalf (x', y', Js.Fin w')) = true ->
  (exactDistHalf w < exactDistHalf w')%Q.
Proof.
  rewrite !distHalf_real. intros H. apply ltb_not_leb in H.
  unfold exactDistHalf. apply Qnot_le_lt. intros Hle.
  rewrite (abs_round_mono _ _ Hle) in H. discriminate.
Qed.

(** C3: among the features that land in one grid cell the cell is decided
    by the distance to 0.5 as the code computes it, [Math.abs(weight - 0.5)]
    on doubles, with a strict comparison.  If the weight of the first
    feature is a number, the cell keeps the first feature of greatest
    computed distance among those whose weight is a number: no such feature
    has a greater computed distance, every earlier one has a smaller one,
    and features whose weight is no number are passed over.  If the weight
    of the first feature is no number, the cell keeps that feature.  The
    computed distance follows the exact one: what is computed as farther is
    farther, and what is farther is never computed as nearer; what the
    rounding can do is make a tie of two distances that differ.  For the
    weights 0.2 and 0.95 in one cell the weight kept is 0.95, in either
    order. *)
Theorem C3_cell_keeps_first_farthest :
  (forall (this : Hilomap) (fs : FrameState) (cellSize : Z)
          (features : list Feature) (xyz : Grid) (cell : Z * Z)
          (first : Point) (rest : list Point),
      fillGrid this fs cellSize features arr_empty = Normal xyz ->
      filter (fun p => cellOf cellSize p = cell) (placed this fs features)
      = first :: rest ->
      (p_w first = Js.NaN -> grid_get xyz cell = Some first) /\
      (p_w first <> Js.NaN ->
       exists (k : nat) (p : Point),
         (first :: rest) !! k = Some p /\
         grid_get xyz cell = Some p /\
         p_w p <> Js.NaN /\
         (forall j q, (first :: rest) !! j = Some q -> p_w q <> Js.NaN ->
                      Js.leb (distHalf q) (distHalf p) = true) /\
         (forall j q, (j < k)%nat -> (first :: rest) !! j = Some q ->
                      p_w q <> Js.NaN ->
                      Js.ltb (distHalf q) (distHalf p) = true))) /\
  (forall (x y x' y' : Z) (w w' : Q),
      (Js.ltb (distHalf (x, y, Js.Fin w)) (distHalf (x', y', Js.Fin w')) = true ->
       (exactDistHalf w < exactDistHalf w')%Q) /\
      ((exactDistHalf w <= exactDistHalf w')%Q ->
       Js.leb (distHalf (x, y, Js.Fin w)) (distHalf (x', y', Js.Fin w')) = true)) /\
  (let l := layerOf [] in
   let fs := frameState (frameOf l) in
   let w1 := F64.round (1 # 5) in
   let w2 := F64.round (19 # 20) in
   (xyz <- fillGrid l fs 6 [pointFeature 20 20 w1; pointFeature 21 21 w2] arr_empty ;;
    Normal (grid_get xyz (3, 3))) = Normal (Some (21, 21, w2)) /\
   (xyz <- fillGrid l fs 6 [pointFeature 21 21 w2; pointFeature 20 20 w1] arr_empty ;;
    Normal (grid_get xyz (3, 3))) = Normal (Some (21, 21, w2))).
Proof.
  split; [| split].
  - intros this fs cellSize features xyz cell first rest Hfill Hsub.
    apply fillGrid_placed in Hfill. subst xyz.
    rewrite grid_get_fold, Hsub.
    change (grid_get arr_empty cell) with (@None Point). split.
    + intros Hnan. cbn [fold_left pick]. apply fold_pick_not_a_number, Hnan.
    + intros Hnum.
      destruct (fold_pick_first_farthest first rest Hnum)
        as (k & p & Hk & Hfold & Hp & Hle & Hlt).
      exists k, p. auto.
  - intros x y x' y' w w'. split.
    + apply farther_as_computed.
    + intros H. rewrite !distHalf_real. apply abs_round_mono, H.
  - split; vm_compute; reflexivity.
Qed.

Lemma C3_cell_keeps_first_farthest_witness :
  exists p : Point,
    grid_get (fold_left (addToGrid 6)
                (placed (layerOf []) (frameState (frameOf (layerOf [])))
                   [pointFeature 20 20 (F64.round (1 # 5));
                    pointFeature 21 21 (F64.round (19 # 20))])
                arr_empty) (3, 3) = Some p /\
    Js.leb (distHalf (20%Z, 20%Z, F64.round (1 # 5))) (distHalf p) = true.
Proof.
  destruct (proj2 (proj1 C3_cell_keeps_first_farthest (layerOf [])
              (frameState (frameOf (layerOf []))) 6
              [pointFeature 20 20 (F64.round (1 # 5));
               pointFeature 21 21 (F64.round (19 # 20))]
              (fold_left (addToGrid 6)
                 (placed (layerOf []) (frameState (frameOf (layerOf [])))
                    [pointFeature 20 20 (F64.round (1 # 5));
                     pointFeature 21 21 (F64.round (19 # 20))])
                 arr_empty) (3, 3)
              (20%Z, 20%Z, F64.round (1 # 5))
              [(21%Z, 21%Z, F64.round (19 # 20))]
              ltac:(vm_compute; reflexivity) ltac:(vm_compute; reflexivity))
              ltac:(vm_compute; discriminate))
    as (k & p & Hk & Hg & Hp & Hle & Hlt).
  exists p. split; [exact Hg |].
  apply (Hle 0%nat); [reflexivity | vm_compute; discriminate].
Defined.

(** C3, counterexample: the greater distance to 0.5 does not always win,
    and an equal one does not always keep the first.  The double 0.9 is
    farther from 0.5 than the double 0.1, but the two differences round to
    the same double and the cell keeps 0.1, the first; the doubles 0.2 and
    0.8 are at the distances 0.3 and 0.30000000000000004 as computed, and
    the cell keeps 0.8, the second; and a first feature without weight
    keeps the cell against the weight 0.95. *)
Lemma C3_counterexample :
  (exactDistHalf (F64.nearest (1 # 10)) < exactDistHalf (F64.nearest (9 # 10)))%Q /\
  (xyz <- fillGrid (layerOf []) (frameState (frameOf (layerOf []))) 6
            [pointFeature 20 20 (F64.round (1 # 10));
             pointFeature 21 21 (F64.round (9 # 10))] arr_empty ;;
   Normal (grid_get xyz (3, 3)))
  = Normal (Some (20, 20, F64.round (1 # 10))) /\
  (xyz <- fillGrid (layerOf []) (frameState (frameOf (layerOf []))) 6
            [pointFeature 20 20 (F64.round (1 # 5));
             pointFeature 21 21 (F64.round (4 # 5))] arr_empty ;;
   Normal (grid_get xyz (3, 3)))
  = Normal (Some (21, 21, F64.round (4 # 5))) /\
  (xyz <- fillGrid (layerOf []) (frameState (frameOf (layerOf []))) 6
            [weightless 20 20; pointFeature 21 21 (F64.round (19 # 20))] arr_empty ;;
   Normal (grid_get xyz (3, 3)))
  = Normal (Some (20, 20, Js.NaN)).
Proof.
  split; [vm_compute; reflexivity |].
  repeat split; vm_compute; reflexivity.
Qed.

(** ** Weights of the point set *)

Lemma Math_round_Z (z : Z) : Math_round (inject_Z z) = z.
Proof.
  unfold Math_round. apply Z.le_antisymm.
  - assert (H : (Qfloor (inject_Z z + (1 # 2)) < z + 1)%Z); [| lia].
    rewrite Zlt_Qlt. eapply Qle_lt_trans; [apply Qfloor_le |].
    rewrite inject_Z_plus. change (inject_Z 1) with 1%Q. lra.
  - rewrite <- (Qfloor_Z z) at 1. apply Qfloor_resp_le. lra.
Qed.

(** The point pushed for a cell is the cell with its weight clamped. *)
Lemma pushed_clamps (p : Point) : pushed p = (p_x p, p_y p, clamp (p_w p) 0%Q 1%Q).
Proof. unfold pushed. rewrite !Math_round_Z. reflexivity. Qed.

Lemma fold_pick_elem (sub : list Point) :
  forall cur cell,
    fold_left pick sub cur = Some cell -> cell ∈ sub \/ cur = Some cell.
Proof.
  induction sub as [| x sub IH]; intros cur cell H; [right; exact H |].
  cbn [fold_left] in H. apply IH in H as [H | H].
  - left. right. exact H.
  - unfold pick in H. destruct cur as [c |].
    + destruct (Js.gtb _ _); injection H as <-; [left; left | right; reflexivity].
    + injection H as <-. left. left.
Qed.

Lemma collectRow_elem (row : JsArray Point) (p : Point) :
  forall (js : list Z) (acc : list Point),
    p ∈ fold_left (fun acc j => match arr_get row j with
                               | Some c => acc ++ [pushed c]
                               | None => acc
                               end) js acc ->
    p ∈ acc \/ exists j c, arr_get row j = Some c /\ p = pushed c.
Proof.
  induction js as [| j js IH]; intros acc H; [left; exact H |].
  cbn [fold_left] in H. apply IH in H as [H | H]; [| right; exact H].
  destruct (arr_get row j) as [c |] eqn:Hc; [| left; exact H].
  apply elem_of_app in H as [H | H]; [left; exact H |].
  apply list_elem_of_singleton in H. right. eauto.
Qed.

Lemma collectPoints_elem (xyz : Grid) (p : Point) :
  p ∈ collectPoints xyz ->
  exists c cell, grid_get xyz c = Some cell /\ p = pushed cell.
Proof.
  unfold collectPoints.
  assert (G : forall (rows : list Z) (acc : list Point),
             p ∈ fold_left (fun acc i => match arr_get xyz i with
                                        | Some row => collectRow row acc
                                        | None => acc
                                        end) rows acc ->
             p ∈ acc \/ exists c cell, grid_get xyz c = Some cell /\ p = pushed cell).
  { induction rows as [| i rows IH]; intros acc H; [left; exact H |].
    cbn [fold_left] in H. apply IH in H as [H | H]; [| right; exact H].
    destruct (arr_get xyz i) as [row |] eqn:Hrow; [| left; exact H].
    apply collectRow_elem in H as [H | (j & cell & Hj & ->)]; [left; exact H |].
    right. exists (i, j), cell. split; [| reflexivity].
    unfold grid_get. cbn [fst snd]. rewrite Hrow. exact Hj. }
  intros H. apply G in H as [H | H]; [| exact H].
  apply elem_of_nil in H. contradiction.
Qed.

Lemma placed_elem this fs features (p : Point) :
  p ∈ placed this fs features ->
  exists f, f ∈ features /\ p_w p = weight_ this f.
Proof.
  unfold placed. rewrite list_elem_of_omap. intros (f & Hf & H).
  exists f. split; [exact Hf |].
  unfold projectFeature in H.
  destruct (getGeometry f) as [coord |]; [| discriminate].
  destruct (extent fs) as [[[bb0 bb1] bb2] bb3].
  destruct (_ || _); [discriminate |]. injection H as <-. reflexivity.
Qed.

Lemma clamp_unit_real (q : Q) :
  exists q', clamp (Js.Fin q) 0%Q 1%Q = Js.Fin q' /\ (0 <= q' <= 1)%Q.
Proof.
  unfold clamp, Js.max, Js.min, Js.ltb.
  destruct (Qltb q 0) eqn:H0.
  - exists 0%Q. split; [reflexivity | lra].
  - apply Qltb_ge in H0. destruct (Qltb 1 q) eqn:H1.
    + exists 1%Q. split; [reflexivity | lra].
    + apply Qltb_ge in H1. exists q. split; [reflexivity | lra].
Qed.

(** C10: the weights are clamped when the point set is read off the grid,
    after the representative of each cell was chosen on the raw weights:
    a cell of the grid holds the weight as the accessor returned it.  When
    the accessor returns a real number for every feature, every point of
    the point set has a weight in [0, 1].  A weight out of range still wins
    its cell before it is clamped: 5 against 0, where the clamped weights
    would tie and the first would stay, and -3 against 0.9. *)
Theorem C10_clamped_after_selection :
  (forall (this : Hilomap) (fs : FrameState) (cellSize : Z) (found : Hilomap)
          (pointset : list Point),
      coarsen this fs cellSize found = Normal pointset ->
      (forall source features,
          getSource found = Some source -> getFeatures source = Some features ->
          Forall (fun f => Js.is_real (weight_ this f)) features) ->
      Forall (fun p => exists q, p_w p = Js.Fin q /\ (0 <= q <= 1)%Q) pointset) /\
  (forall (this : Hilomap) (fs : FrameState) (cellSize : Z)
          (features : list Feature) (xyz : Grid) (c : Z * Z) (cell : Point),
      fillGrid this fs cellSize features arr_empty = Normal xyz ->
      grid_get xyz c = Some cell ->
      exists f, f ∈ features /\ p_w cell = weight_ this f) /\
  (let l := layerOf [pointFeature 20 20 0%Q; pointFeature 21 21 5%Q] in
   let fs := frameState (frameOf l) in
   (xyz <- fillGrid l fs 6 [pointFeature 20 20 0%Q; pointFeature 21 21 5%Q] arr_empty ;;
    Normal (grid_get xyz (3, 3))) = Normal (Some (21, 21, Js.Fin 5)) /\
   coarsen l fs 6 l = Normal [(21, 21, Js.Fin 1)]) /\
  (let l := layerOf [pointFeature 20 20 (9 # 10)%Q; pointFeature 21 21 (-3)%Q] in
   let fs := frameState (frameOf l) in
   (xyz <- fillGrid l fs 6 [pointFeature 20 20 (9 # 10)%Q; pointFeature 21 21 (-3)%Q] arr_empty ;;
    Normal (grid_get xyz (3, 3))) = Normal (Some (21, 21, Js.Fin (-3))) /\
   coarsen l fs 6 l = Normal [(21, 21, Js.Fin 0)]).
Proof.
  split; [| split; [| split; split; vm_compute; reflexivity]].
  2:{ intros this fs cellSize features xyz c cell Hfill Hcell.
      apply fillGrid_placed in Hfill. subst xyz.
      rewrite grid_get_fold in Hcell.
      apply fold_pick_elem in Hcell as [Hcell | Hcell]; [| discriminate].
      apply list_elem_of_filter in Hcell as [_ Hcell].
      apply placed_elem in Hcell. exact Hcell. }
  intros this fs cellSize found pointset H Hreal.
  unfold coarsen in H.
  destruct (getSource found) as [source |]; [| discriminate].
  destruct (getFeatures source) as [features |] eqn:Hfeatures;
    [| injection H as <-; constructor].
  specialize (Hreal source features eq_refl Hfeatures).
  destruct (fillGrid this fs cellSize features arr_empty) as [xyz | e] eqn:Hfill;
    [| discriminate].
  cbn [bind] in H. injection H as <-.
  apply fillGrid_placed in Hfill. subst xyz.
  apply Forall_forall. intros p Hp.
  apply collectPoints_elem in Hp as (c & cell & Hcell & ->).
  rewrite grid_get_fold in Hcell. apply fold_pick_elem in Hcell as [Hcell | Hcell];
    [| discriminate].
  apply list_elem_of_filter in Hcell as [_ Hcell].
  apply placed_elem in Hcell as (f & Hf & Hw).
  rewrite Forall_forall in Hreal. specialize (Hreal f Hf).
  unfold pushed, p_w at 1. cbn [snd]. rewrite Hw.
  destruct (weight_ this f) as [q | | |]; try contradiction.
  apply clamp_unit_real.
Qed.

Lemma C10_clamped_after_selection_witness :
  Forall (fun p => exists q, p_w p = Js.Fin q /\ (0 <= q <= 1)%Q)
         [((21, 21, Js.Fin 1) : Point)].
Proof.
  apply (proj1 C10_clamped_after_selection
           (layerOf [pointFeature 20 20 0%Q; pointFeature 21 21 5%Q])
           (frameState (frameOf (layerOf [])))
           6
           (layerOf [pointFeature 20 20 0%Q; pointFeature 21 21 5%Q])).
  - vm_compute. reflexivity.
  - intros source features Hs Hf. injection Hs as <-. injection Hf as <-.
    repeat constructor.
Defined.

(** ** The degenerate frame *)

(** C2: when the coarsened point set of a render event is empty the handler
    returns normally and hands the context back as it received it: no call
    is issued on it, neither clearRect nor putImageData. *)
Theorem C2_empty_pointset_leaves_canvas sample (this : Hilomap) (event : RenderEvent) :
  framePointset this event = Normal [] ->
  context' (handleRender_ sample this event) = context event /\
  history (context' (handleRender_ sample this event)) = history (context event) /\
  completion (handleRender_ sample this event) = Normal tt.
Proof.
  unfold framePointset, handleRender_. intros H.
  destruct (findLayer _) as [found |]; [| simpl; auto].
  rewrite H. simpl. auto.
Qed.

Lemma C2_empty_pointset_witness :
  framePointset (layerOf [pointFeature 200 200 (1 # 2)%Q])
                (frameOf (layerOf [pointFeature 200 200 (1 # 2)%Q])) = Normal [] /\
  context' (handleRender_ blankSample (layerOf [pointFeature 200 200 (1 # 2)%Q])
              (frameOf (layerOf [pointFeature 200 200 (1 # 2)%Q])))
  = mkCanvas 4 4 [].
Proof.
  split; [vm_compute; reflexivity |].
  apply (C2_empty_pointset_leaves_canvas blankSample
           (layerOf [pointFeature 200 200 (1 # 2)%Q])
           (frameOf (layerOf [pointFeature 200 200 (1 # 2)%Q]))).
  vm_compute; reflexivity.
Defined.


(** ** Failures *)

Lemma fillGrid_sound this fs cellSize features :
  forall xyz,
    if forallb hasGeometry features
    then exists g, fillGrid this fs cellSize features xyz = Normal g
    else fillGrid this fs cellSize features xyz = Throw TypeError.
Proof.
  induction features as [| f rest IH]; intros xyz; simpl.
  - eauto.
  - unfold projectFeature, hasGeometry at 1.
    destruct (getGeometry f) as [coord |]; simpl; [| reflexivity].
    destruct (extent fs) as [[[bb0 bb1] bb2] bb3].
    destruct (_ || _); simpl; apply IH.
Qed.

(** C9, as the code has it: the handler has no catch.  It completes exactly
    on the frames where the layer found has a source and every feature of
    that source has a geometry (or where no layer is found); on every other
    frame the TypeError raised while coarsening leaves the handler. *)
Theorem C9_handler_throws_on_unsound_frames sample (this : Hilomap) (event : RenderEvent) :
  completion (handleRender_ sample this event)
  = if frameIsSound event then Normal tt else Throw TypeError.
Proof.
  unfold handleRender_, frameIsSound.
  destruct (findLayer _) as [found |]; [| reflexivity].
  unfold coarsen.
  destruct (getSource found) as [source |]; [| reflexivity].
  destruct (getFeatures source) as [features |]; [| reflexivity].
  match goal with
  | |- context [fillGrid ?t ?f ?c features arr_empty] =>
      pose proof (fillGrid_sound t f c features arr_empty) as H
  end.
  destruct (forallb hasGeometry features).
  - destruct H as [g ->]. reflexivity.
  - rewrite H. reflexivity.
Qed.

(** C9, counterexample: a frame whose layer holds a feature without
    geometry; the handler ends with a TypeError that nothing catches. *)
Lemma C9_counterexample :
  completion (handleRender_ blankSample (layerOf [bareFeature])
                (frameOf (layerOf [bareFeature])))
  = Throw TypeError.
Proof. vm_compute. reflexivity. Qed.


(** ** The three rounds *)

Lemma history_calls ks c : history (calls ks c) = history c ++ ks.
Proof.
  revert c. induction ks as [| k ks IH]; intros c.
  - cbn. rewrite app_nil_r. reflexivity.
  - unfold calls in *. cbn [fold_left]. rewrite IH.
    destruct c as [w h l]. cbn. rewrite <- app_assoc. reflexivity.
Qed.

Lemma calls_app ks1 ks2 c : calls (ks1 ++ ks2) c = calls ks2 (calls ks1 c).
Proof. unfold calls. apply fold_left_app. Qed.

Lemma lowPass_acc circle radius (pointset : list Point) :
  forall c hipoints,
    fold_left
      (fun '(ctx, hipoints) p =>
         if Js.leb (p_w p) (1 # 2)
         then (stamp circle radius (lowAlpha (p_w p)) p ctx, hipoints)
         else (ctx, hipoints ++ [p]))
      pointset (c, hipoints)
    = (calls (draws circle radius lowAlpha (filter (fun p => isLow p = true) pointset)) c,
       hipoints ++ filter (fun p => isLow p = false) pointset).
Proof.
  induction pointset as [| p pointset IH]; intros c hipoints.
  - cbn. rewrite app_nil_r. reflexivity.
  - cbn [fold_left]. rewrite !filter_cons.
    change (Js.leb (p_w p) (1 # 2)) with (isLow p).
    destruct (isLow p) eqn:E.
    + rewrite IH. rewrite decide_True by reflexivity.
      rewrite decide_False by discriminate. reflexivity.
    + rewrite IH. rewrite decide_False by discriminate.
      rewrite decide_True by reflexivity. rewrite <- app_assoc. reflexivity.
Qed.

Lemma lowPass_draws circle radius pointset c :
  lowPass circle radius pointset c
  = (calls (draws circle radius lowAlpha (filter (fun p => isLow p = true) pointset)) c,
     filter (fun p => isLow p = false) pointset).
Proof. unfold lowPass. apply lowPass_acc. Qed.

Lemma pass_draws circle radius alpha (points : list Point) :
  forall c,
    fold_left (fun ctx p => stamp circle radius (alpha (p_w p)) p ctx) points c
    = calls (draws circle radius alpha points) c.
Proof.
  induction points as [| p points IH]; intros c; [reflexivity |].
  cbn [fold_left]. rewrite IH. reflexivity.
Qed.

Lemma alphaOf_blank sample (c : Canvas) :
  (forall i, sample c i = x00) -> Forall (eq x00) (alphaOf sample c).
Proof.
  intros Hblank. unfold alphaOf, for4, U8.make.
  set (Img := data (getImageData sample c)).
  set (N := Z.to_nat _).
  assert (Hstore : forall j, U8.of_Num (U8.get Img j) = x00).
  { intros j. destruct (Img !! j) as [b |] eqn:Hj.
    - rewrite (store_get _ _ _ Hj). unfold Img, getImageData in Hj. cbn [data] in Hj.
      apply list_lookup_fmap_Some in Hj as (k & -> & _). apply Hblank.
    - apply store_get_undefined, Hj. }
  assert (G : forall ks,
             fold_left (fun acc k => U8.set acc (4 * k + 3) (U8.get Img (4 * k + 3)))
                       ks (replicate N x00) = replicate N x00).
  { induction ks as [| k ks IH]; [reflexivity |].
    cbn [fold_left]. unfold U8.set at 2. rewrite Hstore, insert_replicate. exact IH. }
  rewrite G. apply Forall_replicate. reflexivity.
Qed.

Lemma for4_pixels {S : Type} (n : nat) (body : nat -> S -> S) (s : S) :
  for4 (4 * n) body s = fold_left (fun acc k => body (4 * k)%nat acc) (seq 0 n) s.
Proof.
  unfold for4. replace ((4 * n + 3) / 4)%nat with n; [reflexivity |].
  apply Nat.div_unique with (r := 3%nat); lia.
Qed.

Lemma getImageData_length sample (c : Canvas) :
  length (data (getImageData sample c)) = byteLength c.
Proof. unfold getImageData. cbn [data]. rewrite length_map, length_seq. reflexivity. Qed.

Lemma getImageData_lookup sample (c : Canvas) (j : nat) :
  (j < byteLength c)%nat -> data (getImageData sample c) !! j = Some (sample c j).
Proof.
  intros H. unfold getImageData. cbn [data].
  rewrite list_lookup_fmap, lookup_seq_lt by exact H. reflexivity.
Qed.

Lemma alphaOf_invariant sample (c : Canvas) (n m : nat) :
  byteLength c = (4 * n)%nat -> (m <= n)%nat ->
  let Img := data (getImageData sample c) in
  let R := fold_left (fun acc k => U8.set acc (4 * k + 3) (U8.get Img (4 * k + 3)))
                     (seq 0 m) (replicate (4 * n) x00) in
  length R = (4 * n)%nat /\
  forall k ch, (ch < 4)%nat ->
    R !! (4 * k + ch)%nat
    = if (k <? m)%nat && (ch =? 3)%nat then Some (sample c (4 * k + 3)%nat)
      else replicate (4 * n) x00 !! (4 * k + ch)%nat.
Proof.
  intros Hlen. induction m as [| m IH]; intros Hm Img R.
  - split; [apply length_replicate | intros k ch Hch; reflexivity].
  - destruct IH as [HlenR Hpix]; [lia |].
    unfold R. rewrite seq_S, fold_left_app. cbn [fold_left]. rewrite Nat.add_0_l.
    set (R0 := fold_left _ (seq 0 m) _) in *.
    unfold U8.set.
    rewrite (store_get Img (4 * m + 3) (sample c (4 * m + 3)%nat))
      by (apply getImageData_lookup; lia).
    split; [rewrite length_insert; exact HlenR |].
    intros k ch Hch. rewrite list_lookup_insert, HlenR.
    destruct (decide (k = m)) as [-> | Hk].
    + replace (m <? S m)%nat with true by (symmetry; apply Nat.ltb_lt; lia).
      destruct (Nat.eqb_spec ch 3) as [-> | Hne]; cbn [andb].
      * rewrite decide_True by lia. reflexivity.
      * rewrite decide_False by lia. rewrite Hpix by exact Hch.
        replace (m <? m)%nat with false by (symmetry; apply Nat.ltb_ge; lia).
        reflexivity.
    + rewrite decide_False by lia. rewrite Hpix by exact Hch.
      replace (k <? S m)%nat with (k <? m)%nat; [reflexivity |].
      destruct (k <? m)%nat eqn:E; symmetry;
        [apply Nat.ltb_lt in E; apply Nat.ltb_lt | apply Nat.ltb_ge in E; apply Nat.ltb_ge];
        lia.
Qed.

Lemma alphaOf_pixels sample (c : Canvas) (W H : Z) :
  width c = inject_Z W -> height c = inject_Z H -> 0 <= W -> 0 <= H ->
  length (alphaOf sample c) = (4 * Z.to_nat (W * H))%nat /\
  forall k, (k < Z.to_nat (W * H))%nat ->
    alphaOf sample c !! (4 * k + 3)%nat = Some (sample c (4 * k + 3)%nat) /\
    alphaOf sample c !! (4 * k)%nat = Some x00 /\
    alphaOf sample c !! (4 * k + 1)%nat = Some x00 /\
    alphaOf sample c !! (4 * k + 2)%nat = Some x00.
Proof.
  intros Hw Hh HW HH. set (n := Z.to_nat (W * H)).
  assert (Hbytes : byteLength c = (4 * n)%nat).
  { unfold byteLength. rewrite Hw, Hh, !Qfloor_Z. unfold n. lia. }
  assert (Hmake : U8.make (width c * height c * 4) = replicate (4 * n) x00).
  { unfold U8.make. f_equal. rewrite Hw, Hh.
    assert (Hq : (inject_Z W * inject_Z H * 4 == inject_Z (W * H * 4))%Q)
      by (rewrite !inject_Z_mult; reflexivity).
    rewrite (Qfloor_comp _ _ Hq), Qfloor_Z. unfold n. lia. }
  assert (E : alphaOf sample c
              = fold_left (fun acc k => U8.set acc (4 * k + 3)
                                          (U8.get (data (getImageData sample c)) (4 * k + 3)))
                          (seq 0 n) (replicate (4 * n) x00)).
  { unfold alphaOf. rewrite getImageData_length, Hbytes, Hmake. apply for4_pixels. }
  destruct (alphaOf_invariant sample c n n Hbytes (le_n n)) as [Hlen Hpix].
  cbv zeta in Hlen, Hpix. rewrite <- E in Hlen, Hpix.
  split; [exact Hlen |]. intros k Hk.
  pose proof (Hpix k 3%nat ltac:(lia)) as H3.
  pose proof (Hpix k 0%nat ltac:(lia)) as H0.
  pose proof (Hpix k 1%nat ltac:(lia)) as H1.
  pose proof (Hpix k 2%nat ltac:(lia)) as H2.
  replace (k <? n)%nat with true in * by (symmetry; apply Nat.ltb_lt; lia).
  cbn [andb Nat.eqb] in H3, H0, H1, H2. rewrite Nat.add_0_r in H0.
  rewrite lookup_replicate_2 in H0, H1, H2 by lia. auto.
Qed.


Lemma composite_rounds sample circle radius pointset c :
  let clear := ClearRect 0 0 (width c) (height c) in
  let read := GetImageData 0 0 (width c) (height c) in
  let c1 := calls (clear :: draws circle radius lowAlpha
                              (filter (fun p => isLow p = true) pointset)) c in
  let c2 := calls (read :: clear :: draws circle radius highAlpha
                                      (filter (fun p => isLow p = false) pointset)) c1 in
  let c3 := calls (read :: clear :: draws circle radius finalAlpha pointset) c2 in
  composite sample circle radius pointset c = (c3, alphaOf sample c1, alphaOf sample c2).
Proof.
  unfold composite. rewrite lowPass_draws.
  unfold highPass, finalPass. rewrite !pass_draws.
  assert (Hclear : forall ks c0, width c0 = width c -> height c0 = height c ->
             calls ks (clearCanvas c0)
             = calls (ClearRect 0 0 (width c) (height c) :: ks) c0).
  { intros ks c0 Hw Hh. unfold clearCanvas. rewrite Hw, Hh. reflexivity. }
  assert (Hread : forall ks c0, width c0 = width c -> height c0 = height c ->
             calls ks (clearCanvas (readBack c0))
             = calls (GetImageData 0 0 (width c) (height c)
                        :: ClearRect 0 0 (width c) (height c) :: ks) c0).
  { intros ks c0 Hw Hh. unfold clearCanvas, readBack.
    change (width (call ?k c0)) with (width c0).
    change (height (call ?k c0)) with (height c0).
    rewrite Hw, Hh. reflexivity. }
  rewrite (Hclear _ c) by reflexivity. cbv zeta.
  set (c1 := calls (_ :: draws circle radius lowAlpha _) c).
  rewrite (Hread _ c1) by (unfold c1; rewrite ?width_calls, ?height_calls; reflexivity).
  set (c2 := calls (_ :: _ :: draws circle radius highAlpha _) c1).
  rewrite (Hread _ c2)
    by (unfold c2, c1; rewrite ?width_calls, ?height_calls; reflexivity).
  reflexivity.
Qed.

Lemma isLow_real x y (q : Q) :
  (isLow (x, y, Js.Fin q) = true <-> (q <= 1 # 2)%Q) /\
  (isLow (x, y, Js.Fin q) = false <-> (1 # 2 < q)%Q).
Proof.
  unfold isLow, p_w. cbn [snd Js.leb]. split.
  - apply Qle_bool_iff.
  - rewrite <- not_true_iff_false, Qle_bool_iff. split; [apply Qnot_le_lt | apply Qlt_not_le].
Qed.

(** C4: the low round stamps exactly the points with weight <= 0.5, each
    at opacity (0.5 − w) × 2, the high round exactly the others (for a real
    weight: w > 0.5), each at opacity (w − 0.5) × 2, and the final round
    every point at the opacity of its round; each round starts by clearing
    the canvas, and the canvas is read back after the first and after the
    second round.  The low buffer holds, pixel by pixel, the alpha that the
    canvas reads back after the stamps of the low round, and the high
    buffer the alpha it reads back after the stamps of the high round; the
    colour bytes of the two buffers are 0.  Provided a canvas reads back as
    transparent black right after it was cleared, a round that stamps
    nothing leaves its buffer all zero: the high buffer for a single point
    of weight 0.3, the low buffer for a single point of weight 0.8. *)
Theorem C4_dual_pass sample circle radius (pointset : list Point) (c : Canvas) :
  (forall c0 i, sample (clearCanvas c0) i = x00) ->
  let low := filter (fun p => isLow p = true) pointset in
  let high := filter (fun p => isLow p = false) pointset in
  let clear := ClearRect 0 0 (width c) (height c) in
  let read := GetImageData 0 0 (width c) (height c) in
  let c1 := calls (clear :: draws circle radius lowAlpha low) c in
  let c2 := calls (read :: clear :: draws circle radius highAlpha high) c1 in
  let c3 := calls (read :: clear :: draws circle radius finalAlpha pointset) c2 in
  let loA := alphaOf sample c1 in
  let hiA := alphaOf sample c2 in
  composite sample circle radius pointset c = (c3, loA, hiA) /\
  history c3 = history c ++ clear :: draws circle radius lowAlpha low
                         ++ read :: clear :: draws circle radius highAlpha high
                         ++ read :: clear :: draws circle radius finalAlpha pointset /\
  (forall x y q,
      (isLow (x, y, Js.Fin q) = true <-> (q <= 1 # 2)%Q) /\
      (isLow (x, y, Js.Fin q) = false <-> (1 # 2 < q)%Q) /\
      lowAlpha (Js.Fin q) = Js.Fin (((1 # 2) - q) * 2) /\
      highAlpha (Js.Fin q) = Js.Fin ((q - (1 # 2)) * 2) /\
      finalAlpha (Js.Fin q)
      = Js.Fin (if Qle_bool q (1 # 2) then ((1 # 2) - q) * 2 else (q - (1 # 2)) * 2)) /\
  (forall W H : Z,
      width c = inject_Z W -> height c = inject_Z H -> 0 <= W -> 0 <= H ->
      length loA = (4 * Z.to_nat (W * H))%nat /\
      length hiA = (4 * Z.to_nat (W * H))%nat /\
      forall k, (k < Z.to_nat (W * H))%nat ->
        loA !! (4 * k + 3)%nat = Some (sample c1 (4 * k + 3)%nat) /\
        hiA !! (4 * k + 3)%nat = Some (sample c2 (4 * k + 3)%nat) /\
        forall ch, (ch < 3)%nat ->
          loA !! (4 * k + ch)%nat = Some x00 /\ hiA !! (4 * k + ch)%nat = Some x00) /\
  (high = [] -> Forall (eq x00) hiA) /\
  (low = [] -> Forall (eq x00) loA) /\
  (forall x y,
      pointset = [(x, y, Js.Fin (3 # 10))] ->
      low = pointset /\ high = [] /\ Forall (eq x00) hiA /\
      c1 = calls [clear; SetGlobalAlpha (Js.Fin (((1 # 2) - (3 # 10)) * 2));
                  DrawImage circle (inject_Z x - radius) (inject_Z y - radius)] c) /\
  (forall x y,
      pointset = [(x, y, Js.Fin (8 # 10))] ->
      low = [] /\ high = pointset /\ Forall (eq x00) loA /\
      c2 = calls [read; clear; SetGlobalAlpha (Js.Fin (((8 # 10) - (1 # 2)) * 2));
                  DrawImage circle (inject_Z x - radius) (inject_Z y - radius)] c1).
Proof.
  intros Hclear low high clear read c1 c2 c3 loA hiA.
  assert (Hw1 : width c1 = width c) by (unfold c1; apply width_calls).
  assert (Hh1 : height c1 = height c) by (unfold c1; apply height_calls).
  assert (Hw2 : width c2 = width c) by (unfold c2; rewrite width_calls; exact Hw1).
  assert (Hh2 : height c2 = height c) by (unfold c2; rewrite height_calls; exact Hh1).
  assert (Hhigh : high = [] -> Forall (eq x00) hiA).
  { intros E. apply alphaOf_blank. intros i. unfold c2. rewrite E. cbn [draws flat_map].
    replace (calls [read; clear] c1) with (clearCanvas (readBack c1)); [apply Hclear |].
    unfold clearCanvas, readBack, clear, read.
    change (width (call ?k c1)) with (width c1).
    change (height (call ?k c1)) with (height c1).
    rewrite Hw1, Hh1. reflexivity. }
  assert (Hlow : low = [] -> Forall (eq x00) loA).
  { intros E. apply alphaOf_blank. intros i. unfold c1. rewrite E. cbn [draws flat_map].
    apply (Hclear c). }
  split; [apply composite_rounds |].
  split.
  { unfold c3, c2, c1. rewrite !history_calls, <- !app_assoc. reflexivity. }
  split.
  { intros x y q. destruct (isLow_real x y q) as [H1 H2].
    split; [exact H1 | split; [exact H2 |]].
    unfold finalAlpha, lowAlpha, highAlpha. cbn [Js.sub Js.mul Js.leb].
    repeat split. destruct (Qle_bool q (1 # 2)); reflexivity. }
  split.
  { intros W H HW HH HW0 HH0.
    destruct (alphaOf_pixels sample c1 W H) as [Hl1 Hp1];
      [rewrite Hw1; exact HW | rewrite Hh1; exact HH | exact HW0 | exact HH0 |].
    destruct (alphaOf_pixels sample c2 W H) as [Hl2 Hp2];
      [rewrite Hw2; exact HW | rewrite Hh2; exact HH | exact HW0 | exact HH0 |].
    split; [exact Hl1 | split; [exact Hl2 |]].
    intros k Hk. destruct (Hp1 k Hk) as (A3 & A0 & A1 & A2).
    destruct (Hp2 k Hk) as (B3 & B0 & B1 & B2).
    split; [exact A3 | split; [exact B3 |]].
    intros ch Hch. destruct ch as [| [| [| ch]]]; [| | | lia].
    - rewrite Nat.add_0_r. auto.
    - auto.
    - auto. }
  split; [exact Hhigh | split; [exact Hlow |]].
  split.
  - intros x y E.
    assert (E1 : low = pointset) by (unfold low; rewrite E; reflexivity).
    assert (E2 : high = []) by (unfold high; rewrite E; reflexivity).
    split; [exact E1 | split; [exact E2 | split; [auto |]]].
    unfold c1. rewrite E1, E. reflexivity.
  - intros x y E.
    assert (E1 : low = []) by (unfold low; rewrite E; reflexivity).
    assert (E2 : high = pointset) by (unfold high; rewrite E; reflexivity).
    split; [exact E1 | split; [exact E2 | split; [auto |]]].
    unfold c2. rewrite E2, E. reflexivity.
Qed.

Lemma C4_dual_pass_witness :
  composite blankSample (mkCanvas 22 22 []) 11 [(20, 20, Js.Fin (3 # 10))] (mkCanvas 4 4 [])
  = (mkCanvas 4 4
       [ ClearRect 0 0 4 4;
         SetGlobalAlpha (Js.Fin (((1 # 2) - (3 # 10)) * 2));
         DrawImage (mkCanvas 22 22 []) (inject_Z 20 - 11) (inject_Z 20 - 11);
         GetImageData 0 0 4 4;
         ClearRect 0 0 4 4;
         GetImageData 0 0 4 4;
         ClearRect 0 0 4 4;
         SetGlobalAlpha (Js.Fin (((1 # 2) - (3 # 10)) * 2));
         DrawImage (mkCanvas 22 22 []) (inject_Z 20 - 11) (inject_Z 20 - 11) ],
     replicate 64 x00, replicate 64 x00).
Proof.
  rewrite (proj1 (C4_dual_pass blankSample (mkCanvas 22 22 []) 11
                    [(20, 20, Js.Fin (3 # 10))] (mkCanvas 4 4 [])
                    (fun _ _ => eq_refl))).
  reflexivity.
Defined.

(** The other side of the guard of line 389: with a point in the point set
    the handler clears the canvas, stamps the three rounds and writes pixel
    data back last. *)
Lemma nonempty_pointset_writes_back sample (this : Hilomap) (event : RenderEvent)
    (p : Point) (points : list Point) :
  framePointset this event = Normal (p :: points) ->
  let this1 := withBaseResolution this (resolution (frameState event)) in
  let zoomRatio := zoomRatioOf this1 (resolution (frameState event)) in
  let circle := createCircle_ this1 (pixelRatio (frameState event) * zoomRatio) in
  let radius := stampRadius this1 (frameState event) zoomRatio in
  let clear := ClearRect 0 0 (width (context event)) (height (context event)) in
  let read := GetImageData 0 0 (width (context event)) (height (context event)) in
  let pointset := p :: points in
  exists image : ImageData,
    history (context' (handleRender_ sample this event))
    = history (context event)
      ++ clear :: draws circle radius lowAlpha (filter (fun p => isLow p = true) pointset)
      ++ read :: clear
           :: draws circle radius highAlpha (filter (fun p => isLow p = false) pointset)
      ++ read :: clear :: draws circle radius finalAlpha pointset
      ++ [read; PutImageData image 0 0].
Proof.
  unfold framePointset, handleRender_. intros H.
  destruct (findLayer _) as [found |]; [| discriminate].
  rewrite H. cbn [context']. cbv zeta.
  unfold drawPointset. change (0 <? length (p :: points))%nat with true. cbv iota.
  unfold rasterize.
  match goal with
  | |- context [composite sample ?ci ?r ?ps ?c] =>
      pose proof (composite_rounds sample ci r ps c) as E
  end.
  cbv zeta in E. rewrite E.
  match goal with
  | |- context [PutImageData ?im _ _] => exists im
  end.
  unfold readBack, call. cbn [history width height].
  rewrite !history_calls, !width_calls, !height_calls, <- !app_assoc. reflexivity.
Qed.

Lemma alphaOf_length sample (c : Canvas) :
  length (alphaOf sample c) = Z.to_nat (Qfloor (width c * height c * 4)).
Proof.
  unfold alphaOf, for4, U8.make.
  set (Img := data (getImageData sample c)).
  set (N := Z.to_nat _).
  rewrite <- (length_replicate N x00) at 2.
  generalize (replicate N x00) as A. generalize (seq 0 ((length Img + 3) / 4)) as ks.
  induction ks as [| k ks IH]; intros A; [reflexivity |].
  cbn [fold_left]. rewrite IH. unfold U8.set. apply length_insert.
Qed.

(** On a canvas of integral size the two alpha buffers and the image read
    back have the same number of bytes, four per pixel: the buffers that
    the colouring loop receives from the three rounds fit each other. *)
Lemma composite_buffers_fit sample circle radius pointset (c : Canvas) (W H : Z) :
  width c = inject_Z W -> height c = inject_Z H -> 0 <= W -> 0 <= H ->
  let n := Z.to_nat (W * H) in
  length (composite sample circle radius pointset c).1.2 = (4 * n)%nat /\
  length (composite sample circle radius pointset c).2 = (4 * n)%nat /\
  length (data (getImageData sample (composite sample circle radius pointset c).1.1))
  = (4 * n)%nat.
Proof.
  intros Hw Hh HW HH n.
  pose proof (composite_rounds sample circle radius pointset c) as E. cbv zeta in E.
  rewrite E. cbn [fst snd].
  rewrite !alphaOf_length, getImageData_length. unfold byteLength.
  rewrite !width_calls, !height_calls, Hw, Hh, !Qfloor_Z.
  assert (Hq : (inject_Z W * inject_Z H * 4 == inject_Z (W * H * 4))%Q)
    by (rewrite !inject_Z_mult; reflexivity).
  rewrite (Qfloor_comp _ _ Hq), Qfloor_Z. unfold n. lia.
Qed.

(** ** The colouring loop *)

Lemma stored_at (A : list byte) (q : Q) (z : Z) :
  (q == inject_Z z)%Q -> 0 <= z ->
  U8.of_Num (U8.get_at A (Js.Fin q)) = default x00 (A !! Z.to_nat z).
Proof.
  intros E Hz. unfold U8.get_at. rewrite (to_index_int q z E Hz).
  destruct (A !! Z.to_nat z) as [b |] eqn:H.
  - apply store_get, H.
  - apply store_get_undefined, H.
Qed.

Lemma colorStep_pixel (gradient hiA loA : list byte) (k : nat) (s : Resolved)
    (lo hi : Z) :
  (4 * k + 3 < length hiA)%nat -> (4 * k + 3 < length loA)%nat ->
  wMin s = Js.of_Z lo -> wMax s = Js.of_Z hi ->
  let w := spec_signed (alphaAt hiA k) (alphaAt loA k) in
  let entry c := default x00 (gradient !! Z.to_nat (4 * w + c)) in
  colorStep gradient hiA loA (4 * k) s
  = {| img := <[(4 * k + 2)%nat := entry 2]>
                (<[(4 * k + 1)%nat := entry 1]>
                   (<[(4 * k)%nat := entry 0]> (img s)));
       wMin := Js.of_Z (Z.min lo w);
       wMax := Js.of_Z (Z.max hi w) |}.
Proof.
  intros Hh Hl Hlo Hhi w entry.
  destruct (lookup_lt_is_Some_2 _ _ Hh) as [bh Hbh].
  destruct (lookup_lt_is_Some_2 _ _ Hl) as [bl Hbl].
  assert (Hw : 1 <= w <= 255).
  { apply spec_signed_bytes; apply to_Z_range. }
  unfold colorStep. rewrite Hlo, Hhi.
  replace (U8.get hiA (4 * k + 3)) with (Js.of_Z (alphaAt hiA k))
    by (unfold U8.get, alphaAt; rewrite Hbh; reflexivity).
  replace (U8.get loA (4 * k + 3)) with (Js.of_Z (alphaAt loA k))
    by (unfold U8.get, alphaAt; rewrite Hbl; reflexivity).
  rewrite signedIntensity_bytes. fold w.
  unfold Js.gtb, Js.ltb, Js.of_Z. rewrite !Qltb_inject_Z.
  cbn [Js.mul Js.add Js.truthy].
  assert (Hq : (1 <= inject_Z w)%Q) by (change 1%Q with (inject_Z 1); rewrite <- Zle_Qle; lia).
  replace (Qeqb (inject_Z w * 4) 0) with false.
  2:{ symmetry. apply not_true_iff_false. intros E. apply Qeq_bool_eq in E. lra. }
  cbn [negb]. unfold U8.set.
  rewrite (stored_at gradient (inject_Z w * 4) (4 * w + 0)), 
          (stored_at gradient (inject_Z w * 4 + 1) (4 * w + 1)),
          (stored_at gradient (inject_Z w * 4 + 2) (4 * w + 2)); try lia.
  2-4: rewrite inject_Z_plus, inject_Z_mult; simpl; try ring.
  f_equal.
  - destruct (w <? lo) eqn:E; f_equal; f_equal; lia.
  - destruct (hi <? w) eqn:E; f_equal; f_equal; lia.
Qed.

Section Colouring.

Variables (gradient hiA loA img0 : list byte) (n : nat).
Hypothesis Himg : length img0 = (4 * n)%nat.
Hypothesis Hhi : length hiA = (4 * n)%nat.
Hypothesis Hlo : length loA = (4 * n)%nat.
Hypothesis Hgradient : length gradient = 1024%nat.

Let W (k : nat) : Z := spec_signed (alphaAt hiA k) (alphaAt loA k).

Let run (m : nat) : Resolved :=
  fold_left (fun acc k => colorStep gradient hiA loA (4 * k) acc) (seq 0 m)
            {| img := img0; wMin := 255%Q; wMax := 0%Q |}.

Lemma W_range k : 1 <= W k <= 255.
Proof. apply spec_signed_bytes; apply to_Z_range. Qed.

Lemma entry_defined k (c : Z) :
  0 <= c < 4 ->
  Some (default x00 (gradient !! Z.to_nat (4 * W k + c)))
  = gradient !! Z.to_nat (4 * W k + c).
Proof.
  intros Hc. pose proof (W_range k).
  destruct (lookup_lt_is_Some_2 gradient (Z.to_nat (4 * W k + c))) as [b ->];
    [lia | reflexivity].
Qed.

Lemma colorize_invariant (m : nat) :
  (m <= n)%nat ->
  length (img (run m)) = (4 * n)%nat /\
  (forall k c, (c < 4)%nat ->
     img (run m) !! (4 * k + c)%nat
     = if (k <? m)%nat && (c <? 3)%nat
       then gradient !! Z.to_nat (4 * W k + Z.of_nat c)
       else img0 !! (4 * k + c)%nat) /\
  exists lo hi,
    wMin (run m) = Js.of_Z lo /\ wMax (run m) = Js.of_Z hi /\
    (forall k, (k < m)%nat -> lo <= W k <= hi) /\
    (m = 0%nat -> lo = 255 /\ hi = 0) /\
    ((0 < m)%nat -> (exists k, (k < m)%nat /\ W k = lo) /\
                    (exists k, (k < m)%nat /\ W k = hi)).
Proof.
  induction m as [| m IH]; intros Hm.
  - split; [exact Himg | split].
    + intros k c Hc. reflexivity.
    + exists 255, 0. repeat split; try reflexivity; try lia; intros; lia.
  - destruct IH as (Hlen & Hpix & lo & hi & Hmin & Hmax & Hbound & Hzero & Hpos);
      [lia |].
    unfold run. rewrite seq_S, fold_left_app. cbn [fold_left]. fold (run m).
    rewrite Nat.add_0_l.
    rewrite (colorStep_pixel gradient hiA loA m (run m) lo hi) by (assumption || lia).
    cbv zeta. fold (W m). cbn [img wMin wMax].
    pose proof (W_range m) as Hw.
    split; [rewrite !length_insert; exact Hlen | split].
    + intros k c Hc.
      rewrite !list_lookup_insert, !length_insert, Hlen.
      destruct (decide (k = m)) as [-> | Hk].
      * replace (m <? S m)%nat with true by (symmetry; apply Nat.ltb_lt; lia).
        destruct c as [| [| [| c']]]; cbn [Nat.ltb Nat.leb andb].
        -- rewrite decide_False by lia. rewrite decide_False by lia.
           rewrite decide_True by lia.
           change (Z.of_nat 0) with 0. apply entry_defined. lia.
        -- rewrite decide_False by lia. rewrite decide_True by lia.
           change (Z.of_nat 1) with 1. apply entry_defined. lia.
        -- rewrite decide_True by lia.
           change (Z.of_nat 2) with 2. apply entry_defined. lia.
        -- rewrite !decide_False by lia. rewrite Hpix by lia.
           replace (m <? m)%nat with false by (symmetry; apply Nat.ltb_ge; lia).
           reflexivity.
      * rewrite !decide_False by lia. rewrite Hpix by lia.
        replace (k <? S m)%nat with (k <? m)%nat; [reflexivity |].
        destruct (k <? m)%nat eqn:E; symmetry;
          [apply Nat.ltb_lt in E; apply Nat.ltb_lt | apply Nat.ltb_ge in E; apply Nat.ltb_ge];
          lia.
    + exists (Z.min lo (W m)), (Z.max hi (W m)).
      split; [reflexivity | split; [reflexivity | split; [| split; [lia |]]]].
      * intros k Hk. destruct (decide (k = m)) as [-> | Hne]; [lia |].
        specialize (Hbound k ltac:(lia)). lia.
      * intros _. destruct m as [| m'].
        -- destruct Hzero as [-> ->]; [reflexivity |].
           split; exists 0%nat; split; lia.
        -- destruct Hpos as [(k1 & Hk1 & E1) (k2 & Hk2 & E2)]; [lia |]. split.
           ++ destruct (Z.le_ge_cases lo (W (S m'))).
              ** exists k1. split; lia.
              ** exists (S m'). split; lia.
           ++ destruct (Z.le_ge_cases hi (W (S m'))).
              ** exists (S m'). split; lia.
              ** exists k2. split; lia.
Qed.

End Colouring.

(** C5: on buffers of [n] pixels and a table of 256 entries, the value the
    loop computes for a pixel is [clamp(round(128 + (highAlpha −
    lowAlpha)/2), 0, 255)]; [wMin] and [wMax] are the least and the greatest
    of these values over the pixels; the three colour bytes of the pixel
    become those of the table entry at that index exactly when the value is
    not 0, and its alpha byte is left as it was. *)
Theorem C5_colorize_per_pixel (gradient hiA loA img0 : list byte) (n : nat) :
  length img0 = (4 * n)%nat -> length hiA = (4 * n)%nat ->
  length loA = (4 * n)%nat -> length gradient = 1024%nat ->
  let s := colorize gradient hiA loA img0 in
  let w k := spec_signed (alphaAt hiA k) (alphaAt loA k) in
  (forall k, (k < n)%nat ->
     signedIntensity (U8.get hiA (4 * k + 3)) (U8.get loA (4 * k + 3)) = Js.of_Z (w k)) /\
  (forall k c, (k < n)%nat -> (c < 3)%nat ->
     img s !! (4 * k + c)%nat
     = if w k =? 0 then img0 !! (4 * k + c)%nat
       else gradient !! Z.to_nat (4 * w k + Z.of_nat c)) /\
  (forall k, (k < n)%nat -> img s !! (4 * k + 3)%nat = img0 !! (4 * k + 3)%nat) /\
  exists lo hi,
    wMin s = Js.of_Z lo /\ wMax s = Js.of_Z hi /\
    (forall k, (k < n)%nat -> lo <= w k <= hi) /\
    ((0 < n)%nat -> (exists k, (k < n)%nat /\ w k = lo) /\
                    (exists k, (k < n)%nat /\ w k = hi)).
Proof.
  intros Himg Hhi Hlo Hgradient s w.
  destruct (colorize_invariant gradient hiA loA img0 n Himg Hhi Hlo Hgradient n (le_n n))
    as (_ & Hpix & lo & hi & Hmin & Hmax & Hbound & _ & Hpos).
  assert (Hs : s = fold_left (fun acc k => colorStep gradient hiA loA (4 * k) acc) (seq 0 n)
                     {| img := img0; wMin := 255%Q; wMax := 0%Q |}).
  { unfold s, colorize. rewrite Himg. apply for4_pixels. }
  rewrite <- Hs in Hpix, Hmin, Hmax.
  split; [| split; [| split]].
  - intros k Hk.
    destruct (lookup_lt_is_Some_2 hiA (4 * k + 3)) as [bh Hbh]; [lia |].
    destruct (lookup_lt_is_Some_2 loA (4 * k + 3)) as [bl Hbl]; [lia |].
    replace (U8.get hiA (4 * k + 3)) with (Js.of_Z (alphaAt hiA k))
      by (unfold U8.get, alphaAt; rewrite Hbh; reflexivity).
    replace (U8.get loA (4 * k + 3)) with (Js.of_Z (alphaAt loA k))
      by (unfold U8.get, alphaAt; rewrite Hbl; reflexivity).
    apply signedIntensity_bytes.
  - intros k c Hk Hc. rewrite Hpix by lia.
    replace (k <? n)%nat with true by (symmetry; apply Nat.ltb_lt; lia).
    replace (c <? 3)%nat with true by (symmetry; apply Nat.ltb_lt; lia).
    pose proof (W_range hiA loA k) as Hw. subst w. cbv beta.
    destruct (Z.eqb_spec (spec_signed (alphaAt hiA k) (alphaAt loA k)) 0) as [E |];
      [lia | reflexivity].
  - intros k Hk. rewrite Hpix by lia.
    replace (3 <? 3)%nat with false by reflexivity.
    rewrite andb_false_r. reflexivity.
  - exists lo, hi. auto.
Qed.

Lemma C5_colorize_per_pixel_witness :
  img (colorize (replicate 1024 x7f)
         [x00; x00; x00; xff; x00; x00; x00; x00]
         [x00; x00; x00; x0a; x00; x00; x00; x00]
         [x00; x00; x00; x10; x01; x02; x03; xf0]) !! 7%nat
  = Some xf0.
Proof.
  apply (proj1 (proj2 (proj2
           (C5_colorize_per_pixel (replicate 1024 x7f)
              [x00; x00; x00; xff; x00; x00; x00; x00]
              [x00; x00; x00; x0a; x00; x00; x00; x00]
              [x00; x00; x00; x10; x01; x02; x03; xf0]
              2 eq_refl eq_refl eq_refl eq_refl))) 1%nat).
  lia.
Defined.

(** ** The rescaling of the alpha channel *)

Lemma rescaled_zero_range (a w : Z) :
  rescaled (Js.of_Z a) (Js.of_Z w) (Js.of_Z w)
  = if w <? a then Js.PInf else if a <? w then Js.NInf else Js.NaN.
Proof.
  unfold rescaled. cbn [Js.of_Z Js.sub Js.mul Js.div].
  replace (Qeqb (inject_Z w - inject_Z w) 0) with true
    by (symmetry; apply Qeq_eq_bool; ring).
  unfold Js.signed_inf.
  assert (Ha : (inject_Z a - inject_Z w == inject_Z (a - w))%Q).
  { unfold Z.sub. rewrite inject_Z_plus, inject_Z_opp. ring. }
  destruct (w <? a) eqn:H1; [| destruct (a <? w) eqn:H2].
  - assert (0 < inject_Z (a - w))%Q by (change 0%Q with (inject_Z 0); rewrite <- Zlt_Qlt; lia).
    replace (Qeqb ((inject_Z a - inject_Z w) * 255) 0) with false.
    2:{ symmetry. apply not_true_iff_false. intros E. apply Qeq_bool_eq in E. lra. }
    replace (Qltb 0 ((inject_Z a - inject_Z w) * 255)) with true
      by (symmetry; apply Qltb_lt; lra).
    reflexivity.
  - assert (inject_Z (a - w) < 0)%Q by (change 0%Q with (inject_Z 0); rewrite <- Zlt_Qlt; lia).
    replace (Qeqb ((inject_Z a - inject_Z w) * 255) 0) with false.
    2:{ symmetry. apply not_true_iff_false. intros E. apply Qeq_bool_eq in E. lra. }
    replace (Qltb 0 ((inject_Z a - inject_Z w) * 255)) with false
      by (symmetry; apply Qltb_ge; lra).
    reflexivity.
  - assert (a = w) by lia. subst a.
    replace (Qeqb ((inject_Z w - inject_Z w) * 255) 0) with true
      by (symmetry; apply Qeq_eq_bool; ring).
    reflexivity.
Qed.

(** C1, what the code does: the rescaling loop has no guard.  When the
    tracked minimum equals the tracked maximum it still runs and divides by
    zero: the quotient of a pixel is +Infinity, -Infinity or NaN, and the
    byte stored is 255 for an alpha above that value and 0 otherwise.  On a
    frame whose two buffers agree at alpha 100 and whose drawn alpha is 161
    the pixel comes out opaque; on a frame where nothing was drawn the 0
    that is stored is the image of -Infinity. *)
Theorem C1_rescale_divides_by_zero :
  (forall a w : Z,
      rescaled (Js.of_Z a) (Js.of_Z w) (Js.of_Z w)
      = if w <? a then Js.PInf else if a <? w then Js.NInf else Js.NaN) /\
  (forall a w : Z,
      U8.of_Num (rescaled (Js.of_Z a) (Js.of_Z w) (Js.of_Z w))
      = if w <? a then xff else x00) /\
  (let gradient := replicate 1024 x00 in
   let A := [x00; x00; x00; x64] in
   let s := colorize gradient A A [x00; x00; x00; xa1] in
   wMin s = Js.of_Z 128 /\ wMax s = Js.of_Z 128 /\
   rescaled (Js.of_Z 161) (wMin s) (wMax s) = Js.PInf /\
   resolve gradient A A [x00; x00; x00; xa1] = [x00; x00; x00; xff]) /\
  (let gradient := replicate 1024 x00 in
   let A := [x00; x00; x00; x00] in
   let s := colorize gradient A A [x00; x00; x00; x00] in
   wMin s = Js.of_Z 128 /\ wMax s = Js.of_Z 128 /\
   rescaled (Js.of_Z 0) (wMin s) (wMax s) = Js.NInf /\
   resolve gradient A A [x00; x00; x00; x00] = [x00; x00; x00; x00]).
Proof.
  split; [exact rescaled_zero_range |].
  split.
  - intros a w. rewrite rescaled_zero_range.
    destruct (w <? a); [reflexivity |]. destruct (a <? w); reflexivity.
  - split; repeat split; vm_compute; reflexivity.
Qed.


(** ** The gradient table *)

Lemma addColorStops_anchored parsesAsColor (s : Q) (colors : list string) :
  forall (i : nat) (g : CanvasGradient),
    (forall j, (j < length colors)%nat ->
               (0 <= inject_Z (Z.of_nat (i + j)) * s <= 1)%Q) ->
    forallb parsesAsColor colors = true ->
    addColorStops parsesAsColor (Js.Fin s) i colors g
    = Normal {| g_x0 := g_x0 g; g_y0 := g_y0 g; g_x1 := g_x1 g; g_y1 := g_y1 g;
                colorStops := colorStops g
                              ++ imap (fun j c => (inject_Z (Z.of_nat (i + j)) * s, c)%Q) colors |}.
Proof.
  induction colors as [| c colors IH]; intros i g Hrange Hcolors.
  - cbn. rewrite app_nil_r. destruct g; reflexivity.
  - cbn [forallb] in Hcolors. apply andb_prop in Hcolors as [Hc Hcolors].
    cbn [addColorStops]. unfold addColorStop. cbn [Js.of_Z Js.mul].
    pose proof (Hrange 0%nat ltac:(cbn; lia)) as H0. rewrite Nat.add_0_r in H0.
    replace (Qltb (inject_Z (Z.of_nat i) * s) 0) with false
      by (symmetry; apply Qltb_ge; lra).
    replace (Qltb 1 (inject_Z (Z.of_nat i) * s)) with false
      by (symmetry; apply Qltb_ge; lra).
    cbn [orb]. rewrite Hc. cbn [bind].
    rewrite IH; [| | exact Hcolors].
    + cbn [g_x0 g_y0 g_x1 g_y1 colorStops imap]. rewrite <- app_assoc.
      cbn [app]. rewrite Nat.add_0_r. do 4 f_equal.
      apply imap_ext. intros j x _. cbn. do 3 f_equal. lia.
    + intros j Hj. replace (S i + j)%nat with (i + S j)%nat by lia.
      apply Hrange. cbn [length]. lia.
Qed.

Lemma gradientStep_regular (colors : list string) :
  (2 <= length colors)%nat ->
  gradientStep colors = Js.Fin (1 / (inject_Z (Z.of_nat (length colors)) - 1)).
Proof.
  intros Hn. unfold gradientStep. cbn [Js.of_Z Js.sub Js.div].
  replace (Qeqb (inject_Z (Z.of_nat (length colors)) - 1) 0) with false; [reflexivity |].
  symmetry. apply not_true_iff_false. intros E. apply Qeq_bool_eq in E.
  assert (H : (inject_Z 2 <= inject_Z (Z.of_nat (length colors)))%Q)
    by (rewrite <- Zle_Qle; lia).
  change (inject_Z 2) with 2%Q in H. lra.
Qed.

Lemma anchors_in_range (n j : nat) :
  (2 <= n)%nat -> (j < n)%nat ->
  (0 <= inject_Z (Z.of_nat j) * (1 / (inject_Z (Z.of_nat n) - 1)) <= 1)%Q.
Proof.
  intros Hn Hj.
  assert (H2 : (inject_Z 2 <= inject_Z (Z.of_nat n))%Q) by (rewrite <- Zle_Qle; lia).
  assert (H0 : (inject_Z 0 <= inject_Z (Z.of_nat j))%Q) by (rewrite <- Zle_Qle; lia).
  assert (H1 : (inject_Z (Z.of_nat j) <= inject_Z (Z.of_nat n - 1))%Q)
    by (rewrite <- Zle_Qle; lia).
  unfold Z.sub in H1. rewrite inject_Z_plus, inject_Z_opp in H1.
  change (inject_Z 2) with 2%Q in H2. change (inject_Z 0) with 0%Q in H0.
  change (inject_Z 1) with 1%Q in H1.
  set (d := (inject_Z (Z.of_nat n) - 1)%Q).
  assert (Hd : (0 < d)%Q) by (unfold d; lra).
  assert (Hs : (0 < 1 / d)%Q) by (unfold Qdiv; rewrite Qmult_1_l; apply Qinv_lt_0_compat, Hd).
  split.
  - apply Qmult_le_0_compat; [exact H0 | apply Qlt_le_weak, Hs].
  - apply Qle_trans with (d * (1 / d))%Q.
    + apply Qmult_le_compat_r; [unfold d; lra | apply Qlt_le_weak, Hs].
    + assert (E : (d * (1 / d) == 1)%Q) by (field; lra). rewrite E. apply Qle_refl.
Qed.

(** C7, as the code has it: a list of exactly one stop fails at build time,
    because the offset of its stop, 0 × (1/0), is NaN, which addColorStop
    rejects; the empty list does not fail: no stop is added, and the table
    returned is the 256-entry read-back of a canvas filled with a gradient
    without stops; for a list of at least 2 colours, the build succeeds and
    stop i of n is anchored at i/(n−1). *)
Theorem C7_gradient_stops sample parsesAsColor :
  (forall color,
      buildGradient parsesAsColor [color] = Throw TypeError /\
      createGradient sample parsesAsColor [color] = Throw TypeError) /\
  (buildGradient parsesAsColor [] = Normal (createLinearGradient 0 0 1 256) /\
   exists table,
     createGradient sample parsesAsColor [] = Normal table /\ length table = 1024%nat) /\
  (forall colors,
      (2 <= length colors)%nat ->
      forallb parsesAsColor colors = true ->
      exists g table,
        buildGradient parsesAsColor colors = Normal g /\
        createGradient sample parsesAsColor colors = Normal table /\
        length table = 1024%nat /\
        length (colorStops g) = length colors /\
        forall (i : nat) color,
          colors !! i = Some color ->
          exists q,
            colorStops g !! i = Some (q, color) /\
            (q == inject_Z (Z.of_nat i) / (inject_Z (Z.of_nat (length colors)) - 1))%Q).
Proof.
  split; [| split].
  - intros color. split; reflexivity.
  - split; [reflexivity |]. eexists. split; [reflexivity |].
    rewrite getImageData_length. reflexivity.
  - intros colors Hn Hcolors.
    assert (Hbuild : buildGradient parsesAsColor colors
                     = Normal {| g_x0 := 0; g_y0 := 0; g_x1 := 1; g_y1 := 256;
                                 colorStops :=
                                   imap (fun j c =>
                                           (inject_Z (Z.of_nat j)
                                            * (1 / (inject_Z (Z.of_nat (length colors)) - 1)),
                                            c)%Q) colors |}).
    { unfold buildGradient. rewrite gradientStep_regular by exact Hn.
      rewrite addColorStops_anchored; [reflexivity | | exact Hcolors].
      intros j Hj. apply anchors_in_range; assumption. }
    eexists. eexists. split; [exact Hbuild |].
    unfold createGradient. rewrite Hbuild. cbn [bind].
    split; [reflexivity |].
    split; [rewrite getImageData_length; reflexivity |].
    cbn [colorStops]. split; [apply length_imap |].
    intros i color Hi. eexists. rewrite list_lookup_imap, Hi. cbn.
    split; [reflexivity |]. unfold Qdiv. ring.
Qed.

Lemma C7_gradient_stops_witness :
  exists g,
    buildGradient anyColor ["#00f"; "#f00"]%string = Normal g /\
    length (colorStops g) = 2%nat.
Proof.
  destruct (proj2 (proj2 (C7_gradient_stops blankSample anyColor))
              ["#00f"; "#f00"]%string)
    as (g & table & Hg & _ & _ & Hlen & _).
  - cbn. lia.
  - reflexivity.
  - exists g. split; [exact Hg | exact Hlen].
Defined.

(** C7, counterexample: the empty list has fewer than 2 stops and the build
    returns a table of 256 entries. *)
Lemma C7_counterexample :
  (length ([] : list string) < 2)%nat /\
  createGradient blankSample anyColor [] = Normal (replicate 1024 x00).
Proof. split; [cbn; lia | vm_compute; reflexivity]. Qed.

(** ** The shadow option *)

Lemma findLayer_eraseShadow layers :
  findLayer (map eraseShadowLayer layers) = eraseShadow <$> findLayer layers.
Proof.
  induction layers as [| ls rest IH]; [reflexivity |].
  destruct ls as [[l |]]; simpl; [| exact IH].
  destruct (getVisible l); [reflexivity | exact IH].
Qed.

Lemma projectFeature_eraseShadow this event f :
  projectFeature (eraseShadow this) (frameState (eraseShadowEvent event)) f
  = projectFeature this (frameState event) f.
Proof. reflexivity. Qed.

Lemma fillGrid_eraseShadow this event cellSize features :
  forall xyz,
    fillGrid (eraseShadow this) (frameState (eraseShadowEvent event)) cellSize features xyz
    = fillGrid this (frameState event) cellSize features xyz.
Proof.
  induction features as [| f rest IH]; intros xyz; [reflexivity |].
  cbn [fillGrid]. rewrite projectFeature_eraseShadow.
  destruct (projectFeature _ _ f) as [p | e]; [| reflexivity].
  cbn [bind]. apply IH.
Qed.

Lemma withBaseResolution_eraseShadow this r :
  withBaseResolution (eraseShadow this) r = eraseShadow (withBaseResolution this r).
Proof. unfold withBaseResolution. simpl. destruct (baseResolution_ this); reflexivity. Qed.

Lemma handleRender_eraseShadow sample this event :
  let out := handleRender_ sample this event in
  handleRender_ sample (eraseShadow this) (eraseShadowEvent event)
  = {| this' := eraseShadow (this' out);
       context' := context' out;
       completion := completion out |}.
Proof.
  unfold handleRender_. cbv zeta.
  change (resolution (frameState (eraseShadowEvent event)))
    with (resolution (frameState event)).
  change (pixelRatio (frameState (eraseShadowEvent event)))
    with (pixelRatio (frameState event)).
  change (context (eraseShadowEvent event)) with (context event).
  change (layerStatesArray (frameState (eraseShadowEvent event)))
    with (map eraseShadowLayer (layerStatesArray (frameState event))).
  rewrite withBaseResolution_eraseShadow, findLayer_eraseShadow.
  set (this1 := withBaseResolution this _).
  change (zoomRatioOf (eraseShadow this1)) with (zoomRatioOf this1).
  change (stampRadius (eraseShadow this1) (frameState (eraseShadowEvent event)))
    with (stampRadius this1 (frameState event)).
  change (createCircle_ (eraseShadow this1)) with (createCircle_ this1).
  change (drawPointset sample (eraseShadow this1)) with (drawPointset sample this1).
  destruct (findLayer _) as [found |]; [| reflexivity].
  cbn [fmap option_fmap option_map].
  unfold coarsen. cbn [getSource eraseShadow set_shadow_].
  destruct (getSource found) as [source |]; [| reflexivity].
  destruct (getFeatures source) as [features |]; [| reflexivity].
  change (set_shadow_ 0 this1) with (eraseShadow this1).
  rewrite fillGrid_eraseShadow.
  destruct (fillGrid _ _ _ _ _); reflexivity.
Qed.

Lemma handleRender_same_but_shadow sample this1 this2 event1 event2 :
  eraseShadow this1 = eraseShadow this2 ->
  eraseShadowEvent event1 = eraseShadowEvent event2 ->
  context' (handleRender_ sample this1 event1) = context' (handleRender_ sample this2 event2) /\
  completion (handleRender_ sample this1 event1) = completion (handleRender_ sample this2 event2) /\
  eraseShadow (this' (handleRender_ sample this1 event1))
  = eraseShadow (this' (handleRender_ sample this2 event2)).
Proof.
  intros Hl He.
  pose proof (handleRender_eraseShadow sample this1 event1) as H1.
  pose proof (handleRender_eraseShadow sample this2 event2) as H2.
  cbv zeta in H1, H2. rewrite Hl, He, H2 in H1.
  pose proof (f_equal this' H1) as Ht.
  pose proof (f_equal context' H1) as Hc.
  pose proof (f_equal completion H1) as Hk.
  cbn [this' context' completion] in Ht, Hc, Hk. auto.
Qed.

Lemma renderFrames_same_but_shadow sample events1 :
  forall this1 this2 events2,
    eraseShadow this1 = eraseShadow this2 ->
    map eraseShadowEvent events1 = map eraseShadowEvent events2 ->
    renderFrames sample this1 events1 = renderFrames sample this2 events2.
Proof.
  induction events1 as [| e1 rest1 IH]; intros this1 this2 [| e2 rest2] Hl He;
    try discriminate; [reflexivity |].
  cbn [map] in He.
  assert (He1 : eraseShadowEvent e1 = eraseShadowEvent e2) by congruence.
  assert (Hrest : map eraseShadowEvent rest1 = map eraseShadowEvent rest2) by congruence.
  clear He. rename He1 into He.
  destruct (handleRender_same_but_shadow sample this1 this2 e1 e2 Hl He) as (Hc & Hk & Ht).
  cbn [renderFrames]. cbv zeta. rewrite Hc, Hk. f_equal. apply IH; assumption.
Qed.

Lemma newHilomap_with_shadow sample parsesAsColor options v :
  match newHilomap sample parsesAsColor options,
        newHilomap sample parsesAsColor (with_shadow v options) with
  | Normal l1, Normal l2 => l2 = set_shadow_ (default 250%Q v) l1
  | Throw e1, Throw e2 => e1 = e2
  | _, _ => False
  end.
Proof.
  unfold newHilomap, setGradient. cbn [o_gradient o_weight with_shadow].
  destruct (createGradient _ _ _) as [table | e]; reflexivity.
Qed.

(** C8: the shadow option is stored and never read.  Two layers built from
    options that differ only in [shadow] differ only in the stored shadow
    (or both constructions fail alike).  For two layers that differ only in
    the stored shadow, the stamps are equal at every scale, and every run of
    render events (whose frames may list the layers themselves, with their
    different shadows) leaves the same canvases: the same calls and the same
    pixel data written back. *)
Theorem C8_shadow_is_not_read sample parsesAsColor :
  (forall (options : Options) (v : option Q),
      match newHilomap sample parsesAsColor options,
            newHilomap sample parsesAsColor (with_shadow v options) with
      | Normal l1, Normal l2 => l2 = set_shadow_ (default 250%Q v) l1
      | Throw e1, Throw e2 => e1 = e2
      | _, _ => False
      end) /\
  (forall (this : Hilomap) (v scale : Q),
      createCircle_ (set_shadow_ v this) scale = createCircle_ this scale) /\
  (forall (this : Hilomap) (v : Q),
      circleImage_ (handleStyleChanged_ (set_shadow_ v this))
      = circleImage_ (handleStyleChanged_ this)) /\
  (forall (this : Hilomap) (v : Q) (events1 events2 : list RenderEvent),
      map eraseShadowEvent events1 = map eraseShadowEvent events2 ->
      renderFrames sample (set_shadow_ v this) events1
      = renderFrames sample this events2).
Proof.
  split; [intros options v; apply newHilomap_with_shadow |].
  split; [reflexivity |]. split; [reflexivity |].
  intros this v events1 events2 He.
  apply renderFrames_same_but_shadow; [reflexivity | exact He].
Qed.

Lemma C8_shadow_is_not_read_witness :
  renderFrames blankSample
    (set_shadow_ 3 (layerOf [pointFeature 20 20 (1 # 5)%Q]))
    [frameOf (set_shadow_ 3 (layerOf [pointFeature 20 20 (1 # 5)%Q]))]
  = renderFrames blankSample
      (layerOf [pointFeature 20 20 (1 # 5)%Q])
      [frameOf (layerOf [pointFeature 20 20 (1 # 5)%Q])].
Proof.
  apply (proj2 (proj2 (proj2 (C8_shadow_is_not_read blankSample anyColor)))).
  reflexivity.
Defined.

(** * Further properties of the handler and of the table *)

(** ** The grid as a sparse array *)

Lemma arr_wf_empty {A} : arr_wf (@arr_empty A).
Proof.
  split; [cbn; lia |]. intros k v H. unfold arr_get in H. cbn in H.
  rewrite lookup_empty in H. discriminate.
Qed.

Lemma arr_wf_set {A} (a : JsArray A) k v : arr_wf a -> arr_wf (arr_set a k v).
Proof.
  intros [Hlen Hkeys]. unfold arr_wf, arr_set, arr_get in *. cbn [elems arr_length].
  unfold is_array_index in *. split.
  - destruct ((0 <=? k) && (k <? 2 ^ 32 - 1) && (arr_length a <=? k)) eqn:E; lia.
  - intros k' v' H Hk'. rewrite lookup_insert in H.
    destruct (decide (k = k')) as [<- | Hne].
    + destruct ((0 <=? k) && (k <? 2 ^ 32 - 1) && (arr_length a <=? k)) eqn:E; lia.
    + specialize (Hkeys k' v' H Hk').
      destruct ((0 <=? k) && (k <? 2 ^ 32 - 1) && (arr_length a <=? k)) eqn:E; lia.
Qed.

Lemma grid_wf_empty cellSize : grid_wf cellSize arr_empty.
Proof.
  split; [apply arr_wf_empty | split].
  - intros cy row H. unfold arr_get in H. cbn in H. rewrite lookup_empty in H. discriminate.
  - intros c cell H. unfold grid_get, arr_get in H. cbn in H.
    rewrite lookup_empty in H. discriminate.
Qed.

Lemma grid_wf_addToGrid cellSize (xyz : Grid) (p : Point) :
  grid_wf cellSize xyz -> grid_wf cellSize (addToGrid cellSize xyz p).
Proof.
  intros (Hwf & Hrows & Hcells).
  assert (Hrow0 : arr_wf (default arr_empty (arr_get xyz (p_y p / cellSize)))).
  { destruct (arr_get xyz (p_y p / cellSize)) as [row |] eqn:E;
      [eapply Hrows, E | apply arr_wf_empty]. }
  split; [| split].
  - destruct p as [[px py] w]. unfold addToGrid.
    destruct (arr_get _ (px / cellSize)); [destruct (Js.gtb _ _) |]; apply arr_wf_set, Hwf.
  - intros cy row H. destruct p as [[px py] w]. unfold addToGrid in H.
    cbn [p_y fst snd] in Hrow0.
    assert (G : forall row',
               arr_wf row' ->
               arr_get (arr_set xyz (py / cellSize) row') cy = Some row -> arr_wf row).
    { intros row' Hrow' H'. rewrite arr_get_set in H'.
      destruct (decide (py / cellSize = cy)); [congruence | eapply Hrows, H']. }
    destruct (arr_get _ (px / cellSize)); [destruct (Js.gtb _ _) |];
      eapply G; try exact H; try apply arr_wf_set; exact Hrow0.
  - intros c cell H. rewrite grid_get_addToGrid in H.
    destruct (decide (cellOf cellSize p = c)) as [E | NE]; [| apply Hcells, H].
    unfold pick in H. destruct (grid_get xyz c) as [old |] eqn:Hold.
    + destruct (Js.gtb _ _); injection H as <-; [exact E | apply Hcells, Hold].
    + injection H as <-. exact E.
Qed.

Lemma grid_wf_fold cellSize (pts : list Point) :
  forall xyz, grid_wf cellSize xyz -> grid_wf cellSize (fold_left (addToGrid cellSize) pts xyz).
Proof.
  induction pts as [| p pts IH]; intros xyz H; [exact H |].
  cbn [fold_left]. apply IH, grid_wf_addToGrid, H.
Qed.

Lemma fillGrid_wf this fs cellSize features xyz :
  fillGrid this fs cellSize features arr_empty = Normal xyz -> grid_wf cellSize xyz.
Proof.
  intros H. apply fillGrid_placed in H. subst xyz. apply grid_wf_fold, grid_wf_empty.
Qed.

Lemma collectRow_cells (row : JsArray Point) (acc : list Point) :
  collectRow row acc = acc ++ ((fun jp => pushed jp.2) <$> rowCells row).
Proof.
  unfold collectRow, rowCells. generalize (seqZ 0 (arr_length row)) as js.
  intros js. revert acc. induction js as [| j js IH]; intros acc.
  - cbn. rewrite app_nil_r. reflexivity.
  - cbn [fold_left]. rewrite IH. cbn [mbind list_bind]. rewrite fmap_app.
    destruct (arr_get row j) as [p |]; cbn; [rewrite <- app_assoc |]; reflexivity.
Qed.

Lemma collectPoints_cells (xyz : Grid) :
  collectPoints xyz = (fun c => pushed c.2) <$> gridCells xyz.
Proof.
  unfold collectPoints, gridCells.
  assert (G : forall rows acc,
             fold_left (fun acc i => match arr_get xyz i with
                                     | Some row => collectRow row acc
                                     | None => acc
                                     end) rows acc
             = acc ++ ((fun c : Z * Z * Point => pushed c.2)
                         <$> (i ← rows;
                              match arr_get xyz i with
                              | Some row => (fun jp => (i, jp.1, jp.2)) <$> rowCells row
                              | None => []
                              end))).
  { induction rows as [| i rows IH]; intros acc.
    - cbn. rewrite app_nil_r. reflexivity.
    - cbn [fold_left]. rewrite IH. cbn [mbind list_bind]. rewrite fmap_app.
      destruct (arr_get xyz i) as [row |]; [| reflexivity].
      rewrite collectRow_cells, <- app_assoc, <- list_fmap_compose. reflexivity. }
  apply (G _ []).
Qed.

Lemma elem_of_rowCells (row : JsArray Point) (j : Z) (p : Point) :
  (j, p) ∈ rowCells row <-> 0 <= j < arr_length row /\ arr_get row j = Some p.
Proof.
  unfold rowCells. rewrite list_elem_of_bind. split.
  - intros (j' & Hin & Hj'). apply elem_of_seqZ in Hj'.
    destruct (arr_get row j') as [p' |] eqn:E; [| apply elem_of_nil in Hin; contradiction].
    apply list_elem_of_singleton in Hin. injection Hin as -> ->. split; [lia | exact E].
  - intros [Hj E]. exists j. rewrite E. split; [apply list_elem_of_singleton; reflexivity |].
    apply elem_of_seqZ. lia.
Qed.

Lemma elem_of_gridCells (xyz : Grid) (i j : Z) (p : Point) :
  (i, j, p) ∈ gridCells xyz
  <-> 0 <= i < arr_length xyz /\
      exists row, arr_get xyz i = Some row /\ 0 <= j < arr_length row /\
                  arr_get row j = Some p.
Proof.
  unfold gridCells. rewrite list_elem_of_bind. split.
  - intros (i' & Hin & Hi'). apply elem_of_seqZ in Hi'.
    destruct (arr_get xyz i') as [row |] eqn:E; [| apply elem_of_nil in Hin; contradiction].
    apply list_elem_of_fmap in Hin as ([j' p'] & Heq & Hin). cbn in Heq.
    injection Heq as -> -> ->. apply elem_of_rowCells in Hin as [Hj Hp].
    split; [lia |]. exists row. auto.
  - intros (Hi & row & Hrow & Hj & Hp). exists i. rewrite Hrow. split.
    + apply list_elem_of_fmap. exists (j, p). split; [reflexivity |].
      apply elem_of_rowCells. auto.
    + apply elem_of_seqZ. lia.
Qed.

Lemma NoDup_rowCells (row : JsArray Point) : NoDup (rowCells row).*1.
Proof.
  unfold rowCells. generalize (NoDup_seqZ 0 (arr_length row)).
  generalize (seqZ 0 (arr_length row)) as js.
  induction js as [| j js IH]; intros Hnd; [constructor |].
  apply NoDup_cons in Hnd as [Hj Hnd]. cbn [mbind list_bind]. rewrite fmap_app.
  apply NoDup_app. split; [| split; [| apply IH, Hnd]].
  - destruct (arr_get row j); cbn; [apply NoDup_singleton | constructor].
  - intros k Hk Hk'. apply Hj.
    destruct (arr_get row j); cbn in Hk; [| apply elem_of_nil in Hk; contradiction].
    apply list_elem_of_singleton in Hk. subst k.
    apply list_elem_of_fmap in Hk' as ([j' p'] & -> & Hin). cbn.
    apply list_elem_of_bind in Hin as (j'' & Hin & Hj'').
    destruct (arr_get row j''); [| apply elem_of_nil in Hin; contradiction].
    apply list_elem_of_singleton in Hin. injection Hin as -> _. exact Hj''.
Qed.

Lemma NoDup_gridCells (xyz : Grid) : NoDup ((fun c => c.1) <$> gridCells xyz).
Proof.
  unfold gridCells. generalize (NoDup_seqZ 0 (arr_length xyz)).
  generalize (seqZ 0 (arr_length xyz)) as rows.
  induction rows as [| i rows IH]; intros Hnd; [constructor |].
  apply NoDup_cons in Hnd as [Hi Hnd]. cbn [mbind list_bind]. rewrite fmap_app.
  apply NoDup_app. split; [| split; [| apply IH, Hnd]].
  - destruct (arr_get xyz i) as [row |]; [| constructor].
    rewrite <- list_fmap_compose.
    replace (((fun c : Z * Z * Point => c.1) ∘ (fun jp : Z * Point => (i, jp.1, jp.2)))
               <$> rowCells row)
      with ((fun j => (i, j)) <$> (rowCells row).*1)
      by (rewrite <- list_fmap_compose; reflexivity).
    apply NoDup_fmap_2; [intros a b E; congruence | apply NoDup_rowCells].
  - intros c Hc Hc'. apply Hi.
    destruct (arr_get xyz i) as [row |]; [| apply elem_of_nil in Hc; contradiction].
    apply list_elem_of_fmap in Hc as (x & -> & Hx).
    apply list_elem_of_fmap in Hx as ([j p] & -> & _). cbn in Hc'.
    apply list_elem_of_fmap in Hc' as ([[i' j'] p'] & Heq & Hin). cbn in Heq.
    injection Heq as <- <-.
    apply list_elem_of_bind in Hin as (i'' & Hin & Hi'').
    destruct (arr_get xyz i''); [| apply elem_of_nil in Hin; contradiction].
    apply list_elem_of_fmap in Hin as ([j'' p''] & Heq & _). cbn in Heq.
    injection Heq as -> _ _. exact Hi''.
Qed.

(** Filing one feature (lines 352-365) is an update of one cell of the
    grid: the cell of the feature holds the feature if it was empty or if
    the feature is strictly farther from 0.5 than the point it held, by the
    comparison of JavaScript on the two differences as doubles, and its
    former point otherwise; every other cell holds what it held. *)
Theorem addToGrid_updates_one_cell cellSize (xyz : Grid) (p : Point) (c : Z * Z) :
  grid_get (addToGrid cellSize xyz p) c
  = if decide (cellOf cellSize p = c)
    then match grid_get xyz c with
         | None => Some p
         | Some cell =>
             if Js.gtb (Js.abs (F64.sub (p_w p) (1 # 2)))
                       (Js.abs (F64.sub (p_w cell) (1 # 2)))
             then Some p else Some cell
         end
    else grid_get xyz c.
Proof. apply grid_get_addToGrid. Qed.

Lemma collectPoints_indexed this fs cellSize features (xyz : Grid) (p : Point) :
  fillGrid this fs cellSize features arr_empty = Normal xyz ->
  p ∈ collectPoints xyz
  <-> exists c cell,
        is_array_index c.1 = true /\ is_array_index c.2 = true /\
        grid_get xyz c = Some cell /\ p = pushed cell.
Proof.
  intros Hfill. apply fillGrid_wf in Hfill as ([Hlen Hkeys] & Hrows & _).
  rewrite collectPoints_cells, list_elem_of_fmap. unfold is_array_index. split.
  - intros ([[i j] cell] & -> & Hin). apply elem_of_gridCells in Hin
      as (Hi & row & Hrow & Hj & Hcell).
    destruct (Hrows i row Hrow) as [Hrlen _].
    exists (i, j), cell. cbn [fst snd]. unfold grid_get. cbn [fst snd]. rewrite Hrow.
    repeat split; try exact Hcell; lia.
  - intros ([i j] & cell & Hi & Hj & Hcell & ->). cbn [fst snd] in *.
    unfold grid_get in Hcell. cbn [fst snd] in Hcell.
    destruct (arr_get xyz i) as [row |] eqn:Hrow; [| discriminate].
    cbn in Hcell. exists (i, j, cell). split; [reflexivity |].
    apply elem_of_gridCells. split; [specialize (Hkeys i row Hrow Hi); lia |].
    exists row. destruct (Hrows i row Hrow) as [_ Hrkeys].
    specialize (Hrkeys j cell Hcell Hj). repeat split; try assumption; lia.
Qed.

(** The point set (lines 370-380) holds the clamped representative of a
    cell exactly when the row and the column of the cell are array indices:
    the loops run from 0 to the length of the arrays, and a negative row or
    column is a property of the array that they never reach. *)
Theorem pointset_is_the_indexed_cells this fs cellSize features (xyz : Grid) (p : Point) :
  fillGrid this fs cellSize features arr_empty = Normal xyz ->
  p ∈ collectPoints xyz
  <-> exists c cell,
        is_array_index c.1 = true /\ is_array_index c.2 = true /\
        grid_get xyz c = Some cell /\ p = pushed cell.
Proof. apply collectPoints_indexed. Qed.

Lemma pointset_is_the_indexed_cells_witness :
  ((20, 20, Js.Fin (1 # 5)) : Point)
  ∈ collectPoints (fold_left (addToGrid 6) [((20, 20, Js.Fin (1 # 5)) : Point)] arr_empty).
Proof.
  apply (pointset_is_the_indexed_cells (layerOf []) (frameState (frameOf (layerOf []))) 6
           [pointFeature 20 20 (1 # 5)%Q]).
  - vm_compute. reflexivity.
  - exists (3, 3), (20, 20, Js.Fin (1 # 5)). vm_compute. auto.
Defined.

Lemma cellOf_pushed cellSize (p : Point) : cellOf cellSize (pushed p) = cellOf cellSize p.
Proof. rewrite pushed_clamps. reflexivity. Qed.

Lemma collectPoints_from_placed this fs cellSize features (xyz : Grid) :
  fillGrid this fs cellSize features arr_empty = Normal xyz ->
  Forall (fun p =>
            (exists q, q ∈ placed this fs features /\ p = pushed q) /\
            0 <= p_x p / cellSize /\ 0 <= p_y p / cellSize /\
            (0 < cellSize -> 0 <= p_x p /\ 0 <= p_y p))
         (collectPoints xyz).
Proof.
  intros Hfill. apply Forall_forall. intros p Hp.
  pose proof (fillGrid_wf _ _ _ _ _ Hfill) as (_ & _ & Hcells).
  apply (collectPoints_indexed _ _ _ _ _ _ Hfill) in Hp
    as ([i j] & cell & Hi & Hj & Hcell & ->).
  cbn [fst snd] in Hi, Hj. unfold is_array_index in Hi, Hj.
  pose proof (Hcells _ _ Hcell) as Hc.
  rewrite <- (cellOf_pushed cellSize cell) in Hc. unfold cellOf in Hc.
  injection Hc as Hy Hx.
  split; [| split; [lia | split; [lia |]]].
  - exists cell. split; [| reflexivity].
    apply fillGrid_placed in Hfill. subst xyz. rewrite grid_get_fold in Hcell.
    apply fold_pick_elem in Hcell as [Hcell | Hcell]; [| discriminate].
    apply list_elem_of_filter in Hcell as [_ Hcell]. exact Hcell.
  - intros Hcs.
    assert (Hdiv : forall a, 0 <= a / cellSize -> 0 <= a).
    { intros a Ha. destruct (Z.lt_ge_cases a 0) as [Hneg |]; [| assumption].
      assert (a / cellSize < 0) by (apply Z.div_lt_upper_bound; lia). lia. }
    split; apply Hdiv; lia.
Qed.

(** Every point of the point set stands at the pixel of a feature that
    passed the extent test, in a cell of non-negative row and column; with
    a positive cell size its pixel coordinates are not negative.  A feature
    inside the extent whose pixel has a negative coordinate is never
    drawn. *)
Theorem pointset_has_no_negative_pixel this fs cellSize features (xyz : Grid) :
  fillGrid this fs cellSize features arr_empty = Normal xyz ->
  Forall (fun p =>
            (exists q, q ∈ placed this fs features /\ p = pushed q) /\
            0 <= p_x p / cellSize /\ 0 <= p_y p / cellSize /\
            (0 < cellSize -> 0 <= p_x p /\ 0 <= p_y p))
         (collectPoints xyz).
Proof. apply collectPoints_from_placed. Qed.

Lemma pointset_has_no_negative_pixel_witness :
  Forall (fun p => 0 <= p_x p /\ 0 <= p_y p)
         (collectPoints
            (fold_left (addToGrid 6)
               [((-20, 20, Js.Fin (1 # 5)) : Point); ((20, 20, Js.Fin (1 # 5)) : Point)]
               arr_empty)).
Proof.
  pose proof (pointset_has_no_negative_pixel
                {| getGradient := []; getBlur := 5; getRadius := 5; getVisible := true;
                   getSource := None; gradient_ := []; shadow_ := 250;
                   circleImage_ := None;
                   weight_ := fun feature => get feature "weight";
                   baseResolution_ := None |}
                {| resolution := 1; extent := (-100, -100, 100, 100)%Q; pixelRatio := 1;
                   coordinateToPixelTransform := identityTransform;
                   layerStatesArray := [] |}
                6
                [pointFeature (-20) 20 (1 # 5)%Q; pointFeature 20 20 (1 # 5)%Q]
                (fold_left (addToGrid 6)
                   [((-20, 20, Js.Fin (1 # 5)) : Point); ((20, 20, Js.Fin (1 # 5)) : Point)]
                   arr_empty)
                ltac:(vm_compute; reflexivity)) as G.
  eapply Forall_impl; [exact G |].
  intros p (_ & _ & _ & Hp). apply Hp. lia.
Defined.

(** The point set has one point for each cell: no two of its points fall in
    the same cell, and it has at most as many points as features passed the
    extent test. *)
Theorem pointset_one_point_per_cell this fs cellSize features (xyz : Grid) :
  fillGrid this fs cellSize features arr_empty = Normal xyz ->
  NoDup (cellOf cellSize <$> collectPoints xyz) /\
  (length (collectPoints xyz) <= length (placed this fs features))%nat.
Proof.
  intros Hfill.
  pose proof (fillGrid_wf _ _ _ _ _ Hfill) as (_ & Hrows & Hcells).
  assert (E : cellOf cellSize <$> collectPoints xyz = (fun c => c.1) <$> gridCells xyz).
  { rewrite collectPoints_cells, <- list_fmap_compose.
    apply list_fmap_ext. intros n [[i j] cell] Hn. cbn.
    rewrite cellOf_pushed. apply Hcells.
    apply list_elem_of_lookup_2, elem_of_gridCells in Hn as (_ & row & Hrow & _ & Hcell).
    unfold grid_get. cbn [fst snd]. rewrite Hrow. exact Hcell. }
  assert (Hnd : NoDup (cellOf cellSize <$> collectPoints xyz))
    by (rewrite E; apply NoDup_gridCells).
  split; [exact Hnd |].
  rewrite <- (length_fmap (cellOf cellSize) (collectPoints xyz)).
  rewrite <- (length_fmap (cellOf cellSize) (placed this fs features)).
  apply submseteq_length, NoDup_submseteq; [exact Hnd |].
  intros c Hc. apply list_elem_of_fmap in Hc as (p & -> & Hp).
  pose proof (collectPoints_from_placed _ _ _ _ _ Hfill) as G.
  rewrite Forall_forall in G. destruct (G p Hp) as ((q & Hq & ->) & _).
  rewrite cellOf_pushed. apply list_elem_of_fmap. exists q. auto.
Qed.

Lemma pointset_one_point_per_cell_witness :
  (length (collectPoints
             (fold_left (addToGrid 6%Z)
                [((20%Z, 20%Z, Js.Fin (1 # 5)) : Point);
                 ((21%Z, 21%Z, Js.Fin (19 # 20)) : Point)]
                arr_empty)) <= 2)%nat.
Proof.
  apply (pointset_one_point_per_cell (layerOf []) (frameState (frameOf (layerOf []))) 6
           [pointFeature 20 20 (1 # 5)%Q; pointFeature 21 21 (19 # 20)%Q]).
  vm_compute. reflexivity.
Defined.

(** ** The extent test *)

Lemma projectFeature_outside this fs f :
  outsideExtent fs f = true -> projectFeature this fs f = Normal None.
Proof.
  unfold outsideExtent, projectFeature.
  destruct (getGeometry f) as [coord |]; [| discriminate].
  destruct (extent fs) as [[[bb0 bb1] bb2] bb3]. intros ->. reflexivity.
Qed.

(** A feature outside the extent of the frame changes nothing: the grid
    filled from a list of features is the grid filled from those of them
    that do not fail the extent test (a feature without geometry makes both
    throw).  The bounds are inclusive: a feature on the border of the
    extent is kept. *)
Theorem features_outside_extent_are_skipped this fs cellSize (features : list Feature) :
  (forall xyz,
      fillGrid this fs cellSize features xyz
      = fillGrid this fs cellSize (filter (fun f => outsideExtent fs f = false) features) xyz) /\
  (forall f x y bb0 bb1 bb2 bb3,
      getGeometry f = Some (x, y) -> extent fs = (bb0, bb1, bb2, bb3) ->
      (outsideExtent fs f = false <-> (bb0 <= x <= bb2 /\ bb1 <= y <= bb3)%Q)).
Proof.
  split.
  - induction features as [| f rest IH]; intros xyz; [reflexivity |].
    rewrite filter_cons. destruct (decide (outsideExtent fs f = false)) as [E | E].
    + cbn [fillGrid]. destruct (projectFeature this fs f) as [p | e]; [| reflexivity].
      cbn [bind]. apply IH.
    + apply not_false_is_true in E. cbn [fillGrid].
      rewrite (projectFeature_outside _ _ _ E). cbn [bind]. apply IH.
  - intros f x y bb0 bb1 bb2 bb3 Hg He. unfold outsideExtent. rewrite Hg, He. cbn [fst snd].
    rewrite !orb_false_iff, !Qltb_ge. tauto.
Qed.

Lemma features_outside_extent_are_skipped_witness :
  outsideExtent (frameState (frameOf (layerOf []))) (pointFeature 100 0 (1 # 2)%Q) = false.
Proof.
  apply (proj2 (features_outside_extent_are_skipped (layerOf [])
                  (frameState (frameOf (layerOf []))) 6 [])
           (pointFeature 100 0 (1 # 2)%Q) 100%Q 0%Q 0%Q 0%Q 100%Q 100%Q eq_refl eq_refl).
  split; split; discriminate.
Defined.

Lemma fillGrid_all_outside this fs cellSize (features : list Feature) :
  forallb (outsideExtent fs) features = true ->
  forall xyz, fillGrid this fs cellSize features xyz = Normal xyz.
Proof.
  induction features as [| f rest IH]; intros H xyz; [reflexivity |].
  cbn [forallb] in H. apply andb_prop in H as [Hf Hrest].
  cbn [fillGrid]. rewrite (projectFeature_outside _ _ _ Hf). cbn [bind]. apply IH, Hrest.
Qed.

(** A frame in which no feature of the layer found lies inside the extent
    (in particular a layer without features) is handled without a call on
    the canvas: the handler completes and hands the context back as it
    was. *)
Theorem frame_without_feature_in_extent sample (this : Hilomap) (event : RenderEvent)
    (found : Hilomap) (features : list Feature) :
  findLayer (layerStatesArray (frameState event)) = Some found ->
  getSource found = Some {| getFeatures := Some features |} ->
  forallb (outsideExtent (frameState event)) features = true ->
  context' (handleRender_ sample this event) = context event /\
  completion (handleRender_ sample this event) = Normal tt.
Proof.
  intros Hfound Hsource Hout. unfold handleRender_. rewrite Hfound.
  unfold coarsen. rewrite Hsource. cbn [getFeatures].
  rewrite fillGrid_all_outside by exact Hout. cbn [bind].
  change (collectPoints arr_empty) with (@nil Point). split; reflexivity.
Qed.

Lemma frame_without_feature_in_extent_witness :
  context' (handleRender_ blankSample (layerOf [])
              (frameOf (layerOf [pointFeature 200 200 (1 # 2)%Q; pointFeature (-1) 5 0%Q])))
  = mkCanvas 4 4 [].
Proof.
  apply (frame_without_feature_in_extent blankSample (layerOf [])
           (frameOf (layerOf [pointFeature 200 200 (1 # 2)%Q; pointFeature (-1) 5 0%Q]))
           (layerOf [pointFeature 200 200 (1 # 2)%Q; pointFeature (-1) 5 0%Q])
           [pointFeature 200 200 (1 # 2)%Q; pointFeature (-1) 5 0%Q]);
    reflexivity.
Defined.

(** ** The layer across frames *)

Lemma handler_sets_baseline sample (this : Hilomap) (event : RenderEvent) :
  this' (handleRender_ sample this event)
  = withBaseResolution this (resolution (frameState event)).
Proof.
  unfold handleRender_. destruct (findLayer _) as [found |]; [| reflexivity].
  destruct (coarsen _ _ _ _); reflexivity.
Qed.

(** The only field of the layer that the handler writes is the base
    resolution, and it writes it once: after any run of frames on a layer
    that had none, the base resolution is the resolution of the first frame
    and every other field is as before; on a layer that has one, a run of
    frames changes nothing. *)
Theorem baseline_is_the_first_resolution sample (this : Hilomap)
    (event : RenderEvent) (rest : list RenderEvent) :
  (baseResolution_ this = None ->
   renderAll sample this (event :: rest)
   = set_baseResolution_ (Some (resolution (frameState event))) this) /\
  (forall b, baseResolution_ this = Some b ->
             renderAll sample this (event :: rest) = this).
Proof.
  assert (Hkeep : forall events l b,
             baseResolution_ l = Some b -> renderAll sample l events = l).
  { induction events as [| e events IH]; intros l b Hb; [reflexivity |].
    cbn [renderAll]. rewrite handler_sets_baseline. unfold withBaseResolution.
    rewrite Hb. eapply IH, Hb. }
  split.
  - intros Hnone. cbn [renderAll]. rewrite handler_sets_baseline.
    unfold withBaseResolution. rewrite Hnone.
    apply (Hkeep rest _ (resolution (frameState event))). reflexivity.
  - intros b Hb. eapply Hkeep, Hb.
Qed.

Lemma baseline_is_the_first_resolution_witness :
  baseResolution_
    (renderAll blankSample (layerOf [])
       [frameOf (layerOf []); frameOf (layerOf [pointFeature 1 1 0%Q])])
  = Some 1%Q.
Proof.
  rewrite (proj1 (baseline_is_the_first_resolution blankSample (layerOf [])
                    (frameOf (layerOf [])) [frameOf (layerOf [pointFeature 1 1 0%Q])])
             eq_refl).
  reflexivity.
Defined.

(** ** Zoom, cell size and the stamp *)

(** ** The test of line 301 *)







(** The cell size (lines 316-318) is never 0, so that the division of line
    352 is never a division by zero; for a stamp radius that is not
    negative it is at least 1, and from radius 1 on it is the radius
    halved, rounded to the nearest integer. *)
Theorem cell_size_is_never_zero (radius : Q) :
  cellSizeOf radius <> 0 /\
  ((0 <= radius)%Q -> 1 <= cellSizeOf radius) /\
  ((1 <= radius)%Q ->
   (inject_Z (cellSizeOf radius) - (1 # 2) <= radius / 2
    < inject_Z (cellSizeOf radius) + (1 # 2))%Q).
Proof.
  unfold cellSizeOf, Math_round.
  assert (Hhalf : (radius / 2 == radius * (1 # 2))%Q) by field.
  pose proof (Qfloor_le (radius / 2 + (1 # 2))) as Hle.
  pose proof (Qlt_floor (radius / 2 + (1 # 2))) as Hlt.
  rewrite inject_Z_plus in Hlt. change (inject_Z 1) with 1%Q in Hlt.
  set (n := Qfloor (radius / 2 + (1 # 2))) in *.
  rewrite Hhalf in Hle, Hlt.
  split; [| split].
  - destruct (Z.eqb_spec n 0); lia.
  - intros Hr. assert (Hn : (0 < n + 1)%Z).
    { rewrite Zlt_Qlt, inject_Z_plus. change (inject_Z 0) with 0%Q.
      change (inject_Z 1) with 1%Q. lra. }
    destruct (Z.eqb_spec n 0); lia.
  - intros Hr. assert (Hn : (1 < n + 1)%Z).
    { rewrite Zlt_Qlt, inject_Z_plus. change (inject_Z 1) with 1%Q. lra. }
    destruct (Z.eqb_spec n 0); [lia |]. rewrite Hhalf. lra.
Qed.

Lemma cell_size_is_never_zero_witness : 1 <= cellSizeOf 11.
Proof.
  apply (proj1 (proj2 (cell_size_is_never_zero 11))). discriminate.
Defined.

Lemma stamp_discs (this : Hilomap) (scale : Q) :
  let h := (getRadius this * scale + getBlur this * scale + 1)%Q in
  shadowDiscs (createCircle_ this scale)
  = [((-1 * h + 2 * h)%Q, (-1 * h + 2 * h)%Q, (getRadius this * scale)%Q)] /\
  arcsOf (createCircle_ this scale)
  = [((-1 * h)%Q, (-1 * h)%Q, (getRadius this * scale)%Q)].
Proof. split; reflexivity. Qed.



(** Where the handler puts the stamp: the offset it subtracts from the
    pixel of a point (line 316) is (radius + blur + 1) × scale, while the
    disc of the stamp is centred at radius × scale + blur × scale + 1.  The
    centre of the disc therefore lands 1 − scale pixels off the pixel of
    the point, in x and in y: on the point exactly when the scale, pixel
    ratio times zoom ratio, is 1. *)
Theorem stamp_lands_off_centre (this : Hilomap) (fs : FrameState) (zoomRatio : Q)
    (alpha : Js.Num) (p : Point) (c : Canvas) :
  let scale := (pixelRatio fs * zoomRatio)%Q in
  let circle := createCircle_ this scale in
  exists dx dy x y r,
    stamp circle (stampRadius this fs zoomRatio) alpha p c
    = call (DrawImage circle dx dy) (call (SetGlobalAlpha alpha) c) /\
    shadowDiscs circle = [(x, y, r)] /\
    (dx + x == inject_Z (p_x p) + (1 - scale))%Q /\
    (dy + y == inject_Z (p_y p) + (1 - scale))%Q /\
    ((dx + x == inject_Z (p_x p))%Q <-> (scale == 1)%Q).
Proof.
  intros scale circle.
  destruct (stamp_discs this scale) as [Hd _]. cbv zeta in Hd. fold circle in Hd.
  do 5 eexists. split; [reflexivity |]. split; [exact Hd |].
  unfold stampRadius. fold scale.
  assert (E : ((getRadius this + getBlur this + 1) * pixelRatio fs * zoomRatio
               == (getRadius this + getBlur this + 1) * scale)%Q)
    by (unfold scale; ring).
  rewrite E.
  set (px := inject_Z (p_x p)). set (py := inject_Z (p_y p)).
  set (R := getRadius this). set (B := getBlur this).
  assert (E1 : (px - (R + B + 1) * scale
                + (-1 * (R * scale + B * scale + 1) + 2 * (R * scale + B * scale + 1))
                == px + (1 - scale))%Q) by ring.
  assert (E2 : (py - (R + B + 1) * scale
                + (-1 * (R * scale + B * scale + 1) + 2 * (R * scale + B * scale + 1))
                == py + (1 - scale))%Q) by ring.
  split; [exact E1 | split; [exact E2 |]].
  rewrite E1. split; intros H; lra.
Qed.

(** ** Opacities and weights that are no numbers *)

Lemma coarsen_weights_unit this fs cellSize found pointset :
  coarsen this fs cellSize found = Normal pointset ->
  (forall source features,
      getSource found = Some source -> getFeatures source = Some features ->
      Forall (fun f => Js.is_real (weight_ this f)) features) ->
  Forall (fun p => exists q, p_w p = Js.Fin q /\ (0 <= q <= 1)%Q) pointset.
Proof.
  intros H Hreal. unfold coarsen in H.
  destruct (getSource found) as [source |]; [| discriminate].
  destruct (getFeatures source) as [features |] eqn:Hfeatures;
    [| injection H as <-; constructor].
  specialize (Hreal source features eq_refl Hfeatures).
  destruct (fillGrid this fs cellSize features arr_empty) as [xyz | e] eqn:Hfill;
    [| discriminate].
  cbn [bind] in H. injection H as <-.
  apply Forall_forall. intros p Hp.
  pose proof (collectPoints_from_placed _ _ _ _ _ Hfill) as G.
  rewrite Forall_forall in G.
  destruct (G p Hp) as ((q & Hq & ->) & _).
  apply placed_elem in Hq as (f & Hf & Hw).
  rewrite Forall_forall in Hreal. specialize (Hreal f Hf).
  unfold pushed, p_w at 1. cbn [snd]. rewrite Hw.
  destruct (weight_ this f) as [w | | |]; try contradiction.
  apply clamp_unit_real.
Qed.

Lemma alphas_unit (q : Q) :
  (0 <= q <= 1)%Q ->
  exists a,
    finalAlpha (Js.Fin q) = Js.Fin a /\ (0 <= a <= 1)%Q /\
    (Js.leb (Js.Fin q) (1 # 2) = true -> lowAlpha (Js.Fin q) = Js.Fin a) /\
    (Js.leb (Js.Fin q) (1 # 2) = false -> highAlpha (Js.Fin q) = Js.Fin a /\ (0 < a)%Q).
Proof.
  intros Hq. unfold finalAlpha, lowAlpha, highAlpha. cbn [Js.leb Js.sub Js.mul].
  destruct (Qle_bool q (1 # 2)) eqn:E.
  - apply Qle_bool_iff in E. eexists. split; [reflexivity |].
    split; [lra | split; [reflexivity | discriminate]].
  - assert (Hgt : (1 # 2 < q)%Q).
    { apply Qnot_le_lt. intros Hle. apply Qle_bool_iff in Hle. congruence. }
    eexists. split; [reflexivity |].
    split; [lra | split; [discriminate |]]. intros _. split; [reflexivity | lra].
Qed.

(** Every opacity the handler sets is a valid one when the weights are real
    numbers: for each point of the point set the opacity of its round and
    of the final round is the same number of [0, 1], and it is positive for
    a point of the high round.  A point of weight exactly 0.5 is stamped at
    opacity 0. *)
Theorem opacities_are_within_unit this fs cellSize found pointset :
  coarsen this fs cellSize found = Normal pointset ->
  (forall source features,
      getSource found = Some source -> getFeatures source = Some features ->
      Forall (fun f => Js.is_real (weight_ this f)) features) ->
  Forall (fun p =>
            exists a,
              finalAlpha (p_w p) = Js.Fin a /\ (0 <= a <= 1)%Q /\
              (isLow p = true -> lowAlpha (p_w p) = Js.Fin a) /\
              (isLow p = false -> highAlpha (p_w p) = Js.Fin a /\ (0 < a)%Q))
         pointset /\
  lowAlpha (Js.Fin (1 # 2)) = Js.Fin (((1 # 2) - (1 # 2)) * 2) /\
  isLow (0, 0, Js.Fin (1 # 2)) = true.
Proof.
  intros H Hreal. split; [| split; reflexivity].
  eapply Forall_impl; [exact (coarsen_weights_unit _ _ _ _ _ H Hreal) |].
  intros p (q & Hw & Hq). unfold isLow. rewrite Hw. apply alphas_unit, Hq.
Qed.

Lemma opacities_are_within_unit_witness :
  exists a, finalAlpha (Js.Fin 1) = Js.Fin a /\ (0 <= a <= 1)%Q.
Proof.
  pose proof (proj1 (opacities_are_within_unit
                (layerOf [pointFeature 20 20 0%Q; pointFeature 21 21 5%Q])
                (frameState (frameOf (layerOf [])))
                6
                (layerOf [pointFeature 20 20 0%Q; pointFeature 21 21 5%Q])
                [(21, 21, Js.Fin 1)]
                ltac:(vm_compute; reflexivity)
                ltac:(intros source features Hs Hf; injection Hs as <-;
                      injection Hf as <-; repeat constructor))) as G.
  apply Forall_inv in G. destruct G as (a & Ha & Hr & _). exists a. auto.
Defined.

(** A weight that is no number (the attribute is missing, or the accessor
    returned NaN) never wins and never loses a comparison.  If the first
    feature of a cell has such a weight, the cell keeps it whatever follows;
    a later feature with such a weight is ignored.  The point is pushed with
    weight NaN, falls to the high round and has NaN set as its opacity. *)
Theorem weight_that_is_no_number this fs cellSize features (xyz : Grid)
    (cell : Z * Z) (first : Point) (rest : list Point) :
  fillGrid this fs cellSize features arr_empty = Normal xyz ->
  filter (fun p => cellOf cellSize p = cell) (placed this fs features) = first :: rest ->
  (p_w first = Js.NaN ->
   grid_get xyz cell = Some first /\
   pushed first = (p_x first, p_y first, Js.NaN) /\
   isLow (pushed first) = false /\
   highAlpha (p_w (pushed first)) = Js.NaN /\
   finalAlpha (p_w (pushed first)) = Js.NaN) /\
  (Forall (fun p => p_w p = Js.NaN) rest -> grid_get xyz cell = Some first) /\
  (forall f, properties f !! "weight"%string = None -> get f "weight" = Js.NaN).
Proof.
  intros Hfill Hsub. apply fillGrid_placed in Hfill. subst xyz.
  rewrite grid_get_fold, Hsub. cbn [fold_left pick].
  change (grid_get arr_empty cell) with (@None Point). cbn [pick].
  split; [| split].
  - intros Hnan. split; [apply fold_pick_not_a_number, Hnan |].
    rewrite pushed_clamps, Hnan. repeat split.
  - clear Hsub. induction rest as [| r rest IH]; intros Hrest; [reflexivity |].
    apply Forall_cons in Hrest as [Hr Hrest]. cbn [fold_left].
    rewrite pick_not_a_number by (right; exact Hr). apply IH, Hrest.
  - intros f Hf. unfold get. rewrite Hf. reflexivity.
Qed.

Lemma weight_that_is_no_number_witness :
  grid_get (fold_left (addToGrid 6)
              (placed (layerOf []) (frameState (frameOf (layerOf [])))
                 [pointFeature 20 20 Js.NaN; pointFeature 21 21 (19 # 20)%Q])
              arr_empty) (3, 3)
  = Some (20, 20, Js.NaN).
Proof.
  destruct (weight_that_is_no_number (layerOf []) (frameState (frameOf (layerOf []))) 6
              [pointFeature 20 20 Js.NaN; pointFeature 21 21 (19 # 20)%Q]
              (fold_left (addToGrid 6)
                 (placed (layerOf []) (frameState (frameOf (layerOf [])))
                    [pointFeature 20 20 Js.NaN; pointFeature 21 21 (19 # 20)%Q])
                 arr_empty)
              (3, 3) (20, 20, Js.NaN) [(21, 21, Js.Fin (19 # 20))])
    as [H _].
  - vm_compute. reflexivity.
  - vm_compute. reflexivity.
  - destruct (H eq_refl) as [G _]. exact G.
Defined.

(** ** The layer that is drawn *)

(** The search of lines 320-331 returns the first entry of the frame that
    is a visible Hilomap layer: the entries before it are other layers or
    hidden ones, and without such an entry there is no layer found. *)
Theorem findLayer_is_first_visible (layers : list LayerState) :
  match findLayer layers with
  | Some found =>
      exists before after,
        layers = before ++ {| layer := HilomapLayer found |} :: after /\
        getVisible found = true /\
        forallb (fun ls => negb (isVisibleHilomap ls)) before = true
  | None => forallb (fun ls => negb (isVisibleHilomap ls)) layers = true
  end.
Proof.
  induction layers as [| [[l |]] rest IH]; [reflexivity | |]; cbn [findLayer layer].
  - destruct (getVisible l) eqn:Hv.
    + exists [], rest. auto.
    + destruct (findLayer rest) as [found |].
      * destruct IH as (before & after & -> & Hf & Hb).
        exists ({| layer := HilomapLayer l |} :: before), after.
        split; [reflexivity | split; [exact Hf |]].
        cbn [forallb]. unfold isVisibleHilomap at 1. cbn [layer]. rewrite Hv. exact Hb.
      * cbn [forallb]. unfold isVisibleHilomap at 1. cbn [layer]. rewrite Hv. exact IH.
  - destruct (findLayer rest) as [found |].
    + destruct IH as (before & after & -> & Hf & Hb).
      exists ({| layer := OtherLayer |} :: before), after. auto.
    + exact IH.
Qed.

(** What a frame draws is taken from the first visible Hilomap layer of the
    frame, not from the layer the handler belongs to.  The source and the
    visibility of the handler's own layer are never read, and of the list of
    layers nothing is read but the source of the layer found: two lists
    whose first visible Hilomap layers have the same source give the same
    canvas and the same completion. *)
Theorem handler_draws_the_layer_found sample (this : Hilomap) (event : RenderEvent) :
  (forall source visible,
      context' (handleRender_ sample (withSource source visible this) event)
      = context' (handleRender_ sample this event) /\
      completion (handleRender_ sample (withSource source visible this) event)
      = completion (handleRender_ sample this event)) /\
  (forall layers1 layers2,
      getSource <$> findLayer layers1 = getSource <$> findLayer layers2 ->
      handleRender_ sample this (withLayers layers1 event)
      = handleRender_ sample this (withLayers layers2 event)).
Proof.
  split.
  - intros source visible. unfold handleRender_.
    assert (Hb : forall r, withBaseResolution (withSource source visible this) r
                           = withSource source visible (withBaseResolution this r)).
    { intros r. unfold withBaseResolution. cbn [baseResolution_ withSource].
      destruct (baseResolution_ this); reflexivity. }
    rewrite Hb. set (this1 := withBaseResolution this _).
    destruct (findLayer _) as [found |]; [| split; reflexivity].
    assert (Hc : forall fs cs l,
               coarsen (withSource source visible this1) fs cs l = coarsen this1 fs cs l).
    { intros fs cs l. unfold coarsen.
      destruct (getSource l) as [src |]; [| reflexivity].
      destruct (getFeatures src) as [features |]; [| reflexivity].
      assert (Hfill : forall xyz,
                 fillGrid (withSource source visible this1) fs cs features xyz
                 = fillGrid this1 fs cs features xyz).
      { induction features as [| f rest IH]; intros xyz; [reflexivity |].
        cbn [fillGrid].
        change (projectFeature (withSource source visible this1) fs f)
          with (projectFeature this1 fs f).
        destruct (projectFeature this1 fs f) as [p | e]; [| reflexivity].
        cbn [bind]. apply IH. }
      rewrite Hfill. reflexivity. }
    rewrite Hc.
    change (zoomRatioOf (withSource source visible this1)) with (zoomRatioOf this1).
    change (stampRadius (withSource source visible this1)) with (stampRadius this1).
    destruct (coarsen _ _ _ _); split; reflexivity.
  - intros layers1 layers2 H.
    assert (Hfill : forall t cs features xyz,
               fillGrid t (frameState (withLayers layers1 event)) cs features xyz
               = fillGrid t (frameState (withLayers layers2 event)) cs features xyz).
    { intros t cs features. induction features as [| f rest IH]; intros xyz; [reflexivity |].
      cbn [fillGrid].
      change (projectFeature t (frameState (withLayers layers1 event)) f)
        with (projectFeature t (frameState (withLayers layers2 event)) f).
      destruct (projectFeature _ _ f) as [p | e]; [| reflexivity]. cbn [bind]. apply IH. }
    unfold handleRender_. cbv zeta.
    change (layerStatesArray (frameState (withLayers layers1 event))) with layers1.
    change (layerStatesArray (frameState (withLayers layers2 event))) with layers2.
    change (resolution (frameState (withLayers layers1 event)))
      with (resolution (frameState event)).
    change (resolution (frameState (withLayers layers2 event)))
      with (resolution (frameState event)).
    change (pixelRatio (frameState (withLayers layers1 event)))
      with (pixelRatio (frameState event)).
    change (pixelRatio (frameState (withLayers layers2 event)))
      with (pixelRatio (frameState event)).
    change (context (withLayers layers1 event)) with (context event).
    change (context (withLayers layers2 event)) with (context event).
    set (this1 := withBaseResolution this _).
    change (stampRadius this1 (frameState (withLayers layers1 event)))
      with (stampRadius this1 (frameState event)).
    change (stampRadius this1 (frameState (withLayers layers2 event)))
      with (stampRadius this1 (frameState event)).
    destruct (findLayer layers1) as [l1 |], (findLayer layers2) as [l2 |];
      try discriminate; [| reflexivity].
    injection H as H. unfold coarsen. rewrite H.
    destruct (getSource l2) as [source |]; [| reflexivity].
    destruct (getFeatures source) as [features |]; [| reflexivity].
    rewrite Hfill. reflexivity.
Qed.

Lemma handler_draws_the_layer_found_witness :
  handleRender_ blankSample (layerOf [])
    (withLayers [ {| layer := HilomapLayer (layerOf [pointFeature 20 20 0%Q]) |} ]
                (frameOf (layerOf [])))
  = handleRender_ blankSample (layerOf [])
      (withLayers [ {| layer := OtherLayer |};
                    {| layer := HilomapLayer
                                  (set_shadow_ 1 (layerOf [pointFeature 20 20 0%Q])) |} ]
                  (frameOf (layerOf []))).
Proof.
  apply (proj2 (handler_draws_the_layer_found blankSample (layerOf []) (frameOf (layerOf [])))).
  reflexivity.
Defined.

(** ** Building the table and the layer *)

Lemma addColorStops_unparsed parsesAsColor (s : Q) (colors : list string) :
  forall (i : nat) (g : CanvasGradient),
    (forall j, (j < length colors)%nat ->
               (0 <= inject_Z (Z.of_nat (i + j)) * s <= 1)%Q) ->
    forallb parsesAsColor colors = false ->
    addColorStops parsesAsColor (Js.Fin s) i colors g = Throw SyntaxError.
Proof.
  induction colors as [| c colors IH]; intros i g Hrange Hcolors; [discriminate |].
  cbn [forallb] in Hcolors. cbn [addColorStops]. unfold addColorStop. cbn [Js.of_Z Js.mul].
  pose proof (Hrange 0%nat ltac:(cbn; lia)) as H0. rewrite Nat.add_0_r in H0.
  replace (Qltb (inject_Z (Z.of_nat i) * s) 0) with false
    by (symmetry; apply Qltb_ge; lra).
  replace (Qltb 1 (inject_Z (Z.of_nat i) * s)) with false
    by (symmetry; apply Qltb_ge; lra).
  cbn [orb]. destruct (parsesAsColor c); [| reflexivity].
  cbn [bind]. apply IH; [| exact Hcolors].
  intros j Hj. replace (S i + j)%nat with (i + S j)%nat by lia.
  apply Hrange. cbn [length]. lia.
Qed.

Lemma createGradient_table_length sample parsesAsColor colors table :
  createGradient sample parsesAsColor colors = Normal table -> length table = 1024%nat.
Proof.
  unfold createGradient. destruct (buildGradient parsesAsColor colors) as [g | e];
    [| discriminate].
  cbn [bind]. cbv zeta. intros H.
  assert (E : table = data (getImageData sample
                              (call (FillRect 0 0 1 256)
                                 (call (SetFillStyle g) (createCanvasContext2D 1 256)))))
    by congruence.
  rewrite E, getImageData_length. reflexivity.
Qed.

(** How the build of the table ends (lines 553-568), for every list of
    colours: with one colour, a TypeError (the offset of the stop is NaN),
    whatever the colour; otherwise a SyntaxError if the host rejects one of
    the strings as a colour, and a table of 1024 bytes if it accepts them
    all, the empty list included. *)
Theorem createGradient_outcome sample parsesAsColor (colors : list string) :
  (length colors = 1%nat ->
   createGradient sample parsesAsColor colors = Throw TypeError) /\
  (length colors <> 1%nat -> forallb parsesAsColor colors = false ->
   createGradient sample parsesAsColor colors = Throw SyntaxError) /\
  (length colors <> 1%nat -> forallb parsesAsColor colors = true ->
   exists table,
     createGradient sample parsesAsColor colors = Normal table /\
     length table = 1024%nat).
Proof.
  split; [| split].
  - destruct colors as [| c [| c' rest]]; try discriminate. reflexivity.
  - intros Hn Hcolors. destruct colors as [| c [| c' rest]];
      [discriminate | contradiction |].
    unfold createGradient, buildGradient.
    rewrite gradientStep_regular by (cbn [length]; lia).
    rewrite addColorStops_unparsed; [reflexivity | | exact Hcolors].
    intros j Hj. apply anchors_in_range; [cbn [length]; lia | exact Hj].
  - intros Hn Hcolors.
    assert (Hbuild : exists g, buildGradient parsesAsColor colors = Normal g).
    { destruct colors as [| c [| c' rest]]; [eexists; reflexivity | contradiction |].
      unfold buildGradient. rewrite gradientStep_regular by (cbn [length]; lia).
      rewrite addColorStops_anchored; [eexists; reflexivity | | exact Hcolors].
      intros j Hj. apply anchors_in_range; [cbn [length]; lia | exact Hj]. }
    destruct Hbuild as [g Hg]. unfold createGradient. rewrite Hg. cbn [bind].
    eexists. split; [reflexivity |]. rewrite getImageData_length. reflexivity.
Qed.

Lemma createGradient_outcome_witness :
  createGradient blankSample (fun c => String.eqb c "#00f") ["#00f"; "red"]%string
  = Throw SyntaxError.
Proof.
  apply (proj1 (proj2 (createGradient_outcome blankSample (fun c => String.eqb c "#00f")
                         ["#00f"; "red"]%string))).
  - discriminate.
  - reflexivity.
Defined.

(** The constructor (lines 85-182) ends as the build of its table ends, and
    the layer it returns has its caches in step with its properties: the
    table is the one built from the gradient property and has 1024 bytes,
    the cached stamp is the stamp at scale 1 for the radius and the blur of
    the layer, and there is no base resolution yet. *)
Theorem constructor_fills_the_caches sample parsesAsColor (options : Options) :
  match newHilomap sample parsesAsColor options with
  | Normal l =>
      getGradient l = default DEFAULT_GRADIENT (o_gradient options) /\
      createGradient sample parsesAsColor (getGradient l) = Normal (gradient_ l) /\
      length (gradient_ l) = 1024%nat /\
      getRadius l = default 5%Q (o_radius options) /\
      getBlur l = default 5%Q (o_blur options) /\
      circleImage_ l = Some (createCircle_ l 1) /\
      baseResolution_ l = None
  | Throw e =>
      createGradient sample parsesAsColor (default DEFAULT_GRADIENT (o_gradient options))
      = Throw e
  end.
Proof.
  unfold newHilomap, setGradient.
  destruct (createGradient sample parsesAsColor
              (default DEFAULT_GRADIENT (o_gradient options))) as [table | e] eqn:E;
    [| reflexivity].
  cbn [bind handleStyleChanged_ getGradient gradient_ getRadius getBlur circleImage_
       baseResolution_].
  repeat split; try reflexivity; [exact E |].
  eapply createGradient_table_length, E.
Qed.

(** ** Pixels *)

Lemma to_Z_of_Z (z : Z) : U8.to_Z (U8.of_Z z) = Z.max 0 (Z.min 255 z).
Proof.
  unfold U8.of_Z, U8.to_Z. set (m := Z.max 0 (Z.min 255 z)).
  assert (Hm : 0 <= m <= 255) by lia.
  destruct (Byte.of_N (Z.to_N m)) as [b |] eqn:E.
  - cbn [default from_option id]. apply Byte.to_of_N in E.
    change (id b) with b. rewrite E. lia.
  - apply Byte.of_N_None_iff in E. lia.
Qed.

Lemma stored_integer (z : Z) : U8.of_Num (Js.of_Z z) = U8.of_Z z.
Proof. cbn [U8.of_Num Js.of_Z]. rewrite round_half_even_Z. reflexivity. Qed.

(** The signed value of a pixel (line 449) on two alpha bytes: it lies
    between 1 and 255 and is never 0, so that the test of line 457 never
    fails and entry 0 of the table is never read; it is 128 where the two
    alphas agree, above 128 exactly where the high alpha is the greater, and
    it grows with the high alpha and falls with the low one. *)
Theorem signed_value_of_a_pixel (h l : byte) :
  let w := spec_signed (U8.to_Z h) (U8.to_Z l) in
  signedIntensity (Js.of_Z (U8.to_Z h)) (Js.of_Z (U8.to_Z l)) = Js.of_Z w /\
  1 <= w <= 255 /\
  Js.truthy (Js.of_Z w * 4%Q) = true /\
  (h = l -> w = 128) /\
  (128 < w <-> U8.to_Z l < U8.to_Z h) /\
  (forall h' l' : byte,
      U8.to_Z h <= U8.to_Z h' -> U8.to_Z l' <= U8.to_Z l ->
      w <= spec_signed (U8.to_Z h') (U8.to_Z l')).
Proof.
  intros w. pose proof (to_Z_range h) as Hh. pose proof (to_Z_range l) as Hl.
  assert (Hhalf : forall a b, 0 <= a <= 255 -> 0 <= b <= 255 ->
            exists r, 0 <= r < 2 /\ 257 + a - b = 2 * spec_signed a b + r
                      \/ (a - b = 255 /\ spec_signed a b = 255)).
  { intros a b Ha Hb. rewrite spec_signed_half.
    pose proof (Z.div_mod (257 + a - b) 2 ltac:(lia)) as Hd.
    pose proof (Z.mod_pos_bound (257 + a - b) 2 ltac:(lia)) as Hm.
    exists ((257 + a - b) mod 2). lia. }
  assert (Hw : 1 <= w <= 255) by (apply spec_signed_bytes; assumption).
  split; [apply signedIntensity_bytes |].
  split; [exact Hw |].
  split.
  { cbn [Js.of_Z Js.mul Js.truthy]. apply negb_true_iff, not_true_iff_false.
    intros E. apply Qeq_bool_eq in E.
    assert (1 <= inject_Z w)%Q by (change 1%Q with (inject_Z 1); rewrite <- Zle_Qle; lia).
    lra. }
  destruct (Hhalf _ _ Hh Hl) as (r & Hr). fold w in Hr.
  split; [intros ->; lia |].
  split; [lia |].
  intros h' l' Hh' Hl'.
  pose proof (to_Z_range h') as Hh2. pose proof (to_Z_range l') as Hl2.
  destruct (Hhalf _ _ Hh2 Hl2) as (r' & Hr').
  pose proof (spec_signed_bytes _ _ Hh2 Hl2). lia.
Qed.

(** The buffer of a round (lines 403-412 and 423-432) keeps the alpha
    channel of the canvas and nothing else: on a canvas of W by H pixels it
    has four bytes per pixel, the fourth is the alpha that the canvas reads
    back for the pixel and the three others are 0. *)
Theorem alpha_buffer_keeps_alpha_only sample (c : Canvas) (W H : Z) :
  width c = inject_Z W -> height c = inject_Z H -> 0 <= W -> 0 <= H ->
  length (alphaOf sample c) = (4 * Z.to_nat (W * H))%nat /\
  forall k, (k < Z.to_nat (W * H))%nat ->
    alphaOf sample c !! (4 * k + 3)%nat = Some (sample c (4 * k + 3)%nat) /\
    alphaOf sample c !! (4 * k)%nat = Some x00 /\
    alphaOf sample c !! (4 * k + 1)%nat = Some x00 /\
    alphaOf sample c !! (4 * k + 2)%nat = Some x00.
Proof. apply alphaOf_pixels. Qed.

Lemma alpha_buffer_keeps_alpha_only_witness :
  length (alphaOf blankSample (mkCanvas 4 4 [])) = 64%nat.
Proof.
  apply (proj1 (alpha_buffer_keeps_alpha_only blankSample (mkCanvas 4 4 []) 4 4
                  eq_refl eq_refl ltac:(lia) ltac:(lia))).
Defined.

(** ** The rescaling loop and the resolved image *)

Lemma Math_round_mono (x y : Q) : (x <= y)%Q -> Math_round x <= Math_round y.
Proof. intros H. unfold Math_round. apply Qfloor_resp_le. lra. Qed.

Lemma quotient_mono (d x y : Q) :
  (0 < d)%Q -> (x <= y)%Q -> (x * 255 / d <= y * 255 / d)%Q.
Proof.
  intros Hd H. unfold Qdiv. apply Qmult_le_compat_r; [lra |].
  apply Qinv_le_0_compat. lra.
Qed.

Lemma rescaled_regular (a lo hi : Z) :
  lo < hi ->
  rescaled (Js.of_Z a) (Js.of_Z lo) (Js.of_Z hi)
  = Js.of_Z (Math_round ((inject_Z a - inject_Z lo) * 255 / (inject_Z hi - inject_Z lo))).
Proof.
  intros H. unfold rescaled. cbn [Js.of_Z Js.sub Js.mul Js.div].
  replace (Qeqb (inject_Z hi - inject_Z lo) 0) with false; [reflexivity |].
  symmetry. apply not_true_iff_false. intros E. apply Qeq_bool_eq in E.
  assert (inject_Z lo < inject_Z hi)%Q by (rewrite <- Zlt_Qlt; exact H). lra.
Qed.

Lemma rescaledByte_mono (a a' lo hi : Z) :
  lo < hi -> a <= a' -> rescaledByte a lo hi <= rescaledByte a' lo hi.
Proof.
  intros H Ha. unfold rescaledByte.
  assert (Hd : (0 < inject_Z hi - inject_Z lo)%Q).
  { assert (inject_Z lo < inject_Z hi)%Q by (rewrite <- Zlt_Qlt; exact H). lra. }
  assert (Hq : (inject_Z a - inject_Z lo <= inject_Z a' - inject_Z lo)%Q).
  { assert (inject_Z a <= inject_Z a')%Q by (rewrite <- Zle_Qle; exact Ha). lra. }
  pose proof (Math_round_mono _ _ (quotient_mono _ _ _ Hd Hq)). lia.
Qed.

Lemma rescaledByte_ends (lo hi : Z) :
  lo < hi -> rescaledByte lo lo hi = 0 /\ rescaledByte hi lo hi = 255.
Proof.
  intros H. unfold rescaledByte.
  assert (Hd : (0 < inject_Z hi - inject_Z lo)%Q).
  { assert (inject_Z lo < inject_Z hi)%Q by (rewrite <- Zlt_Qlt; exact H). lra. }
  assert (E0 : ((inject_Z lo - inject_Z lo) * 255 / (inject_Z hi - inject_Z lo)
                == inject_Z 0)%Q).
  { change (inject_Z 0) with 0%Q. field. lra. }
  assert (E1 : ((inject_Z hi - inject_Z lo) * 255 / (inject_Z hi - inject_Z lo)
                == inject_Z 255)%Q).
  { change (inject_Z 255) with 255%Q. field. lra. }
  unfold Math_round.
  assert (F0 : Qfloor ((inject_Z lo - inject_Z lo) * 255 / (inject_Z hi - inject_Z lo)
                       + (1 # 2)) = 0).
  { rewrite (Qfloor_comp _ (inject_Z 0 + (1 # 2))) by (rewrite E0; reflexivity).
    apply (Math_round_Z 0). }
  assert (F1 : Qfloor ((inject_Z hi - inject_Z lo) * 255 / (inject_Z hi - inject_Z lo)
                       + (1 # 2)) = 255).
  { rewrite (Qfloor_comp _ (inject_Z 255 + (1 # 2))) by (rewrite E1; reflexivity).
    apply (Math_round_Z 255). }
  rewrite F0, F1. split; reflexivity.
Qed.

(** The quotient of line 467 when the range is not empty, on integers
    [lo < hi]: the alpha byte stored is [round((a - lo) * 255 / (hi - lo))]
    cut to 0..255 by the store of the typed array.  It is 0 for every alpha
    up to [lo], 255 for every alpha from [hi] on, and it grows with the
    alpha. *)
Theorem rescale_stretches_the_range (a lo hi : Z) :
  lo < hi ->
  U8.to_Z (U8.of_Num (rescaled (Js.of_Z a) (Js.of_Z lo) (Js.of_Z hi)))
  = rescaledByte a lo hi /\
  (a <= lo -> rescaledByte a lo hi = 0) /\
  (hi <= a -> rescaledByte a lo hi = 255) /\
  (forall a', a <= a' -> rescaledByte a lo hi <= rescaledByte a' lo hi).
Proof.
  intros H. destruct (rescaledByte_ends lo hi H) as [E0 E1].
  split; [| split; [| split]].
  - rewrite (rescaled_regular a lo hi H), stored_integer, to_Z_of_Z. reflexivity.
  - intros Ha. pose proof (rescaledByte_mono a lo lo hi H Ha).
    assert (0 <= rescaledByte a lo hi) by (unfold rescaledByte; lia). lia.
  - intros Ha. pose proof (rescaledByte_mono hi a lo hi H Ha).
    assert (rescaledByte a lo hi <= 255) by (unfold rescaledByte; lia). lia.
  - intros a' Ha. apply rescaledByte_mono; assumption.
Qed.

Lemma rescale_stretches_the_range_witness :
  U8.to_Z (U8.of_Num (rescaled (Js.of_Z 161) (Js.of_Z 100) (Js.of_Z 200)))
  = rescaledByte 161 100 200.
Proof.
  apply (proj1 (rescale_stretches_the_range 161 100 200 ltac:(lia))).
Defined.

Lemma get_alpha (A : list byte) (k : nat) :
  (4 * k + 3 < length A)%nat -> U8.get A (4 * k + 3) = Js.of_Z (alphaAt A k).
Proof.
  intros H. destruct (lookup_lt_is_Some_2 A (4 * k + 3)) as [b Hb]; [exact H |].
  unfold U8.get, alphaAt. rewrite Hb. reflexivity.
Qed.

Lemma rescale_invariant (lo hi : Js.Num) (im : list byte) (n m : nat) :
  length im = (4 * n)%nat -> (m <= n)%nat ->
  let R := fold_left (fun acc k => rescaleStep lo hi (4 * k) acc) (seq 0 m) im in
  length R = (4 * n)%nat /\
  forall k ch, (ch < 4)%nat ->
    R !! (4 * k + ch)%nat
    = if (k <? m)%nat && (ch =? 3)%nat
      then Some (U8.of_Num (rescaled (Js.of_Z (alphaAt im k)) lo hi))
      else im !! (4 * k + ch)%nat.
Proof.
  intros Hlen. induction m as [| m IH]; intros Hm R.
  - split; [exact Hlen | intros k ch Hch; reflexivity].
  - destruct IH as [HlenR Hpix]; [lia |].
    unfold R. rewrite seq_S, fold_left_app. cbn [fold_left]. rewrite Nat.add_0_l.
    set (R0 := fold_left _ (seq 0 m) _) in *.
    assert (Hget : U8.get R0 (4 * m + 3) = Js.of_Z (alphaAt im m)).
    { rewrite get_alpha by lia. f_equal. unfold alphaAt.
      rewrite (Hpix m 3%nat) by lia.
      replace (m <? m)%nat with false by (symmetry; apply Nat.ltb_ge; lia).
      reflexivity. }
    unfold rescaleStep, U8.set. rewrite Hget.
    split; [rewrite length_insert; exact HlenR |].
    intros k ch Hch. rewrite list_lookup_insert, HlenR.
    destruct (decide (k = m)) as [-> | Hk].
    + replace (m <? S m)%nat with true by (symmetry; apply Nat.ltb_lt; lia).
      destruct (Nat.eqb_spec ch 3) as [-> | Hne]; cbn [andb].
      * rewrite decide_True by lia. reflexivity.
      * rewrite decide_False by lia. rewrite Hpix by exact Hch.
        replace (m <? m)%nat with false by (symmetry; apply Nat.ltb_ge; lia).
        reflexivity.
    + rewrite decide_False by lia. rewrite Hpix by exact Hch.
      replace (k <? S m)%nat with (k <? m)%nat; [reflexivity |].
      destruct (k <? m)%nat eqn:E; symmetry;
        [apply Nat.ltb_lt in E; apply Nat.ltb_lt | apply Nat.ltb_ge in E; apply Nat.ltb_ge];
        lia.
Qed.

Lemma rescale_pixels (lo hi : Js.Num) (im : list byte) (n : nat) :
  length im = (4 * n)%nat ->
  length (rescale lo hi im) = (4 * n)%nat /\
  forall k, (k < n)%nat ->
    (forall ch, (ch < 3)%nat -> rescale lo hi im !! (4 * k + ch)%nat = im !! (4 * k + ch)%nat) /\
    rescale lo hi im !! (4 * k + 3)%nat
    = Some (U8.of_Num (rescaled (Js.of_Z (alphaAt im k)) lo hi)).
Proof.
  intros Hlen.
  destruct (rescale_invariant lo hi im n n Hlen (le_n n)) as [HlenR Hpix].
  cbv zeta in HlenR, Hpix.
  assert (E : rescale lo hi im
              = fold_left (fun acc k => rescaleStep lo hi (4 * k) acc) (seq 0 n) im).
  { unfold rescale. rewrite Hlen. apply for4_pixels. }
  rewrite <- E in HlenR, Hpix.
  split; [exact HlenR |]. intros k Hk. split.
  - intros ch Hch. rewrite Hpix by lia.
    replace (ch =? 3)%nat with false by (symmetry; apply Nat.eqb_neq; lia).
    rewrite andb_false_r. reflexivity.
  - rewrite Hpix by lia.
    replace (k <? n)%nat with true by (symmetry; apply Nat.ltb_lt; lia).
    reflexivity.
Qed.

(** The loop of lines 466-468 on an array of [n] pixels: it keeps the
    length and the three colour bytes of every pixel, and replaces the alpha
    byte of each pixel by the quotient of line 467 of that pixel's own alpha,
    whatever the range is. *)
Theorem rescale_rewrites_alpha_only (lo hi : Js.Num) (im : list byte) (n : nat) :
  length im = (4 * n)%nat ->
  length (rescale lo hi im) = (4 * n)%nat /\
  forall k, (k < n)%nat ->
    (forall ch, (ch < 3)%nat -> rescale lo hi im !! (4 * k + ch)%nat = im !! (4 * k + ch)%nat) /\
    rescale lo hi im !! (4 * k + 3)%nat
    = Some (U8.of_Num (rescaled (Js.of_Z (alphaAt im k)) lo hi)).
Proof. apply rescale_pixels. Qed.

Lemma rescale_rewrites_alpha_only_witness :
  length (rescale 100%Q 200%Q [x01; x02; x03; xa1; x04; x05; x06; x10]) = 8%nat.
Proof.
  apply (proj1 (rescale_rewrites_alpha_only 100%Q 200%Q
                  [x01; x02; x03; xa1; x04; x05; x06; x10] 2 eq_refl)).
Defined.

Lemma resolve_pixels (gradient hiA loA img0 : list byte) (n : nat) :
  length img0 = (4 * n)%nat -> length hiA = (4 * n)%nat ->
  length loA = (4 * n)%nat -> length gradient = 1024%nat ->
  let w k := spec_signed (alphaAt hiA k) (alphaAt loA k) in
  let out := resolve gradient hiA loA img0 in
  exists lo hi,
    (forall k, (k < n)%nat -> lo <= w k <= hi) /\
    ((0 < n)%nat -> (exists k, (k < n)%nat /\ w k = lo) /\
                    (exists k, (k < n)%nat /\ w k = hi)) /\
    length out = (4 * n)%nat /\
    forall k, (k < n)%nat ->
      (forall ch, (ch < 3)%nat ->
         out !! (4 * k + ch)%nat = gradient !! Z.to_nat (4 * w k + Z.of_nat ch)) /\
      out !! (4 * k + 3)%nat
      = Some (U8.of_Num (rescaled (Js.of_Z (alphaAt img0 k)) (Js.of_Z lo) (Js.of_Z hi))).
Proof.
  intros Himg Hhi Hlo Hgradient w out.
  destruct (colorize_invariant gradient hiA loA img0 n Himg Hhi Hlo Hgradient n (le_n n))
    as (Hlen & Hpix & lo & hi & Hmin & Hmax & Hbound & _ & Hpos).
  assert (Hs : colorize gradient hiA loA img0
               = fold_left (fun acc k => colorStep gradient hiA loA (4 * k) acc) (seq 0 n)
                   {| img := img0; wMin := 255%Q; wMax := 0%Q |}).
  { unfold colorize. rewrite Himg. apply for4_pixels. }
  rewrite <- Hs in Hlen, Hpix, Hmin, Hmax.
  exists lo, hi. split; [exact Hbound | split; [exact Hpos |]].
  unfold out, resolve. cbv zeta. rewrite Hmin, Hmax.
  destruct (rescale_pixels (Js.of_Z lo) (Js.of_Z hi)
              (img (colorize gradient hiA loA img0)) n Hlen) as [HlenR HpixR].
  split; [exact HlenR |]. intros k Hk. destruct (HpixR k Hk) as [Hrgb Ha]. split.
  - intros ch Hch. rewrite Hrgb, Hpix by lia.
    replace (k <? n)%nat with true by (symmetry; apply Nat.ltb_lt; lia).
    replace (ch <? 3)%nat with true by (symmetry; apply Nat.ltb_lt; lia).
    reflexivity.
  - rewrite Ha. do 3 f_equal. unfold alphaAt. rewrite (Hpix k 3%nat) by lia.
    rewrite andb_false_r. reflexivity.
Qed.

(** Lines 446-468 as a whole, on buffers of [n] pixels and a table of 256
    entries: every pixel of the image that is written back has the colour of
    the table entry of its signed value, and the alpha it had after the
    final round, rescaled by the least and the greatest signed value of the
    frame. *)
Theorem resolved_pixel (gradient hiA loA img0 : list byte) (n : nat) :
  length img0 = (4 * n)%nat -> length hiA = (4 * n)%nat ->
  length loA = (4 * n)%nat -> length gradient = 1024%nat ->
  let w k := spec_signed (alphaAt hiA k) (alphaAt loA k) in
  let out := resolve gradient hiA loA img0 in
  exists lo hi,
    (forall k, (k < n)%nat -> lo <= w k <= hi) /\
    ((0 < n)%nat -> (exists k, (k < n)%nat /\ w k = lo) /\
                    (exists k, (k < n)%nat /\ w k = hi)) /\
    length out = (4 * n)%nat /\
    forall k, (k < n)%nat ->
      (forall ch, (ch < 3)%nat ->
         out !! (4 * k + ch)%nat = gradient !! Z.to_nat (4 * w k + Z.of_nat ch)) /\
      out !! (4 * k + 3)%nat
      = Some (U8.of_Num (rescaled (Js.of_Z (alphaAt img0 k)) (Js.of_Z lo) (Js.of_Z hi))).
Proof. apply resolve_pixels. Qed.

Lemma resolved_pixel_witness :
  exists lo hi : Z,
    resolve (replicate 1024 x7f)
            [x00; x00; x00; xff; x00; x00; x00; x00]
            [x00; x00; x00; x0a; x00; x00; x00; x00]
            [x00; x00; x00; x10; x01; x02; x03; xf0] !! 7%nat
    = Some (U8.of_Num (rescaled (Js.of_Z 240) (Js.of_Z lo) (Js.of_Z hi))).
Proof.
  destruct (resolved_pixel (replicate 1024 x7f)
              [x00; x00; x00; xff; x00; x00; x00; x00]
              [x00; x00; x00; x0a; x00; x00; x00; x00]
              [x00; x00; x00; x10; x01; x02; x03; xf0]
              2 eq_refl eq_refl eq_refl eq_refl) as (lo & hi & _ & _ & _ & H).
  exists lo, hi. apply (proj2 (H 1%nat ltac:(lia))).
Defined.

(** ** The frame that is written back *)

Lemma withBaseResolution_gradient (this : Hilomap) (r : Q) :
  gradient_ (withBaseResolution this r) = gradient_ this.
Proof. unfold withBaseResolution. destruct (baseResolution_ this); reflexivity. Qed.

(** A frame with at least one point, on a canvas of W by H pixels and with
    a table of 256 entries: the handler ends with one putImageData of an
    image of 4 * W * H bytes, and every pixel of that image, also one that
    no stamp has touched, has the three colour bytes of one of the table
    entries 1 to 255. *)
Theorem handler_paints_every_pixel sample (this : Hilomap) (event : RenderEvent)
    (p : Point) (points : list Point) (W H : Z) :
  framePointset this event = Normal (p :: points) ->
  width (context event) = inject_Z W -> height (context event) = inject_Z H ->
  0 <= W -> 0 <= H ->
  length (gradient_ this) = 1024%nat ->
  exists (image : ImageData) (before : list Call),
    history (context' (handleRender_ sample this event))
    = before ++ [PutImageData image 0 0] /\
    length (data image) = (4 * Z.to_nat (W * H))%nat /\
    forall k, (k < Z.to_nat (W * H))%nat ->
      exists w, 1 <= w <= 255 /\
        forall ch, (ch < 3)%nat ->
          data image !! (4 * k + ch)%nat
          = gradient_ this !! Z.to_nat (4 * w + Z.of_nat ch).
Proof.
  intros Hps Hw Hh HW HH Hg.
  unfold framePointset in Hps. unfold handleRender_.
  destruct (findLayer _) as [found |]; [| discriminate].
  rewrite Hps. cbn [context']. cbv zeta.
  unfold drawPointset. change (0 <? length (p :: points))%nat with true. cbv iota.
  unfold rasterize.
  match goal with
  | |- context [composite sample ?ci ?r ?ps ?c] =>
      pose proof (composite_buffers_fit sample ci r ps c W H Hw Hh HW HH) as Hfit;
      destruct (composite sample ci r ps c) as [[c3 loA] hiA]
  end.
  cbv zeta in Hfit. cbn [fst snd] in Hfit. destruct Hfit as (Hlo & Hhi & Himg).
  rewrite withBaseResolution_gradient.
  destruct (resolve_pixels (gradient_ this) hiA loA (data (getImageData sample c3))
              (Z.to_nat (W * H)) Himg Hhi Hlo Hg)
    as (lo & hi & _ & _ & Hlen & Hpix).
  eexists _, (history (readBack c3)). split; [reflexivity |].
  cbn [data]. split; [exact Hlen |].
  intros k Hk. exists (spec_signed (alphaAt hiA k) (alphaAt loA k)).
  split; [apply spec_signed_bytes; apply to_Z_range |].
  intros ch Hch. apply (proj1 (Hpix k Hk)), Hch.
Qed.

Lemma handler_paints_every_pixel_witness :
  exists (image : ImageData) (before : list Call),
    history (context' (handleRender_ blankSample (layerOf [])
                         (frameOf (layerOf [pointFeature 20 20 0%Q]))))
    = before ++ [PutImageData image 0 0] /\
    length (data image) = 64%nat.
Proof.
  destruct (handler_paints_every_pixel blankSample (layerOf [])
              (frameOf (layerOf [pointFeature 20 20 0%Q]))
              (20, 20, Js.Fin 0) [] 4 4 eq_refl eq_refl eq_refl
              ltac:(lia) ltac:(lia) eq_refl)
    as (image & before & E & L & _).
  exists image, before. split; assumption.
Defined.

Lemma countCalls_app kind (ks1 ks2 : list Call) :
  countCalls kind (ks1 ++ ks2) = (countCalls kind ks1 + countCalls kind ks2)%nat.
Proof. unfold countCalls. rewrite List.filter_app, length_app. reflexivity. Qed.

Lemma countCalls_cons kind (k : Call) (ks : list Call) :
  countCalls kind (k :: ks) = ((if kind k then 1 else 0) + countCalls kind ks)%nat.
Proof. unfold countCalls. cbn [List.filter]. destruct (kind k); reflexivity. Qed.

Lemma count_draws circle radius alpha (points : list Point) :
  length (draws circle radius alpha points) = (2 * length points)%nat /\
  countCalls isDrawImage (draws circle radius alpha points) = length points /\
  countCalls isSetGlobalAlpha (draws circle radius alpha points) = length points /\
  countCalls isClearRect (draws circle radius alpha points) = 0%nat /\
  countCalls isGetImageData (draws circle radius alpha points) = 0%nat /\
  countCalls isPutImageData (draws circle radius alpha points) = 0%nat.
Proof.
  unfold countCalls.
  induction points as [| q points (IH1 & IH2 & IH3 & IH4 & IH5 & IH6)]; [repeat split |].
  cbn [draws flat_map app List.filter isDrawImage isClearRect isPutImageData
       isGetImageData isSetGlobalAlpha length].
  fold (draws circle radius alpha points).
  rewrite IH1, IH2, IH3, IH4, IH5, IH6. repeat split; lia.
Qed.

Lemma rounds_split (pointset : list Point) :
  (length (filter (fun p => isLow p = true) pointset)
   + length (filter (fun p => isLow p = false) pointset))%nat
  = length pointset.
Proof.
  induction pointset as [| q pointset IH]; [reflexivity |].
  rewrite !filter_cons. destruct (isLow q) eqn:E.
  - rewrite decide_True by reflexivity. rewrite decide_False by discriminate.
    cbn [length]. lia.
  - rewrite decide_False by discriminate. rewrite decide_True by reflexivity.
    cbn [length]. lia.
Qed.

(** What a frame with L points costs on the canvas, whatever the weights
    are (a weight that is no number included): the handler issues 4 * L + 7
    operations, of which three are clearRect, three getImageData, one
    putImageData, 2 * L assignments of globalAlpha and 2 * L drawImage:
    every point is stamped twice, once in its own round and once in the
    final round. *)
Theorem every_point_is_stamped_twice sample (this : Hilomap) (event : RenderEvent)
    (p : Point) (points : list Point) :
  framePointset this event = Normal (p :: points) ->
  let before := history (context event) in
  let after := history (context' (handleRender_ sample this event)) in
  let L := length (p :: points) in
  length after = (length before + 4 * L + 7)%nat /\
  countCalls isDrawImage after = (countCalls isDrawImage before + 2 * L)%nat /\
  countCalls isSetGlobalAlpha after = (countCalls isSetGlobalAlpha before + 2 * L)%nat /\
  countCalls isClearRect after = (countCalls isClearRect before + 3)%nat /\
  countCalls isGetImageData after = (countCalls isGetImageData before + 3)%nat /\
  countCalls isPutImageData after = (countCalls isPutImageData before + 1)%nat.
Proof.
  intros H before after L.
  destruct (nonempty_pointset_writes_back sample this event p points H) as [image E].
  cbv zeta in E. unfold after. rewrite E. clear E.
  pose proof (rounds_split (p :: points)) as Hsplit. fold L in Hsplit.
  set (low := filter (fun q => isLow q = true) (p :: points)) in *.
  set (high := filter (fun q => isLow q = false) (p :: points)) in *.
  match goal with
  | |- context [draws ?c ?r lowAlpha low] =>
      destruct (count_draws c r lowAlpha low) as (A1 & A2 & A3 & A4 & A5 & A6);
      destruct (count_draws c r highAlpha high) as (B1 & B2 & B3 & B4 & B5 & B6);
      destruct (count_draws c r finalAlpha (p :: points))
        as (C1 & C2 & C3 & C4 & C5 & C6);
      set (d1 := draws c r lowAlpha low) in *;
      set (d2 := draws c r highAlpha high) in *;
      set (d3 := draws c r finalAlpha (p :: points)) in *
  end.
  fold L in C1, C2, C3.
  repeat split;
    rewrite ?length_app, ?countCalls_app, ?length_cons, ?countCalls_cons,
            ?length_app, ?countCalls_app, ?length_cons, ?countCalls_cons,
            ?length_app, ?countCalls_app, ?length_cons, ?countCalls_cons,
            ?length_app, ?countCalls_app, ?length_cons, ?countCalls_cons;
    cbn [isDrawImage isClearRect isPutImageData isGetImageData isSetGlobalAlpha
         length countCalls List.filter];
    unfold before; lia.
Qed.

Lemma every_point_is_stamped_twice_witness :
  countCalls isDrawImage
    (history (context' (handleRender_ blankSample (layerOf [])
                          (frameOf (layerOf [pointFeature 20 20 0%Q])))))
  = 2%nat.
Proof.
  apply (proj1 (proj2 (every_point_is_stamped_twice blankSample (layerOf [])
                         (frameOf (layerOf [pointFeature 20 20 0%Q]))
                         (20, 20, Js.Fin 0) [] eq_refl))).
Defined.
